(** * Hit Region Highlighter: the sampling and mapping engine

    A shallow embedding of the JavaScript sources

    - [src/models/Coordinate.js]          (coordinate utilities),
    - [src/models/HitRegionMap.js]        (the bidirectional index),
    - [src/InteractiveElementFinder.js]   (the classifier),
    - [src/HitRegionCalculator.js]        (grid generation and the pass),
    - [src/content.js]                    (orchestration, mutation filter),
    - [src/ConfigurationManager.js]       (the configuration),
    - [src/CanvasRenderer.js]             (the overlay),
    - [src/options/options.js]            (the save handler),

    followed by the properties of the specification that were checked
    against them. *)

(** Further properties of the code follow those of the specification. *)

From Stdlib Require Import ZArith String Ascii List Lia Bool.
From Stdlib Require Import DecimalString DecimalZ QArith_base Qreduction.
From stdpp Require Import gmap strings list fin_maps.

Close Scope Q_scope.
Local Open Scope Z_scope.

(* ===================================================================== *)
(** * JavaScript values used by the engine *)
(* ===================================================================== *)

(** The property values a coordinate can carry.  [JInt z] is the
    integer-valued number [z]: viewport pixel positions are integers, and
    the grid only ever produces sums of the integer resolution.  Fractional
    numbers and the negative zero are outside this model, and so are
    integers of magnitude [10^21] and more, from which on JavaScript prints
    numbers in exponent notation. *)
Inductive JsValue : Type :=
  | JUndefined
  | JNaN
  | JInfinity (negative : bool)
  | JInt (z : Z).

#[global] Instance JsValue_eq_dec : EqDecision JsValue.
Proof. solve_decision. Defined.

(** [typeof v === 'number'] *)
Definition typeof_number (v : JsValue) : bool :=
  match v with JUndefined => false | _ => true end.

(** The global [isNaN] (it first converts its argument to a number, and
    [undefined] converts to [NaN]). *)
Definition isNaN (v : JsValue) : bool :=
  match v with JUndefined | JNaN => true | _ => false end.

(** The global [isFinite]. *)
Definition isFinite (v : JsValue) : bool :=
  match v with JInt _ => true | _ => false end.

(** [a === b] on these values: [NaN] is not equal to itself. *)
Definition strict_equals (a b : JsValue) : bool :=
  match a, b with
  | JUndefined, JUndefined => true
  | JInfinity s, JInfinity t => Bool.eqb s t
  | JInt m, JInt n => m =? n
  | _, _ => false
  end.

(** Number-to-string conversion, as a template literal [`${v}`] performs it. *)
Definition numberToString (v : JsValue) : string :=
  match v with
  | JUndefined => "undefined"
  | JNaN => "NaN"
  | JInfinity false => "Infinity"
  | JInfinity true => "-Infinity"
  | JInt z => NilZero.string_of_int (Z.to_int z)
  end.

(** The value of a non-empty string of decimal digits. *)
Definition digits_value (s : string) : option Z :=
  option_map Z.of_uint (NilZero.uint_of_string s).

(** [Number(s)] on the numeric literals of the model: an optionally signed
    run of decimal digits, an optionally signed [Infinity], and the empty
    string, which converts to [0].  Every other string is read as [NaN]
    (fractional, exponent and radix literals and surrounding white space
    are not modelled). *)
Definition Number (s : string) : JsValue :=
  if decide (s = "Infinity") then JInfinity false
  else if decide (s = "+Infinity") then JInfinity false
  else if decide (s = "-Infinity") then JInfinity true
  else match s with
       | EmptyString => JInt 0
       | String c s' =>
           if Ascii.eqb c "-"%char then
             match digits_value s' with Some n => JInt (- n) | None => JNaN end
           else if Ascii.eqb c "+"%char then
             match digits_value s' with Some n => JInt n | None => JNaN end
           else
             match digits_value s with Some n => JInt n | None => JNaN end
       end.

(** The strings on which [Number] above is the conversion JavaScript
    makes: the empty string, [NaN] and [undefined] (which are no numeric
    literals), an optionally signed [Infinity], and an optionally signed run
    of decimal digits whose value is at most [2^53], where the double is the
    integer itself; a negative sign before the value zero is left out, its
    double being the negative zero. *)
Definition exact_literal (s : string) : bool :=
  bool_decide (s ∈ [EmptyString; "NaN"; "undefined"; "Infinity"; "+Infinity";
                    "-Infinity"])
  || match s with
     | EmptyString => false
     | String c s' =>
         if Ascii.eqb c "-"%char then
           match digits_value s' with
           | Some n => (0 <? n) && (n <=? 2 ^ 53)
           | None => false
           end
         else if Ascii.eqb c "+"%char then
           match digits_value s' with Some n => n <=? 2 ^ 53 | None => false end
         else
           match digits_value s with Some n => n <=? 2 ^ 53 | None => false end
     end.

(** [s.split(',')]: the pieces of [s] between commas; a string without a
    comma, the empty one included, is its own single piece. *)
Fixpoint split_comma (s : string) : list string :=
  match s with
  | EmptyString => [EmptyString]
  | String c s' =>
      if Ascii.eqb c ","%char then EmptyString :: split_comma s'
      else match split_comma s' with
           | [] => [String c EmptyString]
           | p :: ps => String c p :: ps
           end
  end.

(** Array destructuring [const [x, y] = arr]: a missing element is
    [undefined]. *)
Definition array_at (arr : list JsValue) (i : nat) : JsValue :=
  match arr !! i with Some v => v | None => JUndefined end.

(** The characters of a printed integer. *)
Definition is_digit (c : ascii) : bool :=
  let n := nat_of_ascii c in (48 <=? n)%nat && (n <=? 57)%nat.

Fixpoint all_digits (s : string) : bool :=
  match s with
  | EmptyString => true
  | String c s' => is_digit c && all_digits s'
  end.

Fixpoint comma_free (s : string) : bool :=
  match s with
  | EmptyString => true
  | String c s' => negb (Ascii.eqb c ","%char) && comma_free s'
  end.

(* ===================================================================== *)
(** * Coordinate.js *)
(* ===================================================================== *)

Record Coordinate : Type := { x : JsValue; y : JsValue }.

#[global] Instance Coordinate_eq_dec : EqDecision Coordinate.
Proof. solve_decision. Defined.

(** [coordToKey]: the template literal [`${coord.x},${coord.y}`]. *)
Definition coordToKey (coord : Coordinate) : string :=
  numberToString (x coord) +:+ "," +:+ numberToString (y coord).

(** [keyToCoord]: [const [x, y] = key.split(',').map(Number)]. *)
Definition keyToCoord (key : string) : Coordinate :=
  let arr := map Number (split_comma key) in
  {| x := array_at arr 0; y := array_at arr 1 |}.

(** A number a double holds as it is: [NaN], an infinity, or an integer
    of at most [2^53]. *)
Definition safe_number (v : JsValue) : Prop :=
  match v with
  | JInt z => - 2 ^ 53 ≤ z ≤ 2 ^ 53
  | JUndefined => False
  | _ => True
  end.

(** The keys on which [keyToCoord] as modelled is the decoder of the code:
    the pieces it reads, the first two, are strings on which [Number] is
    exact. *)
Definition exact_key (key : string) : bool :=
  forallb exact_literal (take 2 (split_comma key)).

Definition coordEquals (coord1 coord2 : Coordinate) : bool :=
  strict_equals (x coord1) (x coord2) && strict_equals (y coord1) (y coord2).

(** [isValidCoordinate]; the argument is [None] for [null] or [undefined]. *)
Definition isValidCoordinate (coord : option Coordinate) : bool :=
  match coord with
  | None => false
  | Some c =>
      typeof_number (x c) && typeof_number (y c)
      && negb (isNaN (x c)) && negb (isNaN (y c))
      && isFinite (x c) && isFinite (y c)
  end.

Definition createCoordinate (x y : JsValue) : Coordinate := {| x := x; y := y |}.

(* ===================================================================== *)
(** * Console output and progress callbacks *)
(* ===================================================================== *)

(** The messages the engine writes to the console, by call site. *)
Inductive ConsoleMessage : Type :=
  | WarnCoordinateLimit (limit : Z)
  | WarnElementRemoved (x y : JsValue)
  | ErrorSampling (x y : JsValue)
  | ErrorTimeout (elapsed : Z)
  | WarnSlowCalculation (duration resolution : Z)
  | LogCalculationComplete (elementCount coordinateCount : nat) (duration : Z).

(** What a pass does that its caller can observe besides the result: console
    output, and calls [onProgress(progress, i, totalCoordinates)]. *)
Inductive Event : Type :=
  | Console (msg : ConsoleMessage)
  | ProgressCall (progress : Q) (current total : nat).

Definition is_progress (ev : Event) : bool :=
  match ev with ProgressCall _ _ _ => true | Console _ => false end.

(** A JavaScript [Set]: distinct members, kept in insertion order.
    [Set.prototype.add] leaves the set as it is when the member is there. *)
Definition set_add {A : Type} `{EqDecision A} (k : A) (s : list A) : list A :=
  if decide (k ∈ s) then s else s ++ [k].

(* ===================================================================== *)
(** * models/HitRegionMap.js *)
(* ===================================================================== *)

Section HitRegionMapDef.
Context {Elem : Type} `{Countable Elem}.

(** The fields of a [HitRegionMap] instance.  Elements are object
    references: [Elem] is the type of their identities.  The [WeakMap]
    holds one [Set] of keys per element; the sets are updated in place. *)
Record HitRegionMap : Type := {
  elementToCoordinates : gmap Elem (list string);
  coordinateToElement : gmap string Elem;
  elements : list Elem;
  maxCoordinatesPerElement : Z
}.

(** [options.maxCoordinatesPerElement || 10000]: an absent or zero option
    is falsy and gives the default. *)
Definition new_HitRegionMap (maxCoordinatesPerElement : option Z) : HitRegionMap :=
  {| elementToCoordinates := ∅;
     coordinateToElement := ∅;
     elements := [];
     maxCoordinatesPerElement :=
       match maxCoordinatesPerElement with
       | Some n => if n =? 0 then 10000 else n
       | None => 10000
       end |}.

(** What one call of [addCoordinate] leaves behind: the returned boolean,
    the instance after the call, and the warnings written. *)
Record AddResult : Type := {
  added : bool;
  map_after : HitRegionMap;
  warned : list ConsoleMessage
}.

Definition addCoordinate (this : HitRegionMap)
    (element : option Elem) (coord : option Coordinate) : AddResult :=
  match element, coord with
  | Some element, Some coord =>
      (* let coordinates = this.elementToCoordinates.get(element) *)
      let '(coordinates, this1) :=
        match elementToCoordinates this !! element with
        | Some coordinates => (coordinates, this)
        | None =>
            ([],
             {| elementToCoordinates := <[element := []]> (elementToCoordinates this);
                coordinateToElement := coordinateToElement this;
                elements := set_add element (elements this);
                maxCoordinatesPerElement := maxCoordinatesPerElement this |})
        end in
      if Z.of_nat (length coordinates) >=? maxCoordinatesPerElement this then
        {| added := false;
           map_after := this1;
           warned :=
             if Z.of_nat (length coordinates) =? maxCoordinatesPerElement this
             then [WarnCoordinateLimit (maxCoordinatesPerElement this)]
             else [] |}
      else
        let key := coordToKey coord in
        {| added := true;
           map_after :=
             {| elementToCoordinates :=
                  <[element := set_add key coordinates]> (elementToCoordinates this1);
                coordinateToElement := <[key := element]> (coordinateToElement this1);
                elements := elements this1;
                maxCoordinatesPerElement := maxCoordinatesPerElement this1 |};
           warned := [] |}
  | _, _ => {| added := false; map_after := this; warned := [] |}
  end.

Definition getCoordinates (this : HitRegionMap) (element : option Elem)
    : list Coordinate :=
  match element with
  | None => []
  | Some element =>
      match elementToCoordinates this !! element with
      | None => []
      | Some coordinateKeys =>
          map (fun key =>
                 let arr := map Number (split_comma key) in
                 {| x := array_at arr 0; y := array_at arr 1 |})
              coordinateKeys
      end
  end.

(** [this.coordinateToElement.get(key) || null]; an element is an object,
    hence truthy. *)
Definition getElement (this : HitRegionMap) (coord : option Coordinate)
    : option Elem :=
  match coord with
  | None => None
  | Some coord => coordinateToElement this !! coordToKey coord
  end.

Definition hasElement (this : HitRegionMap) (element : Elem) : bool :=
  bool_decide (is_Some (elementToCoordinates this !! element)).

Definition getCoordinateCount (this : HitRegionMap) (element : Elem) : nat :=
  match elementToCoordinates this !! element with
  | Some coordinates => length coordinates
  | None => 0%nat
  end.

Definition getElements (this : HitRegionMap) : list Elem := elements this.

Definition clear (this : HitRegionMap) : HitRegionMap :=
  {| elementToCoordinates := ∅;
     coordinateToElement := ∅;
     elements := [];
     maxCoordinatesPerElement := maxCoordinatesPerElement this |}.

(** [getStats]: the pair [(elementCount, coordinateCount)]. *)
Definition getStats (this : HitRegionMap) : nat * nat :=
  (length (elements this), size (coordinateToElement this)).

(** A run of [addCoordinate] calls for one element, collecting what each
    call returned and all the warnings written. *)
Fixpoint addCoordinates (this : HitRegionMap) (element : Elem)
    (coords : list Coordinate) : list bool * HitRegionMap * list ConsoleMessage :=
  match coords with
  | [] => ([], this, [])
  | coord :: rest =>
      let r := addCoordinate this (Some element) (Some coord) in
      let '(bs, this', ws) := addCoordinates (map_after r) element rest in
      (added r :: bs, this', warned r ++ ws)
  end.

(** The keys stored for an element, none when it has no entry. *)
Definition coordinates_of (this : HitRegionMap) (element : Elem) : list string :=
  default [] (elementToCoordinates this !! element).

(** The two directions of the index consistency invariant. *)
Definition forward_consistent (this : HitRegionMap) : Prop :=
  ∀ key element,
    coordinateToElement this !! key = Some element →
    ∃ keys, elementToCoordinates this !! element = Some keys ∧ key ∈ keys.

Definition backward_consistent (this : HitRegionMap) : Prop :=
  ∀ element keys key,
    elementToCoordinates this !! element = Some keys → key ∈ keys →
    coordinateToElement this !! key = Some element.

Definition index_consistent (this : HitRegionMap) : Prop :=
  forward_consistent this ∧ backward_consistent this.

End HitRegionMapDef.

Arguments HitRegionMap Elem {_ _}.
Arguments AddResult Elem {_ _}.

(* ===================================================================== *)
(** * InteractiveElementFinder.js *)
(* ===================================================================== *)

Inductive NodeKind : Type := ElementNode | TextNode | CommentNode | DocumentNode.

#[global] Instance NodeKind_eq_dec : EqDecision NodeKind.
Proof. solve_decision. Defined.

(** A node of the host document as the classifier sees it: its identity,
    whether it is an [Element], its tag name and attributes, the computed
    [pointer-events] style, and [parentElement] ([None] for [null]).  The
    chain of parents of a node in a document is finite, which the inductive
    type expresses. *)
#[warnings="-register-all"]
Inductive Node : Type := MkNode {
  nodeId : nat;
  nodeKind : NodeKind;
  tagName : string;
  attributes : list (string * string);
  computedPointerEvents : string;
  parentElement : option Node
}.

(** [document.documentElement] and [document] itself, by identity. *)
Record Document : Type := {
  documentElement : nat;
  documentNode : nat
}.

(** [element instanceof Element] *)
Definition instanceof_Element (n : Node) : bool :=
  bool_decide (nodeKind n = ElementNode).

Fixpoint assoc_lookup (name : string) (attrs : list (string * string)) : option string :=
  match attrs with
  | [] => None
  | (k, v) :: rest => if decide (k = name) then Some v else assoc_lookup name rest
  end.

Definition getAttribute (element : Node) (name : string) : option string :=
  assoc_lookup name (attributes element).

Definition hasAttribute (element : Node) (name : string) : bool :=
  match getAttribute element name with Some _ => true | None => false end.

(** [toLowerCase] on the ASCII letters, which is all a tag name has. *)
Definition lower_ascii (c : ascii) : ascii :=
  let n := nat_of_ascii c in
  if (65 <=? n)%nat && (n <=? 90)%nat then ascii_of_nat (n + 32) else c.

Fixpoint toLowerCase (s : string) : string :=
  match s with
  | EmptyString => EmptyString
  | String c s' => String (lower_ascii c) (toLowerCase s')
  end.

Definition getImplicitRole (element : Node) : option string :=
  let tagName := toLowerCase (tagName element) in
  if decide (tagName = "button") then Some "button"
  else
    match
      (if decide (tagName = "input") then
         let type := getAttribute element "type" in
         if bool_decide (type = Some "button") || bool_decide (type = Some "submit")
            || bool_decide (type = Some "reset") || bool_decide (type = Some "image")
         then Some "button" else None
       else None)
    with
    | Some role => Some role
    | None =>
        if bool_decide (tagName = "a") && hasAttribute element "href" then Some "link"
        else if bool_decide (tagName = "area") && hasAttribute element "href" then Some "link"
        else None
    end.

(** [a || b] on a string-or-null [a]: the empty string is falsy. *)
Definition string_or (a b : option string) : option string :=
  match a with
  | Some s => if decide (s = EmptyString) then b else Some s
  | None => b
  end.

(** [isInteractive]; the argument is [None] for [null] or [undefined]. *)
Definition isInteractive (element : option Node) : bool :=
  match element with
  | None => false
  | Some element =>
      if negb (instanceof_Element element) then false
      else
        let explicitRole := getAttribute element "role" in
        let implicitRole := getImplicitRole element in
        let role := string_or explicitRole implicitRole in
        if bool_decide (role ≠ Some "button") && bool_decide (role ≠ Some "link")
        then false
        else
          let pointerEvents := computedPointerEvents element in
          if decide (pointerEvents = "none") then false else true
  end.

(** The [while] loop of [findInteractiveAncestor], from [current] on. *)
Fixpoint ancestor_walk (document : Document) (current : Node) : option Node :=
  if bool_decide (nodeId current ≠ documentElement document)
     && bool_decide (nodeId current ≠ documentNode document)
  then
    if isInteractive (Some current) then Some current
    else
      match parentElement current with
      | Some parent => ancestor_walk document parent
      | None => None
      end
  else None.

Definition findInteractiveAncestor (document : Document) (element : option Node)
    : option Node :=
  match element with
  | None => None
  | Some element =>
      if negb (instanceof_Element element) then None
      else ancestor_walk document element
  end.

(** ** The classifier and the ancestor search as the specification words them *)

(** The implicit role of the specification: native button controls, input
    controls of type button, submit, reset or image, and anchor or area
    elements that carry an href. *)
Definition implicit_role_spec (element : Node) : option string :=
  let tag := toLowerCase (tagName element) in
  if bool_decide (tag = "button") then Some "button"
  else if bool_decide (tag = "input")
          && bool_decide (getAttribute element "type"
                          ∈ [Some "button"; Some "submit"; Some "reset"; Some "image"])
  then Some "button"
  else if bool_decide (tag ∈ ["a"; "area"]) && hasAttribute element "href"
  then Some "link"
  else None.

(** The effective role as the specification states it: the explicit role
    attribute if present, else the implicit role. *)
Definition effective_role_spec (element : Node) : option string :=
  match getAttribute element "role" with
  | Some role => Some role
  | None => implicit_role_spec element
  end.

(** The effective role with an empty role attribute counted as absent. *)
Definition effective_role_nonempty (element : Node) : option string :=
  match getAttribute element "role" with
  | Some role => if decide (role = EmptyString) then implicit_role_spec element else Some role
  | None => implicit_role_spec element
  end.

Definition interactive_role (role : option string) : bool :=
  bool_decide (role = Some "button") || bool_decide (role = Some "link").

(** The interactivity of an element node as the specification states it. *)
Definition isInteractive_spec (element : Node) : bool :=
  interactive_role (effective_role_spec element)
  && bool_decide (computedPointerEvents element ≠ "none").

(** The ancestor chain of a node, the node itself first, up to the document
    root element, which closes the walk and is not part of it. *)
Fixpoint chain_to_root (document : Document) (node : Node) : list Node :=
  if bool_decide (nodeId node = documentElement document)
     || bool_decide (nodeId node = documentNode document)
  then []
  else node :: match parentElement node with
               | Some parent => chain_to_root document parent
               | None => []
               end.

(** The ancestor search as the specification states it: the first node of
    the chain for which [isInteractive] holds. *)
Definition findInteractiveAncestor_spec (document : Document) (node : Node)
    : option Node :=
  List.find (fun n => isInteractive (Some n)) (chain_to_root document node).

(** Induction along the chain of parents of a node. *)
Fixpoint Node_chain_ind (P : Node → Prop)
    (Hroot : ∀ n, parentElement n = None → P n)
    (Hstep : ∀ n parent, parentElement n = Some parent → P parent → P n)
    (n : Node) : P n :=
  match n with
  | MkNode id kind tag attrs pe parent =>
      match parent as o
        return P (MkNode id kind tag attrs pe o)
      with
      | None => Hroot (MkNode id kind tag attrs pe None) eq_refl
      | Some p =>
          Hstep (MkNode id kind tag attrs pe (Some p)) p eq_refl
            (Node_chain_ind P Hroot Hstep p)
      end
  end.

(* ===================================================================== *)
(** * HitRegionCalculator.js *)
(* ===================================================================== *)

(** ** [generateCoordinateGrid]

    The two [for] loops push onto the one array [coordinates].  Nothing in
    the loops bounds the number of rounds when [resolution] is not positive,
    so each loop runs on [fuel], the number of rounds it may take, and the
    result is [None] when that does not suffice. *)

Fixpoint grid_rows (fuel : nat) (height resolution : Z) (xv yv : Z)
    (coordinates : list Coordinate) : option (list Coordinate) :=
  if yv <? height then
    match fuel with
    | O => None
    | S fuel' =>
        grid_rows fuel' height resolution xv (yv + resolution)
          (coordinates ++ [createCoordinate (JInt xv) (JInt yv)])
    end
  else Some coordinates.

Fixpoint grid_columns (fuel budget : nat) (width height resolution : Z) (xv : Z)
    (coordinates : list Coordinate) : option (list Coordinate) :=
  if xv <? width then
    match fuel with
    | O => None
    | S fuel' =>
        match grid_rows budget height resolution xv 0 coordinates with
        | Some coordinates' =>
            grid_columns fuel' budget width height resolution (xv + resolution)
              coordinates'
        | None => None
        end
    end
  else Some coordinates.

(** [innerWidth] and [innerHeight] are [window.innerWidth] and
    [window.innerHeight]. *)
Definition generateCoordinateGrid (fuel : nat) (innerWidth innerHeight : Z)
    (resolution : Z) : option (list Coordinate) :=
  let width := innerWidth in
  let height := innerHeight in
  grid_columns fuel fuel width height resolution 0 [].

(** The grid in closed form: column [i] holds the points [(i*r, j*r)], and
    the columns follow each other from left to right. *)
Definition ceil_div (a b : Z) : Z := (a + b - 1) / b.

Definition grid_column (resolution : Z) (rows : nat) (i : nat) : list Coordinate :=
  map (fun j => createCoordinate (JInt (Z.of_nat i * resolution))
                                 (JInt (Z.of_nat j * resolution)))
      (seq 0 rows).

Definition column_major_grid (width height resolution : Z) : list Coordinate :=
  flat_map (grid_column resolution (Z.to_nat (ceil_div height resolution)))
           (seq 0 (Z.to_nat (ceil_div width resolution))).

(** The number of rounds a loop [for (v = start; v < limit; v += resolution)]
    takes, for a positive [resolution]. *)
Definition rounds (limit start resolution : Z) : nat :=
  Z.to_nat (ceil_div (limit - start) resolution).

(** The points one run of the inner loop pushes, from [yv] on, and the
    points the outer loop pushes, from [xv] on. *)
Fixpoint rows_from (resolution xv yv : Z) (n : nat) : list Coordinate :=
  match n with
  | O => []
  | S n' =>
      createCoordinate (JInt xv) (JInt yv)
      :: rows_from resolution xv (yv + resolution) n'
  end.

Fixpoint columns_from (resolution : Z) (rows : nat) (xv : Z) (n : nat)
    : list Coordinate :=
  match n with
  | O => []
  | S n' =>
      rows_from resolution xv 0 rows
      ++ columns_from resolution rows (xv + resolution) n'
  end.

(** ** [calculate] *)

(** The two errors [calculate] throws. *)
Inductive CalcError : Type :=
  | CancelledByUser
  | ExceededTimeout (timeout : Z).

(** [error.message] *)
Definition error_message (err : CalcError) : string :=
  match err with
  | CancelledByUser => "Calculation cancelled by user"
  | ExceededTimeout timeout =>
      "Calculation exceeded timeout of " +:+ numberToString (JInt timeout) +:+ "ms"
  end.

(** [s.includes(sub)] *)
Definition includes (s sub : string) : bool :=
  match String.index 0 sub s with Some _ => true | None => false end.

(** [a % b === 0] on integer-valued numbers: the remainder by zero is
    [NaN], which is not equal to [0]. *)
Definition js_rem (a b : Z) : JsValue :=
  if b =? 0 then JNaN else JInt (Z.rem a b).

(** [(i / totalCoordinates) * 100], as an exact fraction. *)
Definition progress_percentage (i totalCoordinates : nat) : Q :=
  Qred (Qmult (Qdiv (inject_Z (Z.of_nat i)) (inject_Z (Z.of_nat totalCoordinates)))
              (inject_Z 100)).

Section Calculator.
Context {Elem : Type} `{Countable Elem}.

(** The answer of [document.elementFromPoint]. *)
Inductive PointHit : Type :=
  | HitThrows
  | HitNull
  | HitNode (element : Elem).

(** The host during one pass.  The document can change while the pass runs,
    so the answers depend on the round [i] of the sampling loop in which
    they are asked.  [performanceNow k] is the [k]-th reading of
    [performance.now()], in milliseconds: reading [0] is [startTime], round
    [i] takes reading [i + 1], and the reading after the loop is [endTime]. *)
Record Host : Type := {
  innerWidth : Z;
  innerHeight : Z;
  performanceNow : nat -> Z;
  elementFromPoint : nat -> JsValue -> JsValue -> PointHit;
  documentContains : nat -> Elem -> bool;
  interactiveAncestor : nat -> Elem -> option Elem
}.

(** The [options] argument: [timeout] ([None] when not given), whether an
    [onProgress] callback is given, and [signal], whose [aborted] flag is
    read in round [i]. *)
Record Options : Type := {
  timeout : option Z;
  onProgress : bool;
  signal : option (nat -> bool)
}.

Definition default_options : Options :=
  {| timeout := None; onProgress := false; signal := None |}.

(** The destructuring default [timeout = 5000]. *)
Definition timeout_of (options : Options) : Z :=
  match timeout options with Some t => t | None => 5000 end.

(** [signal && signal.aborted] in round [i]. *)
Definition signal_aborted (options : Options) (i : nat) : bool :=
  match signal options with Some aborted => aborted i | None => false end.

(** [sampleCoordinate], in round [i]: the element found and what was
    written to the console.  [interactiveAncestor] is the imported
    [findInteractiveAncestor] on the document of that round. *)
Definition sampleCoordinate (host : Host) (i : nat) (x y : JsValue)
    : option Elem * list Event :=
  match elementFromPoint host i x y with
  | HitThrows => (None, [Console (ErrorSampling x y)])
  | HitNull => (None, [])
  | HitNode element =>
      if negb (documentContains host i element)
      then (None, [Console (WarnElementRemoved x y)])
      else (interactiveAncestor host i element, [])
  end.

(** How a call of [calculate] ends: it returns the map or throws. *)
Inductive CalcResult : Type :=
  | Returned (hitRegionMap : HitRegionMap Elem)
  | Threw (err : CalcError).

(** One round of the sampling loop after the two checks: sample, insert,
    report progress. *)
Definition sample_round (host : Host) (options : Options)
    (totalCoordinates : nat) (i : nat) (coord : Coordinate)
    (hitRegionMap : HitRegionMap Elem) : HitRegionMap Elem * list Event :=
  let '(element, sampled) := sampleCoordinate host i (x coord) (y coord) in
  let '(hitRegionMap', inserted) :=
    match element with
    | Some element =>
        if documentContains host i element then
          let r := addCoordinate hitRegionMap (Some element) (Some coord) in
          (map_after r, map Console (warned r))
        else (hitRegionMap, [])
    | None => (hitRegionMap, [])
    end in
  let progress :=
    if onProgress options
       && strict_equals
            (js_rem (Z.of_nat i) (Z.of_nat totalCoordinates / 10)) (JInt 0)
    then [ProgressCall (progress_percentage i totalCoordinates) i totalCoordinates]
    else [] in
  (hitRegionMap', sampled ++ inserted ++ progress).

(** The loop [for (let i = 0; i < coordinates.length; i++)], from round [i]
    on, [coordinates] being the points from index [i] on.  The result is
    the map when the loop runs to its end. *)
Fixpoint sampling_loop (host : Host) (options : Options) (startTime : Z)
    (totalCoordinates : nat) (coordinates : list Coordinate) (i : nat)
    (hitRegionMap : HitRegionMap Elem) (trace : list Event)
    : CalcResult * list Event :=
  match coordinates with
  | [] => (Returned hitRegionMap, trace)
  | coord :: rest =>
      if signal_aborted options i then (Threw CancelledByUser, trace)
      else
        let elapsed := performanceNow host (S i) - startTime in
        if elapsed >? timeout_of options then
          (Threw (ExceededTimeout (timeout_of options)),
           trace ++ [Console (ErrorTimeout elapsed)])
        else
          let '(hitRegionMap', events) :=
            sample_round host options totalCoordinates i coord hitRegionMap in
          sampling_loop host options startTime totalCoordinates rest (S i)
            hitRegionMap' (trace ++ events)
  end.

(** The pass over a grid that has been generated. *)
Definition calculate_on (host : Host) (resolution : Z) (options : Options)
    (coordinates : list Coordinate) : CalcResult * list Event :=
  let startTime := performanceNow host 0 in
  let hitRegionMap := new_HitRegionMap None in
  let totalCoordinates := length coordinates in
  match sampling_loop host options startTime totalCoordinates coordinates 0
          hitRegionMap [] with
  | (Returned hitRegionMap, trace) =>
      let endTime := performanceNow host (S totalCoordinates) in
      let duration := endTime - startTime in
      let slow :=
        if duration >? 500 then [Console (WarnSlowCalculation duration resolution)]
        else [] in
      let stats := getStats hitRegionMap in
      (Returned hitRegionMap,
       trace ++ slow ++ [Console (LogCalculationComplete stats.1 stats.2 duration)])
  | (Threw err, trace) => (Threw err, trace)
  end.

(** [calculate(resolution = 10, options = {})]; [None] when the grid
    generation does not end within [fuel]. *)
Definition calculate (fuel : nat) (host : Host) (resolution : option Z)
    (options : option Options) : option (CalcResult * list Event) :=
  let resolution := match resolution with Some r => r | None => 10 end in
  let options := match options with Some o => o | None => default_options end in
  match generateCoordinateGrid fuel (innerWidth host) (innerHeight host) resolution with
  | Some coordinates => Some (calculate_on host resolution options coordinates)
  | None => None
  end.

(** [getHitRegion] *)
Definition getHitRegion (hitRegionMap : option (HitRegionMap Elem))
    (element : option Elem) : list Coordinate :=
  match hitRegionMap, element with
  | Some hitRegionMap, Some element => getCoordinates hitRegionMap (Some element)
  | _, _ => []
  end.

(** The calls of [onProgress] in a trace. *)
Definition progress_calls (trace : list Event) : list Event :=
  List.filter is_progress trace.

(** Round [i] goes past the two checks at its head: the signal is not
    aborted and the time elapsed does not exceed the timeout. *)
Definition passes_checks (host : Host) (options : Options) (i : nat) : Prop :=
  signal_aborted options i = false
  ∧ performanceNow host (S i) - performanceNow host 0 ≤ timeout_of options.

(** The condition under which round [i] reports progress. *)
Definition reports_progress (totalCoordinates i : nat) : bool :=
  strict_equals (js_rem (Z.of_nat i) (Z.of_nat totalCoordinates / 10)) (JInt 0).

End Calculator.

Arguments Host Elem : clear implicits.
Arguments PointHit Elem : clear implicits.
Arguments CalcResult Elem {_ _}.

(* ===================================================================== *)
(** * content.js *)
(* ===================================================================== *)

(** ** The mutation relevance filter *)

(** The inline style of a mutation's target, with the properties the filter
    reads; a property that is not set reads as the empty string. *)
Record InlineStyle : Type := {
  style_pointerEvents : string;
  style_position : string;
  style_display : string;
  style_visibility : string;
  style_transform : string;
  style_left : string;
  style_top : string;
  style_right : string;
  style_bottom : string
}.

(** A [MutationRecord]: its [type], its [attributeName] ([None] for
    [null]), the inline style of its [target], and the kinds of the nodes in
    [addedNodes] and [removedNodes].  The style is [None] for a target that
    has no [style] object, as an element that is neither an HTML nor an SVG
    element has none. *)
Record MutationRecord : Type := {
  type : string;
  attributeName : option string;
  target_style : option InlineStyle;
  addedNodes : list NodeKind;
  removedNodes : list NodeKind
}.

(** A string used as a condition: the empty string is falsy. *)
Definition truthy (s : string) : bool := bool_decide (s ≠ EmptyString).

(** [isRelevantMutation]; [None] when it throws: in the first test,
    reading a property of the style of a target that has none is a
    [TypeError]. *)
Definition isRelevantMutation (mutation : MutationRecord) : option bool :=
  let style_test : option bool :=
    if bool_decide (type mutation = "attributes")
       && bool_decide (attributeName mutation = Some "style")
    then
      match target_style mutation with
      | Some style =>
          Some (truthy (style_pointerEvents style) || truthy (style_position style)
                || truthy (style_display style) || truthy (style_visibility style)
                || truthy (style_transform style) || truthy (style_left style)
                || truthy (style_top style) || truthy (style_right style)
                || truthy (style_bottom style))
      | None => None
      end
    else Some false in
  match style_test with
  | None => None
  | Some true => Some true
  | Some false =>
      if bool_decide (type mutation = "attributes")
         && bool_decide (attributeName mutation = Some "class")
      then Some true
      else if bool_decide (type mutation = "attributes")
              && bool_decide (attributeName mutation = Some "role")
      then Some true
      else if bool_decide (type mutation = "childList")
      then Some true
      else Some false
  end.

(** [mutations.some(isRelevantMutation)]: the records are tested in order
    up to the first that is relevant; [None] when a test throws before. *)
Fixpoint some_isRelevantMutation (mutations : list MutationRecord) : option bool :=
  match mutations with
  | [] => Some false
  | mutation :: rest =>
      match isRelevantMutation mutation with
      | None => None
      | Some true => Some true
      | Some false => some_isRelevantMutation rest
      end
  end.

(** Whether the inline style has one of the properties the filter reads. *)
Definition has_layout_style (style : InlineStyle) : Prop :=
  style_pointerEvents style ≠ EmptyString ∨ style_position style ≠ EmptyString
  ∨ style_display style ≠ EmptyString ∨ style_visibility style ≠ EmptyString
  ∨ style_transform style ≠ EmptyString ∨ style_left style ≠ EmptyString
  ∨ style_top style ≠ EmptyString ∨ style_right style ≠ EmptyString ∨ style_bottom style ≠ EmptyString.

(** An attribute record for [style]: the records the first test of the
    filter is about. *)
Definition style_record (mutation : MutationRecord) : Prop :=
  type mutation = "attributes" ∧ attributeName mutation = Some "style".

(** A structural record, or an attribute record for [class] or [role]. *)
Definition structural_or_class_or_role (mutation : MutationRecord) : Prop :=
  type mutation = "childList"
  ∨ (type mutation = "attributes"
     ∧ (attributeName mutation = Some "class"
        ∨ attributeName mutation = Some "role")).

(** A record whose only change is the addition of text nodes: a
    [childList] record (the only type that carries added nodes) with no
    attribute, nothing removed, and text nodes only added. *)
Definition adds_only_text (mutation : MutationRecord) : Prop :=
  type mutation = "childList" ∧ attributeName mutation = None
  ∧ removedNodes mutation = [] ∧ addedNodes mutation ≠ []
  ∧ Forall (fun k => k = TextNode) (addedNodes mutation).

Section Content.
Context {Elem : Type} `{Countable Elem}.

(** The module-level state the engine's orchestration reads and writes:
    the configured resolution, the current map, and the two debounce
    timers, an armed timer being the delay it was set with. *)
Record ContentState : Type := {
  samplingResolution : Z;
  hitRegionMap : option (HitRegionMap Elem);
  mutationDebounceTimer : option Z;
  resizeDebounceTimer : option Z
}.

(** [calculateHitRegions]: the state after the call, the error it rethrows
    if the pass threw, and the trace of the pass; [aborted] is the signal of
    the abort controller the call creates.  The assignment to
    [hitRegionMap] takes place only when [calculate] returns. *)
Definition calculateHitRegions (fuel : nat) (host : Host Elem)
    (aborted : nat -> bool) (st : ContentState)
    : option (ContentState * option CalcError * list Event) :=
  match calculate fuel host (Some (samplingResolution st))
          (Some {| timeout := Some 10000; signal := Some aborted; onProgress := true |})
  with
  | None => None
  | Some (Returned m, trace) =>
      Some ({| samplingResolution := samplingResolution st;
               hitRegionMap := Some m;
               mutationDebounceTimer := mutationDebounceTimer st;
               resizeDebounceTimer := resizeDebounceTimer st |},
            None, trace)
  | Some (Threw err, trace) => Some (st, Some err, trace)
  end.

(** [handleMutation]: clear the timer, if any, and set a new one of 300ms. *)
Definition handleMutation (st : ContentState) : ContentState :=
  {| samplingResolution := samplingResolution st;
     hitRegionMap := hitRegionMap st;
     mutationDebounceTimer := Some 300;
     resizeDebounceTimer := resizeDebounceTimer st |}.

(** The callback of the [MutationObserver]: the state after it, or [None]
    when it throws, which it does before it has assigned anything. *)
Definition mutation_callback (mutations : list MutationRecord) (st : ContentState)
    : option ContentState :=
  match some_isRelevantMutation mutations with
  | Some hasRelevantMutation =>
      if hasRelevantMutation then Some (handleMutation st) else Some st
  | None => None
  end.

End Content.

Arguments ContentState Elem {_ _}.


(* ===================================================================== *)
(** * Runs of calls and the points a pass resolves *)
(* ===================================================================== *)

Section Runs.
Context {Elem : Type} `{Countable Elem}.

(** A run of [addCoordinate] calls with any arguments, [null] included. *)
Fixpoint addCoordinate_calls (this : HitRegionMap Elem)
    (calls : list (option Elem * option Coordinate)) : HitRegionMap Elem :=
  match calls with
  | [] => this
  | (element, coord) :: rest =>
      addCoordinate_calls (map_after (addCoordinate this element coord)) rest
  end.

(** The element a round of [calculate] inserts the point for: the element
    [sampleCoordinate] returns, when the document still contains it. *)
Definition resolved (host : Host Elem) (i : nat) (coord : Coordinate)
    : option Elem :=
  match (sampleCoordinate host i (x coord) (y coord)).1 with
  | Some element => if documentContains host i element then Some element else None
  | None => None
  end.

(** The points of [coordinates], sampled in the rounds from [i] on, that
    resolve to [element], in the order of the rounds. *)
Fixpoint resolved_points (host : Host Elem) (i : nat)
    (coordinates : list Coordinate) (element : Elem) : list Coordinate :=
  match coordinates with
  | [] => []
  | coord :: rest =>
      if decide (resolved host i coord = Some element)
      then coord :: resolved_points host (S i) rest element
      else resolved_points host (S i) rest element
  end.

(** What every call of [addCoordinate] keeps: the bound of each set by the
    limit, the agreement of the set of elements with the entries, and the
    absence of duplicates. *)
Definition map_invariant (m : HitRegionMap Elem) : Prop :=
  (∀ e, Z.of_nat (length (coordinates_of m e))
        ≤ Z.max 0 (maxCoordinatesPerElement m))
  ∧ (∀ e, e ∈ elements m ↔ is_Some (elementToCoordinates m !! e))
  ∧ NoDup (elements m)
  ∧ (∀ e keys, elementToCoordinates m !! e = Some keys → NoDup keys).

(** The state of the sampling loop after the points [sampled] have been
    through it: each set holds the keys of the first [limit] points resolved
    to its element, every mapped key is the key of a sampled point, and the
    counts are bounded by the rounds. *)
Definition loop_invariant (host : Host Elem) (limit : nat)
    (sampled : list Coordinate) (m : HitRegionMap Elem) : Prop :=
  maxCoordinatesPerElement m = Z.of_nat limit
  ∧ (∀ e, coordinates_of m e
          = map coordToKey (take limit (resolved_points host 0 sampled e)))
  ∧ (∀ key, is_Some (coordinateToElement m !! key) →
            key ∈ map coordToKey sampled)
  ∧ (size (coordinateToElement m) ≤ length sampled)%nat
  ∧ (length (elements m) ≤ size (coordinateToElement m))%nat.

End Runs.

(* ===================================================================== *)
(** * Numbers with fractions, and untyped arguments *)
(* ===================================================================== *)

(** A number that need not be an integer, as the opacity is: [NaN], an
    infinity, or a finite number, taken by its exact value. *)
Inductive JsNumber : Type :=
  | NumNaN
  | NumInfinity (negative : bool)
  | NumFinite (q : Q).

(** [a < b]; a comparison with [NaN] is false. *)
Definition num_lt (a b : JsNumber) : bool :=
  match a, b with
  | NumNaN, _ | _, NumNaN => false
  | NumInfinity true, NumInfinity true => false
  | NumInfinity true, _ => true
  | _, NumInfinity true => false
  | NumInfinity false, _ => false
  | _, NumInfinity false => true
  | NumFinite p, NumFinite q => negb (Qle_bool q p)
  end.

(** [a > b] *)
Definition num_gt (a b : JsNumber) : bool := num_lt b a.

Definition num_of_Z (z : Z) : JsNumber := NumFinite (inject_Z z).

(** A value as the store and the messages carry it, by what the code
    tests of it: [undefined], [null], a number, a string, a boolean, or an
    object, an array included. *)
Inductive JsData : Type :=
  | DUndefined
  | DNull
  | DNumber (n : JsNumber)
  | DString (s : string)
  | DBoolean (b : bool)
  | DObject.

Definition is_hex_digit (c : ascii) : bool :=
  let n := nat_of_ascii c in
  ((48 <=? n)%nat && (n <=? 57)%nat)
  || ((65 <=? n)%nat && (n <=? 70)%nat)
  || ((97 <=? n)%nat && (n <=? 102)%nat).

Fixpoint all_hex (s : string) : bool :=
  match s with
  | EmptyString => true
  | String c s' => is_hex_digit c && all_hex s'
  end.

(** The test of the regular expression [/^#[0-9A-Fa-f]{6}$/]. *)
Definition is_hex_color (s : string) : bool :=
  match s with
  | String c rest =>
      Ascii.eqb c "#"%char && (String.length rest =? 6)%nat && all_hex rest
  | EmptyString => false
  end.

(* ===================================================================== *)
(** * ConfigurationManager.js *)
(* ===================================================================== *)

Module Config.

(** A configuration object, possibly partial: its own properties. *)
Abbreviation Configuration := (gmap string JsData).

(** [config.key]: a property that is missing reads as [undefined]. *)
Definition get (config : Configuration) (key : string) : JsData :=
  default DUndefined (config !! key).

Definition DEFAULT_CONFIG : Configuration :=
  <["samplingResolution" := DNumber (num_of_Z 10)]>
  (<["highlightColor" := DString "#00ff00"]>
  (<["highlightOpacity" := DNumber (NumFinite (Qmake 3 10))]>
  (<["autoRecalculate" := DBoolean true]> ∅))).

(** The object spread [{ ...a, ...b }]: the properties of [b] win. *)
Definition spread (a b : Configuration) : Configuration := b ∪ a.

Record ConfigurationManager : Type := {
  currentConfig : Configuration;
  changeListeners : list nat
}.

Definition new_ConfigurationManager : ConfigurationManager :=
  {| currentConfig := spread ∅ DEFAULT_CONFIG; changeListeners := [] |}.

(** The answer of [chrome.storage.sync.get('hitRegionConfig')]: the call
    fails, or it gives the stored object, if any. *)
Inductive StorageGet : Type :=
  | GetFails
  | GetResult (hitRegionConfig : option Configuration).

(** [loadConfiguration]: the manager after the call and the configuration
    returned; the call itself never throws. *)
Definition loadConfiguration (this : ConfigurationManager) (answer : StorageGet)
    : ConfigurationManager * Configuration :=
  match answer with
  | GetResult hitRegionConfig =>
      let storedConfig := default ∅ hitRegionConfig in
      let config := spread DEFAULT_CONFIG storedConfig in
      ({| currentConfig := config; changeListeners := changeListeners this |},
       config)
  | GetFails =>
      let config := spread ∅ DEFAULT_CONFIG in
      ({| currentConfig := config; changeListeners := changeListeners this |},
       config)
  end.

(** [saveConfiguration]: the manager after the call, and the configuration
    returned, or [None] when [chrome.storage.sync.set] fails and the error is
    thrown on.  The merge is assigned before the store is written. *)
Definition saveConfiguration (this : ConfigurationManager) (config : Configuration)
    (set_fails : bool) : ConfigurationManager * option Configuration :=
  let merged := spread (currentConfig this) config in
  let this' :=
    {| currentConfig := merged; changeListeners := changeListeners this |} in
  if set_fails then (this', None) else (this', Some merged).

Definition getConfiguration (this : ConfigurationManager) : Configuration :=
  spread ∅ (currentConfig this).

Definition addChangeListener (this : ConfigurationManager) (listener : nat)
    : ConfigurationManager :=
  {| currentConfig := currentConfig this;
     changeListeners := set_add listener (changeListeners this) |}.

Definition removeChangeListener (this : ConfigurationManager) (listener : nat)
    : ConfigurationManager :=
  {| currentConfig := currentConfig this;
     changeListeners := List.filter (fun l => negb (l =? listener)%nat)
                          (changeListeners this) |}.

(** The listener [startListening] registers on [chrome.storage.onChanged]:
    the manager after a change, and the calls [listener(oldConfig,
    newConfig)] made, in order.  [change] is [changes.hitRegionConfig], with
    its [oldValue] and [newValue]; a listener that throws is caught. *)
Definition onStorageChanged (this : ConfigurationManager)
    (change : option (option Configuration * option Configuration))
    (areaName : string)
    : ConfigurationManager * list (nat * Configuration * Configuration) :=
  match change with
  | Some (oldValue, newValue) =>
      if decide (areaName = "sync") then
        let oldConfig := default ∅ oldValue in
        let newConfig := default ∅ newValue in
        ({| currentConfig := spread DEFAULT_CONFIG newConfig;
            changeListeners := changeListeners this |},
         map (fun listener => (listener, oldConfig, newConfig))
             (changeListeners this))
      else (this, [])
  | None => (this, [])
  end.

Definition validateConfiguration (config : Configuration) : bool :=
  if match get config "samplingResolution" with
     | DUndefined => false
     | DNumber n => num_lt n (num_of_Z 1) || num_gt n (num_of_Z 100)
     | _ => true
     end
  then false
  else if match get config "highlightColor" with
          | DUndefined => false
          | DString s => negb (is_hex_color s)
          | _ => true
          end
  then false
  else if match get config "highlightOpacity" with
          | DUndefined => false
          | DNumber n => num_lt n (num_of_Z 0) || num_gt n (num_of_Z 1)
          | _ => true
          end
  then false
  else if match get config "autoRecalculate" with
          | DUndefined => false
          | DBoolean _ => false
          | _ => true
          end
  then false
  else true.

(** The check [validateConfiguration] makes of one property. *)
Definition field_ok (key : string) (v : JsData) : Prop :=
  v = DUndefined
  ∨ (key = "samplingResolution"
     ∧ ∃ n, v = DNumber n ∧ num_lt n (num_of_Z 1) = false
            ∧ num_gt n (num_of_Z 100) = false)
  ∨ (key = "highlightColor" ∧ ∃ s, v = DString s ∧ is_hex_color s = true)
  ∨ (key = "highlightOpacity"
     ∧ ∃ n, v = DNumber n ∧ num_lt n (num_of_Z 0) = false
            ∧ num_gt n (num_of_Z 1) = false)
  ∨ (key = "autoRecalculate" ∧ ∃ b, v = DBoolean b).

Definition settings : list string :=
  ["samplingResolution"; "highlightColor"; "highlightOpacity"; "autoRecalculate"].

End Config.

(* ===================================================================== *)
(** * CanvasRenderer.js *)
(* ===================================================================== *)

Module Renderer.

(** A filled circle on the bitmap of the canvas: its centre, and the fill
    style and the alpha it was filled with. *)
Record Dot : Type := {
  dot_x : Z;
  dot_y : Z;
  dot_fillStyle : string;
  dot_alpha : JsNumber
}.

(** The canvas element with the state of its 2D context and its bitmap;
    [attached] is [parentNode !== null]. *)
Record Canvas : Type := {
  width : Z;
  height : Z;
  attached : bool;
  fillStyle : string;
  globalAlpha : JsNumber;
  bitmap : list Dot
}.

(** The fields of a [CanvasRenderer]; [ctx] is whether [this.ctx] is set,
    the context being the one of [this.canvas]. *)
Record CanvasRenderer : Type := {
  canvas : option Canvas;
  ctx : bool
}.

(** What the methods ask of the page: the viewport, whether
    [document.body] exists, and whether [getContext('2d')] gives a
    context. *)
Record Page : Type := {
  window_innerWidth : Z;
  window_innerHeight : Z;
  document_body : bool;
  getContext_2d : bool
}.

Definition new_CanvasRenderer : CanvasRenderer := {| canvas := None; ctx := false |}.

Definition destroy (this : CanvasRenderer) : CanvasRenderer :=
  {| canvas := None; ctx := false |}.

(** A canvas as [document.createElement('canvas')] gives it, sized to the
    viewport: not attached, the context in its default state, nothing
    drawn. *)
Definition fresh_canvas (page : Page) : Canvas :=
  {| width := window_innerWidth page; height := window_innerHeight page;
     attached := false; fillStyle := "#000000"; globalAlpha := num_of_Z 1;
     bitmap := [] |}.

(** [createOverlay]: the renderer after the call, and the canvas returned,
    or [None] when the call throws.  A canvas that exists is destroyed
    first; every path then assigns both fields anew, the [catch] block
    with [null]. *)
Definition createOverlay (page : Page) (this : CanvasRenderer)
    : CanvasRenderer * option Canvas :=
  let this1 := match canvas this with Some _ => destroy this | None => this end in
  if negb (document_body page) then ({| canvas := None; ctx := false |}, None)
  else
    let created := fresh_canvas page in
    if negb (getContext_2d page) then ({| canvas := None; ctx := false |}, None)
    else
      let appended :=
        {| width := width created; height := height created; attached := true;
           fillStyle := fillStyle created; globalAlpha := globalAlpha created;
           bitmap := bitmap created |} in
      ({| canvas := Some appended; ctx := true |}, Some appended).

(** [clear]: [clearRect] over the whole canvas. *)
Definition clear (this : CanvasRenderer) : CanvasRenderer :=
  match canvas this with
  | Some c =>
      if ctx this then
        {| canvas := Some {| width := width c; height := height c;
                             attached := attached c; fillStyle := fillStyle c;
                             globalAlpha := globalAlpha c; bitmap := [] |};
           ctx := ctx this |}
      else this
  | None => this
  end.

Definition hasOverlay (this : CanvasRenderer) : bool :=
  match canvas this with Some c => attached c | None => false end.

(** [updateDimensions]: assigning [width] and [height] resets the bitmap
    and the state of the context. *)
Definition updateDimensions (page : Page) (this : CanvasRenderer) : CanvasRenderer :=
  match canvas this with
  | Some c =>
      {| canvas := Some {| width := window_innerWidth page;
                           height := window_innerHeight page;
                           attached := attached c; fillStyle := "#000000";
                           globalAlpha := num_of_Z 1; bitmap := [] |};
         ctx := ctx this |}
  | None => this
  end.

(** The callback [renderHitRegion] hands to [requestAnimationFrame], by
    what it closes over. *)
Record Frame : Type := {
  frame_coordinates : list (option Coordinate);
  frame_color : string;
  frame_opacity : JsNumber
}.

(** The colour used: the default parameter for [undefined], and the default
    again for what is not a string of the form [#hhhhhh]. *)
Definition color_used (color : JsData) : string :=
  match color with
  | DUndefined => "#00ff00"
  | DString s => if is_hex_color s then s else "#00ff00"
  | _ => "#00ff00"
  end.

(** The opacity used: the default parameter for [undefined], and the
    default again for what is not a number or is below 0 or above 1. *)
Definition opacity_used (opacity : JsData) : JsNumber :=
  match opacity with
  | DUndefined => NumFinite (Qmake 3 10)
  | DNumber n =>
      if num_lt n (num_of_Z 0) || num_gt n (num_of_Z 1)
      then NumFinite (Qmake 3 10) else n
  | _ => NumFinite (Qmake 3 10)
  end.

(** [renderHitRegion]: the renderer after the call and the callback it has
    requested a frame for, if any.  [coordinates] is [None] for an argument
    that is not an array. *)
Definition renderHitRegion (page : Page) (this : CanvasRenderer)
    (coordinates : option (list (option Coordinate))) (color opacity : JsData)
    : CanvasRenderer * option Frame :=
  match coordinates with
  | None => (this, None)
  | Some [] => (this, None)
  | Some coordinates =>
      let color := color_used color in
      let opacity := opacity_used opacity in
      let '(this1, thrown) :=
        match canvas this with
        | None =>
            let '(this', created) := createOverlay page this in
            (this', match created with Some _ => false | None => true end)
        | Some _ => (this, false)
        end in
      if thrown then (this1, None)
      else
        (clear this1,
         Some {| frame_coordinates := coordinates; frame_color := color;
                 frame_opacity := opacity |})
  end.

(** Assigning [globalAlpha]: a value that is not a number from 0 to 1 is
    ignored. *)
Definition assign_globalAlpha (current value : JsNumber) : JsNumber :=
  match value with
  | NumFinite _ =>
      if num_lt value (num_of_Z 0) || num_gt value (num_of_Z 1)
      then current else value
  | _ => current
  end.

(** One round of the drawing loop: a coordinate that is missing or has a
    component that is not a number is skipped; [arc] with a centre that is
    not finite adds nothing to the path. *)
Definition draw_coordinate (fill : string) (alpha : JsNumber)
    (coord : option Coordinate) : list Dot :=
  match coord with
  | Some c =>
      if typeof_number (x c) && typeof_number (y c) then
        match x c, y c with
        | JInt a, JInt b =>
            [{| dot_x := a; dot_y := b; dot_fillStyle := fill; dot_alpha := alpha |}]
        | _, _ => []
        end
      else []
  | None => []
  end.

(** The callback, when the frame comes. *)
Definition run_frame (this : CanvasRenderer) (frame : Frame) : CanvasRenderer :=
  if ctx this then
    match canvas this with
    | Some c =>
        let fill := frame_color frame in
        let alpha := assign_globalAlpha (globalAlpha c) (frame_opacity frame) in
        {| canvas :=
             Some {| width := width c; height := height c; attached := attached c;
                     fillStyle := fill; globalAlpha := num_of_Z 1;
                     bitmap := bitmap c
                               ++ flat_map (draw_coordinate fill alpha)
                                    (frame_coordinates frame) |};
           ctx := ctx this |}
    | None => this
    end
  else this.

(** The dots a callback paints when the alpha of the context is 1 as it
    starts, which it is between callbacks. *)
Definition dots_of (frame : Frame) : list Dot :=
  flat_map (draw_coordinate (frame_color frame)
              (assign_globalAlpha (num_of_Z 1) (frame_opacity frame)))
           (frame_coordinates frame).

(** The renderer together with the callbacks that wait for the next frame. *)
Record Screen : Type := {
  renderer : CanvasRenderer;
  pending : list Frame
}.

(** What can happen to a renderer: a call of one of its methods, or the
    next animation frame, which runs the waiting callbacks in order. *)
Inductive Op : Type :=
  | CreateOverlay (page : Page)
  | RenderHitRegion (page : Page) (coordinates : option (list (option Coordinate)))
      (color opacity : JsData)
  | Clear
  | Destroy
  | UpdateDimensions (page : Page)
  | AnimationFrame.

Definition step (s : Screen) (op : Op) : Screen :=
  match op with
  | CreateOverlay page =>
      {| renderer := (createOverlay page (renderer s)).1; pending := pending s |}
  | RenderHitRegion page coordinates color opacity =>
      let '(r, frame) := renderHitRegion page (renderer s) coordinates color opacity in
      {| renderer := r;
         pending := pending s ++ match frame with Some f => [f] | None => [] end |}
  | Clear => {| renderer := clear (renderer s); pending := pending s |}
  | Destroy => {| renderer := destroy (renderer s); pending := pending s |}
  | UpdateDimensions page =>
      {| renderer := updateDimensions page (renderer s); pending := pending s |}
  | AnimationFrame =>
      {| renderer := fold_left run_frame (pending s) (renderer s); pending := [] |}
  end.

Definition run (ops : list Op) : Screen :=
  fold_left step ops {| renderer := new_CanvasRenderer; pending := [] |}.

(** An opacity the context accepts. *)
Definition alpha_in_range (a : JsNumber) : Prop :=
  ∃ q, a = NumFinite q ∧ num_lt a (num_of_Z 0) = false
       ∧ num_gt a (num_of_Z 1) = false.

(** A renderer at rest: the canvas and the context are set together, the
    canvas is attached, and the alpha of the context is 1. *)
Definition at_rest (r : CanvasRenderer) : Prop :=
  (canvas r = None ↔ ctx r = false)
  ∧ ∀ c, canvas r = Some c → attached c = true ∧ globalAlpha c = num_of_Z 1.

(** What holds of a renderer and its waiting callbacks at all times. *)
Definition screen_invariant (s : Screen) : Prop :=
  (canvas (renderer s) = None ↔ ctx (renderer s) = false)
  ∧ (∀ c, canvas (renderer s) = Some c →
          attached c = true ∧ globalAlpha c = num_of_Z 1
          ∧ Forall (fun d => is_hex_color (dot_fillStyle d) = true
                             ∧ alpha_in_range (dot_alpha d)) (bitmap c))
  ∧ Forall (fun f => is_hex_color (frame_color f) = true) (pending s).

End Renderer.

(* ===================================================================== *)
(** * content.js: the orchestration *)
(* ===================================================================== *)

(** A value used as a condition. *)
Definition truthy_data (v : JsData) : bool :=
  match v with
  | DUndefined | DNull => false
  | DNumber NumNaN => false
  | DNumber (NumInfinity _) => true
  | DNumber (NumFinite q) => negb (Qeq_bool q (inject_Z 0))
  | DString s => truthy s
  | DBoolean b => b
  | DObject => true
  end.

(** [a === b] on numbers: [NaN] equals nothing. *)
Definition num_eq (a b : JsNumber) : bool :=
  match a, b with
  | NumFinite p, NumFinite q => Qeq_bool p q
  | NumInfinity s, NumInfinity t => Bool.eqb s t
  | _, _ => false
  end.

(** [a === b] on two values read from two different objects of the store or
    of a message: two objects are never the same object. *)
Definition data_strict_equals (a b : JsData) : bool :=
  match a, b with
  | DUndefined, DUndefined => true
  | DNull, DNull => true
  | DNumber m, DNumber n => num_eq m n
  | DString s, DString t => bool_decide (s = t)
  | DBoolean b, DBoolean c => Bool.eqb b c
  | _, _ => false
  end.

Module Script.

(** The [elementId] of a message: a falsy value, a truthy value that is not
    an object, or an object with its [type] and [value]. *)
Inductive Identifier : Type :=
  | IdFalsy
  | IdPrimitive
  | IdObject (id_type id_value : JsData).

(** A message: [null] or [undefined], of which no property can be read, or
    a value with its [type] and [elementId]. *)
Inductive Message : Type :=
  | MsgNullish
  | MsgValue (message_type : JsData) (elementId : Identifier).

(** The argument of [sendResponse]. *)
Inductive Response : Type :=
  | RespSuccess (success : bool)
  | RespElementNotFound
  | RespCancelled (cancelled : bool)
  | RespUnknownMessageType
  | RespError.

(** What [calculateHitRegions] throws on: the error of the pass, or the
    [TypeError] of reading a property of [null]. *)
Inductive ScriptError : Type :=
  | PassError (err : CalcError)
  | TypeError.

Definition validateElementIdentifier (elementId : Identifier) : bool :=
  match elementId with
  | IdFalsy => false
  | IdPrimitive => false
  | IdObject id_type id_value =>
      if negb (truthy_data id_type)
         || negb match id_type with DString _ => true | _ => false end
      then false
      else if negb (truthy_data id_value)
              || negb match id_value with DString _ => true | _ => false end
      then false
      else
        let validTypes := ["css"; "xpath"; "id"] in
        match id_type with
        | DString t => bool_decide (t ∈ validTypes)
        | _ => false
        end
  end.

Section Script.
Context {Elem : Type} `{Countable Elem}.

(** The page at the time of a task: what a pass sees of it, the fuel for
    the loops of the grid, what the renderer sees of it, and the document
    with its lookups, [None] for a lookup that throws. *)
Record World : Type := {
  host : Host Elem;
  fuel : nat;
  page : Renderer.Page;
  contains : Elem → bool;
  querySelector : string → option (option Elem);
  evaluate : string → option (option Elem);
  getElementById : string → option Elem
}.

(** The global state of the content script.  An observer is [true] when it
    observes; a debounce timer that is pending is the delay it was set
    with; the abort controller is [true] when the variable is set; the
    progress indicator is the element, by whether it is attached, its text
    being left out; [progressTimeouts] counts the pending timers that show
    the indicator, and [animationFrames] holds the callbacks the renderer has
    requested. *)
Record Script : Type := {
  configManager : option Config.ConfigurationManager;
  storageListener : bool;
  currentConfig : option Config.Configuration;
  hitRegionMap : option (HitRegionMap Elem);
  renderer : option Renderer.CanvasRenderer;
  currentlySelectedElement : option Elem;
  mutationObserver : bool;
  resizeObserver : bool;
  mutationDebounceTimer : option Z;
  resizeDebounceTimer : option Z;
  calculationAbortController : bool;
  progressIndicator : option bool;
  progressTimeouts : nat;
  animationFrames : list Renderer.Frame
}.

Definition set_configManager (v : option Config.ConfigurationManager) (st : Script) : Script :=
  {| configManager := v;
     storageListener := storageListener st;
     currentConfig := currentConfig st;
     hitRegionMap := hitRegionMap st;
     renderer := renderer st;
     currentlySelectedElement := currentlySelectedElement st;
     mutationObserver := mutationObserver st;
     resizeObserver := resizeObserver st;
     mutationDebounceTimer := mutationDebounceTimer st;
     resizeDebounceTimer := resizeDebounceTimer st;
     calculationAbortController := calculationAbortController st;
     progressIndicator := progressIndicator st;
     progressTimeouts := progressTimeouts st;
     animationFrames := animationFrames st |}.

Definition set_storageListener (v : bool) (st : Script) : Script :=
  {| configManager := configManager st;
     storageListener := v;
     currentConfig := currentConfig st;
     hitRegionMap := hitRegionMap st;
     renderer := renderer st;
     currentlySelectedElement := currentlySelectedElement st;
     mutationObserver := mutationObserver st;
     resizeObserver := resizeObserver st;
     mutationDebounceTimer := mutationDebounceTimer st;
     resizeDebounceTimer := resizeDebounceTimer st;
     calculationAbortController := calculationAbortController st;
     progressIndicator := progressIndicator st;
     progressTimeouts := progressTimeouts st;
     animationFrames := animationFrames st |}.

Definition set_currentConfig (v : option Config.Configuration) (st : Script) : Script :=
  {| configManager := configManager st;
     storageListener := storageListener st;
     currentConfig := v;
     hitRegionMap := hitRegionMap st;
     renderer := renderer st;
     currentlySelectedElement := currentlySelectedElement st;
     mutationObserver := mutationObserver st;
     resizeObserver := resizeObserver st;
     mutationDebounceTimer := mutationDebounceTimer st;
     resizeDebounceTimer := resizeDebounceTimer st;
     calculationAbortController := calculationAbortController st;
     progressIndicator := progressIndicator st;
     progressTimeouts := progressTimeouts st;
     animationFrames := animationFrames st |}.

Definition set_hitRegionMap (v : option (HitRegionMap Elem)) (st : Script) : Script :=
  {| configManager := configManager st;
     storageListener := storageListener st;
     currentConfig := currentConfig st;
     hitRegionMap := v;
     renderer := renderer st;
     currentlySelectedElement := currentlySelectedElement st;
     mutationObserver := mutationObserver st;
     resizeObserver := resizeObserver st;
     mutationDebounceTimer := mutationDebounceTimer st;
     resizeDebounceTimer := resizeDebounceTimer st;
     calculationAbortController := calculationAbortController st;
     progressIndicator := progressIndicator st;
     progressTimeouts := progressTimeouts st;
     animationFrames := animationFrames st |}.

Definition set_renderer (v : option Renderer.CanvasRenderer) (st : Script) : Script :=
  {| configManager := configManager st;
     storageListener := storageListener st;
     currentConfig := currentConfig st;
     hitRegionMap := hitRegionMap st;
     renderer := v;
     currentlySelectedElement := currentlySelectedElement st;
     mutationObserver := mutationObserver st;
     resizeObserver := resizeObserver st;
     mutationDebounceTimer := mutationDebounceTimer st;
     resizeDebounceTimer := resizeDebounceTimer st;
     calculationAbortController := calculationAbortController st;
     progressIndicator := progressIndicator st;
     progressTimeouts := progressTimeouts st;
     animationFrames := animationFrames st |}.

Definition set_currentlySelectedElement (v : option Elem) (st : Script) : Script :=
  {| configManager := configManager st;
     storageListener := storageListener st;
     currentConfig := currentConfig st;
     hitRegionMap := hitRegionMap st;
     renderer := renderer st;
     currentlySelectedElement := v;
     mutationObserver := mutationObserver st;
     resizeObserver := resizeObserver st;
     mutationDebounceTimer := mutationDebounceTimer st;
     resizeDebounceTimer := resizeDebounceTimer st;
     calculationAbortController := calculationAbortController st;
     progressIndicator := progressIndicator st;
     progressTimeouts := progressTimeouts st;
     animationFrames := animationFrames st |}.

Definition set_mutationObserver (v : bool) (st : Script) : Script :=
  {| configManager := configManager st;
     storageListener := storageListener st;
     currentConfig := currentConfig st;
     hitRegionMap := hitRegionMap st;
     renderer := renderer st;
     currentlySelectedElement := currentlySelectedElement st;
     mutationObserver := v;
     resizeObserver := resizeObserver st;
     mutationDebounceTimer := mutationDebounceTimer st;
     resizeDebounceTimer := resizeDebounceTimer st;
     calculationAbortController := calculationAbortController st;
     progressIndicator := progressIndicator st;
     progressTimeouts := progressTimeouts st;
     animationFrames := animationFrames st |}.

Definition set_resizeObserver (v : bool) (st : Script) : Script :=
  {| configManager := configManager st;
     storageListener := storageListener st;
     currentConfig := currentConfig st;
     hitRegionMap := hitRegionMap st;
     renderer := renderer st;
     currentlySelectedElement := currentlySelectedElement st;
     mutationObserver := mutationObserver st;
     resizeObserver := v;
     mutationDebounceTimer := mutationDebounceTimer st;
     resizeDebounceTimer := resizeDebounceTimer st;
     calculationAbortController := calculationAbortController st;
     progressIndicator := progressIndicator st;
     progressTimeouts := progressTimeouts st;
     animationFrames := animationFrames st |}.

Definition set_mutationDebounceTimer (v : option Z) (st : Script) : Script :=
  {| configManager := configManager st;
     storageListener := storageListener st;
     currentConfig := currentConfig st;
     hitRegionMap := hitRegionMap st;
     renderer := renderer st;
     currentlySelectedElement := currentlySelectedElement st;
     mutationObserver := mutationObserver st;
     resizeObserver := resizeObserver st;
     mutationDebounceTimer := v;
     resizeDebounceTimer := resizeDebounceTimer st;
     calculationAbortController := calculationAbortController st;
     progressIndicator := progressIndicator st;
     progressTimeouts := progressTimeouts st;
     animationFrames := animationFrames st |}.

Definition set_resizeDebounceTimer (v : option Z) (st : Script) : Script :=
  {| configManager := configManager st;
     storageListener := storageListener st;
     currentConfig := currentConfig st;
     hitRegionMap := hitRegionMap st;
     renderer := renderer st;
     currentlySelectedElement := currentlySelectedElement st;
     mutationObserver := mutationObserver st;
     resizeObserver := resizeObserver st;
     mutationDebounceTimer := mutationDebounceTimer st;
     resizeDebounceTimer := v;
     calculationAbortController := calculationAbortController st;
     progressIndicator := progressIndicator st;
     progressTimeouts := progressTimeouts st;
     animationFrames := animationFrames st |}.

Definition set_calculationAbortController (v : bool) (st : Script) : Script :=
  {| configManager := configManager st;
     storageListener := storageListener st;
     currentConfig := currentConfig st;
     hitRegionMap := hitRegionMap st;
     renderer := renderer st;
     currentlySelectedElement := currentlySelectedElement st;
     mutationObserver := mutationObserver st;
     resizeObserver := resizeObserver st;
     mutationDebounceTimer := mutationDebounceTimer st;
     resizeDebounceTimer := resizeDebounceTimer st;
     calculationAbortController := v;
     progressIndicator := progressIndicator st;
     progressTimeouts := progressTimeouts st;
     animationFrames := animationFrames st |}.

Definition set_progressIndicator (v : option bool) (st : Script) : Script :=
  {| configManager := configManager st;
     storageListener := storageListener st;
     currentConfig := currentConfig st;
     hitRegionMap := hitRegionMap st;
     renderer := renderer st;
     currentlySelectedElement := currentlySelectedElement st;
     mutationObserver := mutationObserver st;
     resizeObserver := resizeObserver st;
     mutationDebounceTimer := mutationDebounceTimer st;
     resizeDebounceTimer := resizeDebounceTimer st;
     calculationAbortController := calculationAbortController st;
     progressIndicator := v;
     progressTimeouts := progressTimeouts st;
     animationFrames := animationFrames st |}.

Definition set_progressTimeouts (v : nat) (st : Script) : Script :=
  {| configManager := configManager st;
     storageListener := storageListener st;
     currentConfig := currentConfig st;
     hitRegionMap := hitRegionMap st;
     renderer := renderer st;
     currentlySelectedElement := currentlySelectedElement st;
     mutationObserver := mutationObserver st;
     resizeObserver := resizeObserver st;
     mutationDebounceTimer := mutationDebounceTimer st;
     resizeDebounceTimer := resizeDebounceTimer st;
     calculationAbortController := calculationAbortController st;
     progressIndicator := progressIndicator st;
     progressTimeouts := v;
     animationFrames := animationFrames st |}.

Definition set_animationFrames (v : list Renderer.Frame) (st : Script) : Script :=
  {| configManager := configManager st;
     storageListener := storageListener st;
     currentConfig := currentConfig st;
     hitRegionMap := hitRegionMap st;
     renderer := renderer st;
     currentlySelectedElement := currentlySelectedElement st;
     mutationObserver := mutationObserver st;
     resizeObserver := resizeObserver st;
     mutationDebounceTimer := mutationDebounceTimer st;
     resizeDebounceTimer := resizeDebounceTimer st;
     calculationAbortController := calculationAbortController st;
     progressIndicator := progressIndicator st;
     progressTimeouts := progressTimeouts st;
     animationFrames := v |}.

(** The state when the script is loaded. *)
Definition initial : Script :=
  {| configManager := None; storageListener := false; currentConfig := None;
     hitRegionMap := None; renderer := None; currentlySelectedElement := None;
     mutationObserver := false; resizeObserver := false;
     mutationDebounceTimer := None; resizeDebounceTimer := None;
     calculationAbortController := false; progressIndicator := None;
     progressTimeouts := 0%nat; animationFrames := [] |}.

(** [showProgressIndicator]: the element is assigned before it is appended
    to [document.body]. *)
Definition showProgressIndicator (w : World) (st : Script) : Script :=
  match progressIndicator st with
  | Some _ => st
  | None => set_progressIndicator (Some (Renderer.document_body (page w))) st
  end.

Definition hideProgressIndicator (st : Script) : Script :=
  match progressIndicator st with
  | Some true => set_progressIndicator None st
  | _ => st
  end.

(** The resolution [calculateHitRegions] passes on, where the model of the
    pass covers it: [undefined], for which the pass takes its default, or
    an integer. *)
Definition resolution_argument (v : JsData) : option (option Z) :=
  match v with
  | DUndefined => Some None
  | DNumber (NumFinite q) =>
      if Qnum q mod Zpos (Qden q) =? 0 then Some (Some (Qnum q / Zpos (Qden q)))
      else None
  | _ => None
  end.

(** [calculateHitRegions]: the state after the call and the error thrown
    on, if any; [None] when the pass does not end within the fuel or the
    resolution is outside the model.  The body has no [await], so that
    nothing runs between the creation of the abort controller and the end of
    the pass: the signal is not aborted in any round. *)
Definition calculateHitRegions (w : World) (st : Script)
    : option (Script * option ScriptError) :=
  let st := set_calculationAbortController true st in
  let st := set_progressTimeouts (S (progressTimeouts st)) st in
  match currentConfig st with
  | None =>
      Some (set_calculationAbortController false (hideProgressIndicator st),
            Some TypeError)
  | Some config =>
      match resolution_argument (Config.get config "samplingResolution") with
      | None => None
      | Some resolution =>
          match calculate (fuel w) (host w) resolution
                  (Some {| timeout := Some 10000; onProgress := true;
                           signal := Some (fun _ => false) |})
          with
          | None => None
          | Some (Returned m, _) =>
              let st := set_hitRegionMap (Some m) st in
              let st := set_progressTimeouts (Nat.pred (progressTimeouts st)) st in
              let st := hideProgressIndicator st in
              Some (set_calculationAbortController false st, None)
          | Some (Threw err, _) =>
              Some (set_calculationAbortController false (hideProgressIndicator st),
                    Some (PassError err))
          end
      end
  end.

Definition cancelCalculation (st : Script) : Script * bool :=
  if calculationAbortController st then
    (hideProgressIndicator (set_calculationAbortController false st), true)
  else (st, false).

Definition clearVisualization (st : Script) : Script :=
  set_currentlySelectedElement None
    (set_renderer (option_map Renderer.clear (renderer st)) st).

(** [visualizeHitRegion]: the state after the call and what it returns. *)
Definition visualizeHitRegion (w : World) (element : option Elem) (st : Script)
    : Script * bool :=
  match element with
  | None => (st, false)
  | Some element =>
      if negb (contains w element) then (clearVisualization st, false)
      else
        match hitRegionMap st with
        | None => (st, false)
        | Some m =>
            let st := set_currentlySelectedElement (Some element) st in
            match getCoordinates m (Some element) with
            | [] => (clearVisualization st, false)
            | coord :: coords =>
                let coordinates := coord :: coords in
                match renderer st with
                | None => (st, false)
                | Some r =>
                    let '(r, thrown) :=
                      if Renderer.hasOverlay r then (r, false)
                      else
                        let '(r', created) := Renderer.createOverlay (page w) r in
                        (r', match created with Some _ => false | None => true end) in
                    let st := set_renderer (Some r) st in
                    if thrown then (st, false)
                    else
                      match currentConfig st with
                      | None => (st, false)
                      | Some config =>
                          let '(r, frame) :=
                            Renderer.renderHitRegion (page w) r
                              (Some (map Some coordinates))
                              (Config.get config "highlightColor")
                              (Config.get config "highlightOpacity") in
                          (set_animationFrames
                             (animationFrames st
                              ++ match frame with Some f => [f] | None => [] end)
                             (set_renderer (Some r) st),
                           true)
                      end
                end
            end
        end
  end.

(** [handlePageChanges]; the error of a pass that throws is caught and
    logged.  [None] when the pass is outside the model. *)
Definition handlePageChanges (w : World) (st : Script) : option Script :=
  let st :=
    match hitRegionMap st with
    | Some m => set_hitRegionMap (Some (clear m)) st
    | None => st
    end in
  if match currentConfig st with
     | Some config => truthy_data (Config.get config "autoRecalculate")
     | None => false
     end
  then
    match calculateHitRegions w st with
    | None => None
    | Some (st, Some _) => Some st
    | Some (st, None) =>
        match currentlySelectedElement st with
        | Some element =>
            if contains w element then Some (visualizeHitRegion w (Some element) st).1
            else Some (clearVisualization (set_currentlySelectedElement None st))
        | None => Some st
        end
    end
  else Some (clearVisualization st).

(** [handleMutation] and [handleResize]: the pending timer, if any, is
    cleared and a new one set. *)
Definition handleMutation (st : Script) : Script :=
  set_mutationDebounceTimer (Some 300) st.

Definition handleResize (st : Script) : Script :=
  set_resizeDebounceTimer (Some 200) st.

(** The callback [handleResize] sets the timer for. *)
Definition resize_timeout (w : World) (st : Script) : option Script :=
  let st :=
    match renderer st with
    | Some r =>
        if Renderer.hasOverlay r
        then set_renderer (Some (Renderer.updateDimensions (page w) r)) st
        else st
    | None => st
    end in
  handlePageChanges w st.

Definition findElementByIdentifier (w : World) (elementId : Identifier)
    : option Elem :=
  if negb (validateElementIdentifier elementId) then None
  else
    match elementId with
    | IdObject (DString t) (DString value) =>
        let found :=
          if bool_decide (t = "css") then querySelector w value
          else if bool_decide (t = "xpath") then evaluate w value
          else if bool_decide (t = "id") then Some (getElementById w value)
          else Some None in
        match found with
        | Some (Some element) =>
            if negb (contains w element) then None else Some element
        | Some None => None
        | None => None
        end
    | _ => None
    end.

(** The listener of [chrome.runtime.onMessage]: the state after the
    message and the calls of [sendResponse] made. *)
Definition onMessage (w : World) (message : Message) (st : Script)
    : Script * list Response :=
  match message with
  | MsgNullish => (st, [RespError])
  | MsgValue (DString t) elementId =>
      if bool_decide (t = "elementSelected") || bool_decide (t = "elementHovered")
      then
        match findElementByIdentifier w elementId with
        | Some element =>
            let '(st, success) := visualizeHitRegion w (Some element) st in
            (st, [RespSuccess success])
        | None => (st, [RespElementNotFound])
        end
      else if bool_decide (t = "elementDeselected") then
        (clearVisualization st, [RespSuccess true])
      else if bool_decide (t = "cancelCalculation") then
        let '(st, cancelled) := cancelCalculation st in
        (st, [RespCancelled cancelled])
      else (st, [RespUnknownMessageType])
  | MsgValue _ _ => (st, [RespUnknownMessageType])
  end.

(** The change listener [initialize] registers with the configuration
    manager.  Its call of [calculateHitRegions] is not awaited: an error of
    the pass is left in a rejected promise. *)
Definition onConfigurationChanged (w : World)
    (oldConfig newConfig : Config.Configuration) (st : Script) : option Script :=
  let st := set_currentConfig (Some newConfig) st in
  let recalculated :=
    if negb (data_strict_equals (Config.get oldConfig "samplingResolution")
               (Config.get newConfig "samplingResolution"))
    then option_map fst (calculateHitRegions w st)
    else Some st in
  match recalculated with
  | None => None
  | Some st =>
      match currentlySelectedElement st with
      | Some element =>
          if negb (data_strict_equals (Config.get oldConfig "highlightColor")
                     (Config.get newConfig "highlightColor"))
             || negb (data_strict_equals (Config.get oldConfig "highlightOpacity")
                        (Config.get newConfig "highlightOpacity"))
          then Some (visualizeHitRegion w (Some element) st).1
          else Some st
      | None => Some st
      end
  end.

(** The calls the manager makes of its listeners, in order. *)
Fixpoint notify (w : World)
    (calls : list (nat * Config.Configuration * Config.Configuration))
    (st : Script) : option Script :=
  match calls with
  | [] => Some st
  | (_, oldConfig, newConfig) :: rest =>
      match onConfigurationChanged w oldConfig newConfig st with
      | Some st => notify w rest st
      | None => None
      end
  end.

(** [initialize], from the answer of the store on.  A first pass that
    throws ends it; [observe] throws when there is no [document.body]. *)
Definition initialize (w : World) (answer : Config.StorageGet) (st : Script)
    : option Script :=
  let '(cm, config) :=
    Config.loadConfiguration Config.new_ConfigurationManager answer in
  let st := set_configManager (Some cm) st in
  let st := set_currentConfig (Some config) st in
  let st := set_renderer (Some Renderer.new_CanvasRenderer) st in
  match calculateHitRegions w st with
  | None => None
  | Some (st, Some _) => Some st
  | Some (st, None) =>
      let st := set_configManager (Some (Config.addChangeListener cm 0%nat)) st in
      let st := set_storageListener true st in
      if Renderer.document_body (page w)
      then Some (set_resizeObserver true (set_mutationObserver true st))
      else Some st
  end.

(** What the event loop runs after the script is loaded: a message, a
    change of the store, a batch of mutation records, a resize, one of the
    timers, or the next animation frame. *)
Inductive Task : Type :=
  | OnMessage (message : Message)
  | OnStorageChanged
      (change : option (option Config.Configuration * option Config.Configuration))
      (areaName : string)
  | OnMutations (mutations : list MutationRecord)
  | OnResize
  | MutationTimeout
  | ResizeTimeout
  | ProgressTimeout
  | OnAnimationFrame.

(** One task.  A batch of mutation records on which the observer's
    callback throws ends the task with the state as it was: the callback
    assigns nothing before [handleMutation]. *)
Definition step (w : World) (task : Task) (st : Script) : option Script :=
  match task with
  | OnMessage message => Some (onMessage w message st).1
  | OnStorageChanged change areaName =>
      if storageListener st then
        match configManager st with
        | Some cm =>
            let '(cm, calls) := Config.onStorageChanged cm change areaName in
            notify w calls (set_configManager (Some cm) st)
        | None => Some st
        end
      else Some st
  | OnMutations mutations =>
      if mutationObserver st then
        match some_isRelevantMutation mutations with
        | Some true => Some (handleMutation st)
        | Some false => Some st
        | None => Some st
        end
      else Some st
  | OnResize => if resizeObserver st then Some (handleResize st) else Some st
  | MutationTimeout =>
      match mutationDebounceTimer st with
      | Some _ => handlePageChanges w (set_mutationDebounceTimer None st)
      | None => Some st
      end
  | ResizeTimeout =>
      match resizeDebounceTimer st with
      | Some _ => resize_timeout w (set_resizeDebounceTimer None st)
      | None => Some st
      end
  | ProgressTimeout =>
      match progressTimeouts st with
      | S n => Some (showProgressIndicator w (set_progressTimeouts n st))
      | O => Some st
      end
  | OnAnimationFrame =>
      Some (set_animationFrames []
              (set_renderer
                 (option_map (fold_left Renderer.run_frame (animationFrames st))
                    (renderer st)) st))
  end.

(** A run of tasks, each in the page of its time. *)
Fixpoint run (tasks : list (World * Task)) (st : Script) : option Script :=
  match tasks with
  | [] => Some st
  | (w, task) :: rest =>
      match step w task st with
      | Some st => run rest st
      | None => None
      end
  end.

(** The script from its initialisation on; tasks that run before it leave
    the initial state as it is. *)
Definition session (w : World) (answer : Config.StorageGet)
    (tasks : list (World * Task)) : option Script :=
  match initialize w answer initial with
  | Some st => run tasks st
  | None => None
  end.

(** A script whose initialisation ended with the first pass: no map, no
    listener, no observer, nothing requested of the renderer. *)
Definition inert (st : Script) : Prop :=
  hitRegionMap st = None
  ∧ storageListener st = false
  ∧ mutationObserver st = false ∧ resizeObserver st = false
  ∧ mutationDebounceTimer st = None ∧ resizeDebounceTimer st = None
  ∧ calculationAbortController st = false
  ∧ currentlySelectedElement st = None
  ∧ renderer st = Some Renderer.new_CanvasRenderer
  ∧ animationFrames st = [].

(** A page in which no pass gets past the timeout: whatever the
    resolution, in each round of the pass over the grid of that resolution
    the clock reads at most the ten seconds of the timeout after the start
    of the pass.  Only the readings of those rounds are bounded. *)
Definition in_time (w : World) : Prop :=
  ∀ (resolution : option Z) (coordinates : list Coordinate) (k : nat),
    generateCoordinateGrid (fuel w) (innerWidth (host w)) (innerHeight (host w))
      (default 10 resolution) = Some coordinates →
    (k < length coordinates)%nat →
    performanceNow (host w) (S k) - performanceNow (host w) 0 ≤ 10000.

(** The manager as [initialize] leaves it when it runs to its end: the
    listener of the script is the only one. *)
Definition listening (st : Script) : Prop :=
  storageListener st = true →
  ∃ cm, configManager st = Some cm ∧ Config.changeListeners cm = [0%nat].

End Script.

Arguments World Elem : clear implicits.
Arguments Script Elem {_ _}.

End Script.

(* ===================================================================== *)
(** * options/options.js *)
(* ===================================================================== *)

Module OptionsPage.

(** [n / 100].  Numbers are taken by their exact value; rounding to a
    double is monotone and keeps 0 and 1, so that the comparisons with 0
    and 1 made of the quotient are the same. *)
Definition div_100 (n : JsNumber) : JsNumber :=
  match n with
  | NumNaN => NumNaN
  | NumInfinity negative => NumInfinity negative
  | NumFinite q => NumFinite (Qdiv q (inject_Z 100))
  end.

(** The form when the save button is clicked: what [parseInt] gives for
    the values of the resolution and opacity inputs, the value of the
    colour input, and whether the box is checked. *)
Record Form : Type := {
  resolution_parsed : JsNumber;
  color_value : string;
  opacity_parsed : JsNumber;
  autoRecalculate_checked : bool
}.

(** How the click handler ends: with one of its alerts, or with the
    configuration written to the store and the confirmation shown. *)
Inductive Outcome : Type :=
  | AlertResolution
  | AlertColor
  | AlertOpacity
  | AlertFailed
  | Saved (config : Config.Configuration).

(** The click handler of the save button; [set_fails] is whether
    [chrome.storage.sync.set] fails. *)
Definition save_click (form : Form) (set_fails : bool) : Outcome :=
  let samplingResolution := resolution_parsed form in
  let highlightColor := color_value form in
  let highlightOpacity := div_100 (opacity_parsed form) in
  let config : Config.Configuration :=
    <["samplingResolution" := DNumber samplingResolution]>
    (<["highlightColor" := DString highlightColor]>
    (<["highlightOpacity" := DNumber highlightOpacity]>
    (<["autoRecalculate" := DBoolean (autoRecalculate_checked form)]> ∅))) in
  if num_lt samplingResolution (num_of_Z 1)
     || num_gt samplingResolution (num_of_Z 50)
  then AlertResolution
  else if negb (is_hex_color highlightColor) then AlertColor
  else if num_lt highlightOpacity (num_of_Z 0)
          || num_gt highlightOpacity (num_of_Z 1)
  then AlertOpacity
  else if set_fails then AlertFailed
  else Saved config.

End OptionsPage.

(* ===================================================================== *)
(** * Example hosts *)
(* ===================================================================== *)

(** A clock that advances by [step] milliseconds per reading. *)
Definition clock_of (step : Z) (k : nat) : Z := step * Z.of_nat k.

(** A viewport of [width] by [height] in which a button, element [1],
    covers [[0,60) x [0,40)] and nothing else is interactive. *)
Definition button_host (width height : Z) (clock : nat → Z) : Host nat :=
  {| innerWidth := width;
     innerHeight := height;
     performanceNow := clock;
     elementFromPoint := fun _ x y =>
       match x, y with
       | JInt a, JInt b => if (a <? 60) && (b <? 40) then HitNode 1%nat else HitNull
       | _, _ => HitNull
       end;
     documentContains := fun _ _ => true;
     interactiveAncestor := fun _ element => Some element |}.

(** Options with a progress callback and nothing else. *)
Definition progress_options : Options :=
  {| timeout := None; onProgress := true; signal := None |}.

(** Options whose signal is aborted from round [n] on. *)
Definition abort_options (n : nat) : Options :=
  {| timeout := None; onProgress := false; signal := Some (fun i => (n <=? i)%nat) |}.


(* ===================================================================== *)
(** * Example documents and mutation records *)
(* ===================================================================== *)

(** A document [html > body > button > "label"], with a second button whose
    role attribute is empty, and a link that holds a button that holds an
    icon. *)
Definition example_document : Document :=
  {| documentElement := 0; documentNode := 100 |}.

Definition html_node : Node :=
  MkNode 0 ElementNode "HTML" [] "auto" None.

Definition body_node : Node :=
  MkNode 1 ElementNode "BODY" [] "auto" (Some html_node).

Definition save_button : Node :=
  MkNode 2 ElementNode "BUTTON" [] "auto" (Some body_node).

Definition button_label : Node :=
  MkNode 3 TextNode EmptyString [] EmptyString (Some save_button).

Definition empty_role_button : Node :=
  MkNode 4 ElementNode "BUTTON" [("role", EmptyString)] "auto" (Some body_node).

Definition outer_link : Node :=
  MkNode 5 ElementNode "A" [("href", "/home")] "auto" (Some body_node).

Definition inner_button : Node :=
  MkNode 6 ElementNode "DIV" [("role", "button")] "auto" (Some outer_link).

Definition icon : Node :=
  MkNode 7 ElementNode "SPAN" [] "auto" (Some inner_button).

Definition unset_style : InlineStyle :=
  {| style_pointerEvents := EmptyString; style_position := EmptyString; style_display := EmptyString;
     style_visibility := EmptyString; style_transform := EmptyString; style_left := EmptyString;
     style_top := EmptyString; style_right := EmptyString; style_bottom := EmptyString |}.

(** The record of a text node added to an element. *)
Definition text_node_added : MutationRecord :=
  {| type := "childList"; attributeName := None; target_style := Some unset_style;
     addedNodes := [TextNode]; removedNodes := [] |}.

(** The record of a change of the [style] attribute that leaves the inline
    style without any of the properties the filter reads, as the removal of
    [pointer-events: none] from an element styled with nothing else does. *)
Definition style_cleared : MutationRecord :=
  {| type := "attributes"; attributeName := Some "style";
     target_style := Some unset_style; addedNodes := []; removedNodes := [] |}.

(** The record of a change of the [style] attribute of an element that has
    no [style] object. *)
Definition style_of_plain_element : MutationRecord :=
  {| type := "attributes"; attributeName := Some "style";
     target_style := None; addedNodes := []; removedNodes := [] |}.

(** The orchestration at rest: no map yet, no timer armed. *)
Definition idle_state : ContentState nat :=
  {| samplingResolution := 10; hitRegionMap := None;
     mutationDebounceTimer := None; resizeDebounceTimer := None |}.
(** A map whose limit is two coordinates per element, after element [1]
    has taken the two points [(0,0)] and [(0,10)]. *)
Definition limit_two_map : HitRegionMap nat :=
  map_after
    (addCoordinate
       (map_after
          (addCoordinate (new_HitRegionMap (Some 2)) (Some 1%nat)
             (Some (createCoordinate (JInt 0) (JInt 0)))))
       (Some 1%nat) (Some (createCoordinate (JInt 0) (JInt 10)))).

(* ===================================================================== *)
(** * Example pages for the content script *)
(* ===================================================================== *)

(** A page of 100 by 50 pixels that can hold an overlay. *)
Definition example_page : Renderer.Page :=
  {| Renderer.window_innerWidth := 100; Renderer.window_innerHeight := 50;
     Renderer.document_body := true; Renderer.getContext_2d := true |}.

(** The page of [button_host] in that viewport: the button, element [1],
    is in the document and has the id [save]; XPath lookups throw. *)
Definition example_world (clock : nat → Z) : Script.World nat :=
  {| Script.host := button_host 100 50 clock;
     Script.fuel := 200;
     Script.page := example_page;
     Script.contains := fun e => (e =? 1)%nat;
     Script.querySelector := fun s =>
       if bool_decide (s = "#save") then Some (Some 1%nat) else Some None;
     Script.evaluate := fun _ => None;
     Script.getElementById := fun s =>
       if bool_decide (s = "save") then Some 1%nat else None |}.

(** The message that selects the button by its id. *)
Definition select_save : Script.Task :=
  Script.OnMessage
    (Script.MsgValue (DString "elementSelected")
       (Script.IdObject (DString "id") (DString "save"))).

Definition cancel_message : Script.Task :=
  Script.OnMessage (Script.MsgValue (DString "cancelCalculation") Script.IdFalsy).

(* ===================================================================== *)
(** * Properties of the coordinate encoding *)
(* ===================================================================== *)

Lemma all_digits_NilEmpty (d : Decimal.uint) :
  all_digits (NilEmpty.string_of_uint d) = true.
Proof. induction d; simpl; auto. Qed.

Lemma all_digits_NilZero (d : Decimal.uint) :
  all_digits (NilZero.string_of_uint d) = true.
Proof. destruct d; try reflexivity; apply (all_digits_NilEmpty (_ _)). Qed.

Lemma NilZero_string_nonempty (d : Decimal.uint) :
  NilZero.string_of_uint d ≠ EmptyString.
Proof. destruct d; discriminate. Qed.

Lemma is_digit_not_comma (c : ascii) :
  is_digit c = true → Ascii.eqb c ","%char = false.
Proof.
  intros Hc. destruct (Ascii.eqb_spec c ","%char) as [->|]; [discriminate|done].
Qed.

Lemma all_digits_comma_free (s : string) :
  all_digits s = true → comma_free s = true.
Proof.
  induction s as [|c s IH]; simpl; [done|].
  intros [Hc Hs]%andb_true_iff. rewrite (is_digit_not_comma c Hc). simpl. auto.
Qed.

(** The digits read back give the number that was printed. *)
Lemma digits_value_printed (d : Decimal.uint) :
  digits_value (NilZero.string_of_uint d) = Some (Z.of_uint d).
Proof.
  unfold digits_value. destruct d; [reflexivity|..];
    by rewrite NilZero.usu.
Qed.

Lemma printed_uint_head (d : Decimal.uint) :
  ∃ c s, NilZero.string_of_uint d = String c s ∧ is_digit c = true.
Proof.
  pose proof (all_digits_NilZero d) as Hall.
  destruct (NilZero.string_of_uint d) as [|c s] eqn:E.
  - by apply NilZero_string_nonempty in E.
  - apply andb_true_iff in Hall as [Hc _]. eauto.
Qed.

Lemma Number_of_digits (s : string) (c : ascii) (n : Z) :
  is_digit c = true → digits_value (String c s) = Some n →
  Number (String c s) = JInt n.
Proof.
  intros Hc Hn. unfold Number.
  repeat (case_decide as E; [inversion E; subst; discriminate Hc|clear E]).
  destruct (Ascii.eqb_spec c "-"%char) as [->|]; [discriminate Hc|].
  destruct (Ascii.eqb_spec c "+"%char) as [->|]; [discriminate Hc|].
  by rewrite Hn.
Qed.

Lemma Number_of_negative (s : string) (c : ascii) (n : Z) :
  is_digit c = true → digits_value (String c s) = Some n →
  Number (String "-" (String c s)) = JInt (- n).
Proof.
  intros Hc Hn. unfold Number.
  repeat (case_decide as E; [inversion E; subst; discriminate Hc|clear E]).
  simpl Ascii.eqb. cbv iota. by rewrite Hn.
Qed.

(** Reading a printed number gives the number back; [undefined] alone is
    printed as a word that reads as [NaN]. *)
Lemma Number_numberToString (v : JsValue) :
  v ≠ JUndefined → Number (numberToString v) = v.
Proof.
  intros Hv. destruct v as [| |[]|z]; try done.
  simpl. rewrite <- (DecimalZ.of_to z) at 2.
  destruct (Z.to_int z) as [d|d]; simpl.
  - destruct (printed_uint_head d) as (c & s & E & Hc).
    rewrite E. apply Number_of_digits; [done|].
    rewrite <- E. apply digits_value_printed.
  - destruct (printed_uint_head d) as (c & s & E & Hc).
    rewrite E. apply Number_of_negative; [done|].
    rewrite <- E. apply digits_value_printed.
Qed.

Lemma numberToString_comma_free (v : JsValue) :
  comma_free (numberToString v) = true.
Proof.
  destruct v as [| |[]|z]; try reflexivity.
  simpl. destruct (Z.to_int z) as [d|d]; simpl;
    apply all_digits_comma_free, all_digits_NilZero.
Qed.

Lemma split_comma_nonempty (s : string) : split_comma s ≠ [].
Proof.
  induction s as [|c s IH]; simpl; [done|].
  destruct (Ascii.eqb c ","%char); [done|]. by destruct (split_comma s).
Qed.

Lemma split_comma_free (s : string) :
  comma_free s = true → split_comma s = [s].
Proof.
  induction s as [|c s IH]; simpl; [done|].
  intros [Hc Hs]%andb_true_iff. apply negb_true_iff in Hc. rewrite Hc.
  by rewrite (IH Hs).
Qed.

Lemma split_comma_append (s1 s2 : string) :
  comma_free s1 = true →
  split_comma (s1 +:+ "," +:+ s2) = s1 :: split_comma s2.
Proof.
  induction s1 as [|c s1 IH]; simpl; [done|].
  intros [Hc Hs]%andb_true_iff. apply negb_true_iff in Hc. rewrite Hc.
  by rewrite (IH Hs).
Qed.

(** Decoding an encoded coordinate reads each printed component back. *)
Lemma keyToCoord_coordToKey_components (c : Coordinate) :
  keyToCoord (coordToKey c)
  = {| x := Number (numberToString (x c)); y := Number (numberToString (y c)) |}.
Proof.
  unfold keyToCoord, coordToKey.
  rewrite split_comma_append by apply numberToString_comma_free.
  rewrite split_comma_free by apply numberToString_comma_free.
  reflexivity.
Qed.

Lemma keyToCoord_coordToKey (c : Coordinate) :
  x c ≠ JUndefined → y c ≠ JUndefined → keyToCoord (coordToKey c) = c.
Proof.
  intros Hx Hy. rewrite keyToCoord_coordToKey_components.
  rewrite !Number_numberToString by done. by destruct c.
Qed.

Lemma isValidCoordinate_finite (c : Coordinate) :
  isValidCoordinate (Some c) = true ↔ ∃ m n, c = {| x := JInt m; y := JInt n |}.
Proof.
  split.
  - destruct c as [[| |?|m] [| |?|n]]; simpl; try discriminate. eauto.
  - intros (m & n & ->). reflexivity.
Qed.

Lemma isValidCoordinate_defined (c : Coordinate) :
  isValidCoordinate (Some c) = true → x c ≠ JUndefined ∧ y c ≠ JUndefined.
Proof. intros (m & n & ->)%isValidCoordinate_finite. done. Qed.

(** The encoding is injective on coordinates with numeric components. *)
Lemma coordToKey_inj (c1 c2 : Coordinate) :
  x c1 ≠ JUndefined → y c1 ≠ JUndefined →
  x c2 ≠ JUndefined → y c2 ≠ JUndefined →
  coordToKey c1 = coordToKey c2 → c1 = c2.
Proof.
  intros ? ? ? ? E.
  rewrite <- (keyToCoord_coordToKey c1), <- (keyToCoord_coordToKey c2) by done.
  by rewrite E.
Qed.

(** C7. Encoding round trip: for every coordinate whose components are
    valid numbers (finite, not [NaN]), decoding the key that [coordToKey]
    gives returns the coordinate: the two are equal component by component
    under [===], as [coordEquals] tests it, and they are the same pair. *)
Theorem keyToCoord_coordToKey_roundtrip (c : Coordinate) :
  isValidCoordinate (Some c) = true →
  coordEquals (keyToCoord (coordToKey c)) c = true
  ∧ keyToCoord (coordToKey c) = c.
Proof.
  intros Hvalid.
  destruct (isValidCoordinate_defined c Hvalid) as [Hx Hy].
  rewrite keyToCoord_coordToKey by done. split; [|done].
  apply isValidCoordinate_finite in Hvalid as (m & n & ->).
  unfold coordEquals; simpl. by rewrite !Z.eqb_refl.
Qed.

Lemma keyToCoord_coordToKey_roundtrip_witness :
  isValidCoordinate (Some {| x := JInt 50; y := JInt 50 |}) = true
  ∧ coordEquals (keyToCoord (coordToKey {| x := JInt 50; y := JInt 50 |}))
                {| x := JInt 50; y := JInt 50 |} = true
  ∧ keyToCoord (coordToKey {| x := JInt 50; y := JInt 50 |})
    = {| x := JInt 50; y := JInt 50 |}.
Proof.
  split; [reflexivity|].
  apply (keyToCoord_coordToKey_roundtrip {| x := JInt 50; y := JInt 50 |}).
  reflexivity.
Defined.

(* ===================================================================== *)
(** * Properties of the coordinate grid *)
(* ===================================================================== *)

Section GridProps.
Variable resolution : Z.
Hypothesis resolution_pos : 1 ≤ resolution.

Lemma ceil_div_spec (a : Z) :
  (ceil_div a resolution - 1) * resolution < a ≤ ceil_div a resolution * resolution.
Proof.
  unfold ceil_div.
  pose proof (Z.div_mod (a + resolution - 1) resolution ltac:(lia)).
  pose proof (Z.mod_pos_bound (a + resolution - 1) resolution ltac:(lia)).
  nia.
Qed.

Lemma ceil_div_nonpos (a : Z) : a ≤ 0 → ceil_div a resolution ≤ 0.
Proof. pose proof (ceil_div_spec a). nia. Qed.

Lemma ceil_div_pos (a : Z) : 0 < a → 1 ≤ ceil_div a resolution.
Proof. pose proof (ceil_div_spec a). nia. Qed.

Lemma ceil_div_step (a : Z) :
  ceil_div a resolution = ceil_div (a - resolution) resolution + 1.
Proof.
  unfold ceil_div.
  replace (a + resolution - 1) with ((a - resolution + resolution - 1) + 1 * resolution)
    by lia.
  rewrite Z.div_add by lia. lia.
Qed.

Lemma rounds_done (limit start : Z) :
  limit ≤ start → rounds limit start resolution = 0%nat.
Proof.
  intros. unfold rounds.
  pose proof (ceil_div_nonpos (limit - start)). lia.
Qed.

Lemma rounds_step (limit start : Z) :
  start < limit →
  rounds limit start resolution = S (rounds limit (start + resolution) resolution).
Proof.
  intros. unfold rounds.
  rewrite (ceil_div_step (limit - start)).
  replace (limit - start - resolution) with (limit - (start + resolution)) by lia.
  pose proof (ceil_div_spec (limit - (start + resolution))).
  assert (0 ≤ ceil_div (limit - (start + resolution)) resolution) by nia.
  lia.
Qed.

(** The inner loop ends exactly when its fuel covers its rounds, and then
    it has pushed the points of one column. *)
Lemma grid_rows_eq (fuel : nat) (height xv yv : Z) (acc : list Coordinate) :
  grid_rows fuel height resolution xv yv acc
  = if (rounds height yv resolution <=? fuel)%nat
    then Some (acc ++ rows_from resolution xv yv (rounds height yv resolution))
    else None.
Proof.
  revert yv acc. induction fuel as [|fuel IH]; intros yv acc; simpl.
  - destruct (Z.ltb_spec yv height).
    + by rewrite rounds_step.
    + rewrite rounds_done by done. simpl. by rewrite app_nil_r.
  - destruct (Z.ltb_spec yv height).
    + rewrite IH, (rounds_step height yv) by done.
      change (S ?n <=? S ?m)%nat with (n <=? m)%nat.
      destruct (_ <=? _)%nat; [|done].
      simpl. by rewrite <- app_assoc.
    + rewrite rounds_done by done. simpl. by rewrite app_nil_r.
Qed.

Lemma grid_columns_enough (fuel budget : nat) (width height xv : Z)
    (acc : list Coordinate) :
  (rounds height 0 resolution ≤ budget)%nat →
  grid_columns fuel budget width height resolution xv acc
  = if (rounds width xv resolution <=? fuel)%nat
    then Some (acc ++ columns_from resolution (rounds height 0 resolution) xv
                        (rounds width xv resolution))
    else None.
Proof.
  intros Hbudget. revert xv acc.
  induction fuel as [|fuel IH]; intros xv acc; simpl.
  - destruct (Z.ltb_spec xv width).
    + by rewrite (rounds_step width xv).
    + rewrite (rounds_done width xv) by done. simpl. by rewrite app_nil_r.
  - destruct (Z.ltb_spec xv width).
    + rewrite grid_rows_eq.
      destruct (Nat.leb_spec (rounds height 0 resolution) budget); [|lia].
      rewrite IH, (rounds_step width xv) by done.
      change (S ?n <=? S ?m)%nat with (n <=? m)%nat.
      destruct (_ <=? _)%nat; [|done].
      simpl. by rewrite <- app_assoc.
    + rewrite (rounds_done width xv) by done. simpl. by rewrite app_nil_r.
Qed.

Lemma grid_columns_Some (fuel budget : nat) (width height xv : Z)
    (acc g : list Coordinate) :
  grid_columns fuel budget width height resolution xv acc = Some g →
  g = acc ++ columns_from resolution (rounds height 0 resolution) xv
               (rounds width xv resolution).
Proof.
  revert xv acc. induction fuel as [|fuel IH]; intros xv acc; simpl.
  - destruct (Z.ltb_spec xv width); [done|].
    intros [= <-]. rewrite (rounds_done width xv) by done. simpl. by rewrite app_nil_r.
  - destruct (Z.ltb_spec xv width).
    + rewrite grid_rows_eq. destruct (_ <=? _)%nat; [|done].
      intros Hg%IH. rewrite Hg, (rounds_step width xv) by done.
      simpl. by rewrite <- app_assoc.
    + intros [= <-]. rewrite (rounds_done width xv) by done. simpl. by rewrite app_nil_r.
Qed.

(** The recursive and the enumerated closed forms agree. *)
Lemma rows_from_seq (xv : Z) (k n : nat) :
  rows_from resolution xv (Z.of_nat k * resolution) n
  = map (fun j => createCoordinate (JInt xv) (JInt (Z.of_nat j * resolution)))
        (seq k n).
Proof.
  revert k. induction n as [|n IH]; intros k; simpl; [done|].
  f_equal. rewrite <- IH. f_equal. lia.
Qed.

Lemma columns_from_seq (rows k n : nat) :
  columns_from resolution rows (Z.of_nat k * resolution) n
  = flat_map (grid_column resolution rows) (seq k n).
Proof.
  revert k. induction n as [|n IH]; intros k; simpl; [done|].
  f_equal.
  - apply (rows_from_seq _ 0).
  - rewrite <- IH. f_equal. lia.
Qed.

Lemma column_major_grid_eq (width height : Z) :
  column_major_grid width height resolution
  = columns_from resolution (rounds height 0 resolution) 0
      (rounds width 0 resolution).
Proof.
  unfold column_major_grid, rounds. rewrite !Z.sub_0_r.
  symmetry. apply (columns_from_seq _ 0).
Qed.

Lemma elem_of_rows_from (c : Coordinate) (xv yv : Z) (n : nat) :
  c ∈ rows_from resolution xv yv n
  ↔ ∃ j, 0 ≤ j < Z.of_nat n
         ∧ c = createCoordinate (JInt xv) (JInt (yv + j * resolution)).
Proof.
  revert yv. induction n as [|n IH]; intros yv; simpl.
  - rewrite elem_of_nil. split; [done|]. intros (j & ? & _). lia.
  - rewrite elem_of_cons, IH. split.
    + intros [->|(j & ? & ->)].
      * exists 0. split; [lia|]. do 2 f_equal. lia.
      * exists (j + 1). split; [lia|]. do 2 f_equal. lia.
    + intros (j & ? & ->). destruct (decide (j = 0)) as [->|].
      * left. do 2 f_equal. lia.
      * right. exists (j - 1). split; [lia|]. do 2 f_equal. lia.
Qed.

Lemma elem_of_columns_from (c : Coordinate) (rows : nat) (xv : Z) (n : nat) :
  c ∈ columns_from resolution rows xv n
  ↔ ∃ i j, 0 ≤ i < Z.of_nat n ∧ 0 ≤ j < Z.of_nat rows
           ∧ c = createCoordinate (JInt (xv + i * resolution)) (JInt (j * resolution)).
Proof.
  revert xv. induction n as [|n IH]; intros xv; simpl.
  - rewrite elem_of_nil. split; [done|]. intros (i & j & ? & _). lia.
  - rewrite elem_of_app, IH, elem_of_rows_from. split.
    + intros [(j & ? & ->)|(i & j & ? & ? & ->)].
      * exists 0, j. repeat split; try lia. do 2 f_equal; lia.
      * exists (i + 1), j. repeat split; try lia. do 2 f_equal; lia.
    + intros (i & j & ? & ? & ->). destruct (decide (i = 0)) as [->|].
      * left. exists j. split; [lia|]. do 2 f_equal; lia.
      * right. exists (i - 1), j. repeat split; try lia. do 2 f_equal; lia.
Qed.

Lemma length_rows_from (xv yv : Z) (n : nat) :
  length (rows_from resolution xv yv n) = n.
Proof. revert yv. induction n; intros; simpl; auto. Qed.

Lemma length_columns_from (rows : nat) (xv : Z) (n : nat) :
  length (columns_from resolution rows xv n) = (n * rows)%nat.
Proof.
  revert xv. induction n as [|n IH]; intros; simpl; [done|].
  by rewrite length_app, length_rows_from, IH.
Qed.

Lemma NoDup_rows_from (xv yv : Z) (n : nat) :
  NoDup (rows_from resolution xv yv n).
Proof.
  revert yv. induction n as [|n IH]; intros yv; simpl; constructor; [|done].
  rewrite elem_of_rows_from. intros (j & ? & [= E]). nia.
Qed.

Lemma NoDup_columns_from (rows : nat) (xv : Z) (n : nat) :
  NoDup (columns_from resolution rows xv n).
Proof.
  revert xv. induction n as [|n IH]; intros xv; simpl; [constructor|].
  apply NoDup_app. split; [apply NoDup_rows_from|]. split; [|done].
  intros c (j & ? & ->)%elem_of_rows_from.
  rewrite elem_of_columns_from. intros (i & j' & ? & ? & [= E _]). nia.
Qed.

End GridProps.

(** With a resolution that is not positive the outer loop never leaves a
    viewport of positive width. *)
Lemma grid_columns_stuck (fuel budget : nat) (width height resolution xv : Z)
    (acc : list Coordinate) :
  resolution ≤ 0 → xv < width →
  grid_columns fuel budget width height resolution xv acc = None.
Proof.
  intros Hr. revert xv acc. induction fuel as [|fuel IH]; intros xv acc Hx; simpl;
    destruct (Z.ltb_spec xv width); try lia; [done|].
  destruct (grid_rows _ _ _ _ _ _); [|done]. apply IH. lia.
Qed.

(** Whatever the resolution, a grid that is generated has distinct points,
    all of them pairs of integers. *)
Lemma generateCoordinateGrid_distinct (fuel : nat) (width height resolution : Z)
    (g : list Coordinate) :
  generateCoordinateGrid fuel width height resolution = Some g →
  NoDup g ∧ Forall (fun c => isValidCoordinate (Some c) = true) g.
Proof.
  unfold generateCoordinateGrid. intros Hg.
  destruct (Z.le_gt_cases 1 resolution) as [Hr|Hr].
  - apply grid_columns_Some in Hg; [|done]. simpl in Hg. subst g. split.
    + by apply NoDup_columns_from.
    + apply Forall_forall. intros c (i & j & _ & _ & ->)%elem_of_columns_from; done.
  - destruct (Z.lt_ge_cases 0 width) as [Hw|Hw].
    + rewrite grid_columns_stuck in Hg by lia. done.
    + destruct fuel; simpl in Hg; destruct (Z.ltb_spec 0 width); try lia;
        injection Hg as <-; split; constructor.
Qed.

Lemma NoDup_keys (g : list Coordinate) :
  NoDup g → Forall (fun c => isValidCoordinate (Some c) = true) g →
  NoDup (map coordToKey g).
Proof.
  intros Hnd Hvalid. apply (NoDup_fmap_2_strong coordToKey); [|done].
  intros c1 c2 H1 H2. rewrite Forall_forall in Hvalid.
  destruct (isValidCoordinate_defined c1) as [? ?]; [by apply Hvalid|].
  destruct (isValidCoordinate_defined c2) as [? ?]; [by apply Hvalid|].
  by apply coordToKey_inj.
Qed.

(** C3. Grid generation: for a viewport of positive integer dimensions
    [W] by [H] and an integer resolution [r] from 1 to 100,
    [generateCoordinateGrid] ends (any fuel from [max W H] on suffices) and
    yields one list, the same for every such fuel, namely the columns from
    left to right, each from top to bottom; it has exactly
    [ceil (W/r) * ceil (H/r)] points, the points are distinct, each has an
    integer [x] in [[0, W)] and an integer [y] in [[0, H)], the point
    [(0,0)] is among them, and it is the only one when [r] is at least both
    dimensions. *)
Theorem generateCoordinateGrid_spec (W H r : Z) :
  0 < W → 0 < H → 1 ≤ r ≤ 100 →
  let g := column_major_grid W H r in
  (∀ fuel, (Z.to_nat (Z.max W H) ≤ fuel)%nat →
           generateCoordinateGrid fuel W H r = Some g)
  ∧ Z.of_nat (length g) = ceil_div W r * ceil_div H r
  ∧ NoDup g
  ∧ (∀ c, c ∈ g → ∃ xv yv, c = {| x := JInt xv; y := JInt yv |}
                            ∧ 0 ≤ xv < W ∧ 0 ≤ yv < H)
  ∧ createCoordinate (JInt 0) (JInt 0) ∈ g
  ∧ (W ≤ r → H ≤ r → g = [createCoordinate (JInt 0) (JInt 0)]).
Proof.
  intros HW HH [Hr Hr100] g.
  assert (Eg : g = columns_from r (rounds H 0 r) 0 (rounds W 0 r))
    by (by apply column_major_grid_eq).
  pose proof (ceil_div_spec r Hr W) as HcW.
  pose proof (ceil_div_spec r Hr H) as HcH.
  pose proof (ceil_div_pos r Hr W HW) as HpW.
  pose proof (ceil_div_pos r Hr H HH) as HpH.
  assert (EW : Z.of_nat (rounds W 0 r) = ceil_div W r)
    by (unfold rounds; rewrite Z.sub_0_r; lia).
  assert (EH : Z.of_nat (rounds H 0 r) = ceil_div H r)
    by (unfold rounds; rewrite Z.sub_0_r; lia).
  repeat split.
  - intros fuel Hfuel. unfold generateCoordinateGrid; simpl.
    rewrite grid_columns_enough by (done || nia).
    destruct (Nat.leb_spec (rounds W 0 r) fuel) as [_|Hlt]; [|nia].
    by rewrite Eg.
  - rewrite Eg, length_columns_from. nia.
  - rewrite Eg. by apply NoDup_columns_from.
  - rewrite Eg. intros c (i & j & ? & ? & ->)%elem_of_columns_from.
    exists (0 + i * r), (j * r). split; [done|]. nia.
  - rewrite Eg. apply elem_of_columns_from; try done.
    exists 0, 0. repeat split; lia.
  - intros HWr HHr. rewrite Eg.
    assert (rounds W 0 r = 1%nat) as -> by nia.
    assert (rounds H 0 r = 1%nat) as -> by nia.
    reflexivity.
Qed.

Lemma generateCoordinateGrid_spec_witness :
  let g := column_major_grid 100 100 50 in
  (∀ fuel, (Z.to_nat (Z.max 100 100) ≤ fuel)%nat →
           generateCoordinateGrid fuel 100 100 50 = Some g)
  ∧ Z.of_nat (length g) = ceil_div 100 50 * ceil_div 100 50
  ∧ NoDup g
  ∧ (∀ c, c ∈ g → ∃ xv yv, c = {| x := JInt xv; y := JInt yv |}
                            ∧ 0 ≤ xv < 100 ∧ 0 ≤ yv < 100)
  ∧ createCoordinate (JInt 0) (JInt 0) ∈ g
  ∧ (100 ≤ 50 → 100 ≤ 50 → g = [createCoordinate (JInt 0) (JInt 0)]).
Proof. apply (generateCoordinateGrid_spec 100 100 50); lia. Defined.

(** The grid of the viewport 100 by 100 at resolution 50. *)
Example generateCoordinateGrid_100_50 :
  generateCoordinateGrid 100 100 100 50
  = Some [ {| x := JInt 0; y := JInt 0 |}; {| x := JInt 0; y := JInt 50 |};
           {| x := JInt 50; y := JInt 0 |}; {| x := JInt 50; y := JInt 50 |} ].
Proof. reflexivity. Qed.

(* ===================================================================== *)
(** * Properties of the hit region map *)
(* ===================================================================== *)

Section HitRegionMapProps.
Context {Elem : Type} `{Countable Elem}.
Implicit Types (m : HitRegionMap Elem) (e : Elem) (c : Coordinate).

Lemma elem_of_set_add {A : Type} `{EqDecision A} (k k' : A) (s : list A) :
  k' ∈ set_add k s ↔ k' = k ∨ k' ∈ s.
Proof.
  unfold set_add. case_decide.
  - split; [by right|]. by intros [->|].
  - rewrite elem_of_app, list_elem_of_singleton. tauto.
Qed.

(** What a call with an element and a coordinate does, by the two branches
    of the size check. *)
Lemma addCoordinate_cases m e c :
  let cs := coordinates_of m e in
  let r := addCoordinate m (Some e) (Some c) in
  maxCoordinatesPerElement (map_after r) = maxCoordinatesPerElement m
  ∧ ((maxCoordinatesPerElement m ≤ Z.of_nat (length cs)
      ∧ added r = false
      ∧ coordinateToElement (map_after r) = coordinateToElement m
      ∧ elementToCoordinates (map_after r) = <[e := cs]> (elementToCoordinates m))
     ∨ (Z.of_nat (length cs) < maxCoordinatesPerElement m
        ∧ added r = true ∧ warned r = []
        ∧ coordinateToElement (map_after r)
          = <[coordToKey c := e]> (coordinateToElement m)
        ∧ elementToCoordinates (map_after r)
          = <[e := set_add (coordToKey c) cs]> (elementToCoordinates m))).
Proof.
  unfold coordinates_of, addCoordinate.
  destruct (elementToCoordinates m !! e) as [cs|] eqn:E; simpl.
  - destruct (Z.geb_spec (Z.of_nat (length cs)) (maxCoordinatesPerElement m));
      simpl; (split; [done|]).
    + left. repeat split; try done; try lia. by rewrite insert_id.
    + right. repeat split; try done; lia.
  - destruct (Z.geb_spec (Z.of_nat 0) (maxCoordinatesPerElement m));
      simpl; (split; [done|]).
    + left. repeat split; try done; lia.
    + right. repeat split; try done; try lia. by rewrite insert_insert_eq.
Qed.

(** At the limit a call drops the coordinate, changes nothing, and warns. *)
Lemma addCoordinate_at_limit m e c keys :
  elementToCoordinates m !! e = Some keys →
  Z.of_nat (length keys) = maxCoordinatesPerElement m →
  addCoordinate m (Some e) (Some c)
  = {| added := false; map_after := m;
       warned := [WarnCoordinateLimit (maxCoordinatesPerElement m)] |}.
Proof.
  intros E Hlen. unfold addCoordinate. rewrite E.
  destruct (Z.geb_spec (Z.of_nat (length keys)) (maxCoordinatesPerElement m)); [|lia].
  by rewrite Hlen, Z.eqb_refl.
Qed.

(** C6. Size cap for an element.  The limit is 10,000 unless the
    constructor is given another one.  Once the set of an element holds as
    many keys as the limit, every further [addCoordinate] call for that
    element returns [false] and leaves the map as it is, both views
    included; and every one of these calls writes the limit warning, so a
    run of [n] dropped coordinates writes it [n] times, not once. *)
Theorem addCoordinates_at_limit m e keys (coords : list Coordinate) :
  elementToCoordinates m !! e = Some keys →
  Z.of_nat (length keys) = maxCoordinatesPerElement m →
  maxCoordinatesPerElement (new_HitRegionMap (Elem := Elem) None) = 10000
  ∧ addCoordinates m e coords
    = (replicate (length coords) false, m,
       replicate (length coords) (WarnCoordinateLimit (maxCoordinatesPerElement m))).
Proof.
  intros E Hlen. split; [done|].
  induction coords as [|c coords IH]; [done|].
  cbn [addCoordinates length replicate].
  rewrite (addCoordinate_at_limit m e c keys E Hlen). cbn [map_after added warned].
  by rewrite IH.
Qed.

(** C10. Two elements taking the same coordinate: for distinct elements
    [e1] and [e2] that are both below the limit and a valid coordinate [c],
    after [addCoordinate(e1, c)] and then [addCoordinate(e2, c)], both of
    which return [true], [getElement(c)] is [e2], and [c] is among
    [getCoordinates(e1)] as well as among [getCoordinates(e2)]. *)
Theorem addCoordinate_twice_last_wins m e1 e2 c :
  e1 ≠ e2 →
  isValidCoordinate (Some c) = true →
  Z.of_nat (getCoordinateCount m e1) < maxCoordinatesPerElement m →
  Z.of_nat (getCoordinateCount m e2) < maxCoordinatesPerElement m →
  let r1 := addCoordinate m (Some e1) (Some c) in
  let r2 := addCoordinate (map_after r1) (Some e2) (Some c) in
  added r1 = true ∧ added r2 = true
  ∧ getElement (map_after r2) (Some c) = Some e2
  ∧ c ∈ getCoordinates (map_after r2) (Some e1)
  ∧ c ∈ getCoordinates (map_after r2) (Some e2).
Proof.
  intros Hne Hvalid Hlt1 Hlt2 r1 r2.
  destruct (isValidCoordinate_defined c Hvalid) as [Hx Hy].
  assert (Hcount : ∀ m' e, getCoordinateCount m' e = length (coordinates_of m' e)).
  { intros m' e. unfold getCoordinateCount, coordinates_of.
    by destruct (elementToCoordinates m' !! e). }
  rewrite Hcount in Hlt1, Hlt2.
  destruct (addCoordinate_cases m e1 c) as (Hmax1 & [(? & _)|(_ & Ha1 & _ & Hc1 & He1)]);
    [lia|].
  fold r1 in Hmax1, Ha1, Hc1, He1.
  assert (Hcs2 : coordinates_of (map_after r1) e2 = coordinates_of m e2).
  { unfold coordinates_of. by rewrite He1, lookup_insert_ne. }
  destruct (addCoordinate_cases (map_after r1) e2 c)
    as (Hmax2 & [(? & _)|(_ & Ha2 & _ & Hc2 & He2)]);
    [rewrite Hcs2, Hmax1 in *; lia|].
  fold r2 in Hmax2, Ha2, Hc2, He2.
  assert (Hin : ∀ e keys,
             elementToCoordinates (map_after r2) !! e = Some keys →
             coordToKey c ∈ keys → c ∈ getCoordinates (map_after r2) (Some e)).
  { intros e keys E Hk. unfold getCoordinates. rewrite E.
    apply list_elem_of_fmap. exists (coordToKey c). split; [|done].
    symmetry. by apply keyToCoord_coordToKey. }
  repeat split; try done.
  - unfold getElement. by rewrite Hc2, lookup_insert_eq.
  - eapply Hin.
    + rewrite He2, lookup_insert_ne, He1 by done. apply lookup_insert_eq.
    + apply elem_of_set_add. by left.
  - eapply Hin.
    + rewrite He2. apply lookup_insert_eq.
    + apply elem_of_set_add. by left.
Qed.

(** A call keeps the index consistent when the key is not yet mapped. *)
Lemma addCoordinate_consistent m (oe : option Elem) c :
  index_consistent m →
  coordinateToElement m !! coordToKey c = None →
  let m' := map_after (addCoordinate m oe (Some c)) in
  index_consistent m'
  ∧ ∀ key, is_Some (coordinateToElement m' !! key) →
           key = coordToKey c ∨ is_Some (coordinateToElement m !! key).
Proof.
  intros [Hfw Hbw] Hfresh. destruct oe as [e|]; [|by split; [|auto]].
  intros m'. subst m'.
  assert (Hcs : ∀ keys, elementToCoordinates m !! e = Some keys →
                        coordinates_of m e = keys).
  { intros keys E. unfold coordinates_of. by rewrite E. }
  assert (Hnone : elementToCoordinates m !! e = None → coordinates_of m e = []).
  { intros E. unfold coordinates_of. by rewrite E. }
  destruct (addCoordinate_cases m e c) as (_ & [(_ & _ & Hc & He)|(_ & _ & _ & Hc & He)]);
    unfold index_consistent, forward_consistent, backward_consistent;
    rewrite Hc, He.
  - repeat split.
    + intros key e' Hk. destruct (Hfw key e' Hk) as (keys & E & Hin).
      destruct (decide (e = e')) as [->|].
      * rewrite lookup_insert_eq, (Hcs keys E). eauto.
      * rewrite lookup_insert_ne by done. eauto.
    + intros e' keys key. destruct (decide (e = e')) as [->|].
      * rewrite lookup_insert_eq. intros [= <-] Hin.
        destruct (elementToCoordinates m !! e') as [keys|] eqn:E.
        -- rewrite (Hcs keys eq_refl) in Hin. eauto.
        -- rewrite (Hnone eq_refl) in Hin. by apply elem_of_nil in Hin.
      * rewrite lookup_insert_ne by done. eauto.
    + auto.
  - repeat split.
    + intros key e'. destruct (decide (coordToKey c = key)) as [<-|].
      * rewrite lookup_insert_eq. intros [= <-]. rewrite lookup_insert_eq.
        eexists. split; [done|]. apply elem_of_set_add. by left.
      * rewrite lookup_insert_ne by done. intros Hk.
        destruct (Hfw key e' Hk) as (keys & E & Hin).
        destruct (decide (e = e')) as [->|].
        -- rewrite lookup_insert_eq, (Hcs keys E). eexists. split; [done|].
           apply elem_of_set_add. by right.
        -- rewrite lookup_insert_ne by done. eauto.
    + intros e' keys key. destruct (decide (e = e')) as [->|].
      * rewrite lookup_insert_eq. intros [= <-] [->|Hin]%elem_of_set_add.
        -- apply lookup_insert_eq.
        -- destruct (elementToCoordinates m !! e') as [keys|] eqn:E.
           ++ rewrite (Hcs keys eq_refl) in Hin.
              destruct (decide (coordToKey c = key)) as [<-|].
              ** apply lookup_insert_eq.
              ** rewrite lookup_insert_ne by done. eauto.
           ++ rewrite (Hnone eq_refl) in Hin. by apply elem_of_nil in Hin.
      * rewrite lookup_insert_ne by done. intros E Hin.
        pose proof (Hbw e' keys key E Hin) as Hk.
        rewrite lookup_insert_ne; [done|]. intros <-. congruence.
    + intros key. destruct (decide (coordToKey c = key)) as [<-|]; [auto|].
      rewrite lookup_insert_ne by done. auto.
Qed.

End HitRegionMapProps.

Lemma addCoordinates_at_limit_witness :
  maxCoordinatesPerElement (new_HitRegionMap (Elem := nat) None) = 10000
  ∧ addCoordinates limit_two_map 1%nat
      [ createCoordinate (JInt 0) (JInt 20); createCoordinate (JInt 0) (JInt 30);
        createCoordinate (JInt 0) (JInt 40) ]
    = ([false; false; false], limit_two_map,
       [WarnCoordinateLimit 2; WarnCoordinateLimit 2; WarnCoordinateLimit 2]).
Proof.
  exact (addCoordinates_at_limit limit_two_map 1%nat ["0,0"; "0,10"]
           [ createCoordinate (JInt 0) (JInt 20); createCoordinate (JInt 0) (JInt 30);
             createCoordinate (JInt 0) (JInt 40) ]
           ltac:(vm_compute; reflexivity) ltac:(vm_compute; reflexivity)).
Defined.

Lemma addCoordinate_twice_last_wins_witness :
  let m := new_HitRegionMap (Elem := nat) None in
  let c := {| x := JInt 50; y := JInt 50 |} in
  let r1 := addCoordinate m (Some 1%nat) (Some c) in
  let r2 := addCoordinate (map_after r1) (Some 2%nat) (Some c) in
  added r1 = true ∧ added r2 = true
  ∧ getElement (map_after r2) (Some c) = Some 2%nat
  ∧ c ∈ getCoordinates (map_after r2) (Some 1%nat)
  ∧ c ∈ getCoordinates (map_after r2) (Some 2%nat).
Proof.
  apply (addCoordinate_twice_last_wins (new_HitRegionMap None) 1%nat 2%nat
           {| x := JInt 50; y := JInt 50 |});
    [discriminate | reflexivity | reflexivity | reflexivity].
Defined.

(* ===================================================================== *)
(** * Properties of the sampling pass *)
(* ===================================================================== *)

Section CalculatorProps.
Context {Elem : Type} `{Countable Elem}.
Implicit Types (host : Host Elem) (options : Options) (m : HitRegionMap Elem).

Lemma new_HitRegionMap_consistent (limit : option Z) :
  index_consistent (new_HitRegionMap (Elem := Elem) limit).
Proof.
  split.
  - intros key e. simpl. by rewrite lookup_empty.
  - intros e keys key. simpl. by rewrite lookup_empty.
Qed.

(** A round inserts the coordinate for at most one element. *)
Lemma sample_round_map host options total i coord m :
  ∃ oe, (sample_round host options total i coord m).1
        = map_after (addCoordinate m oe (Some coord)).
Proof.
  unfold sample_round.
  destruct (sampleCoordinate host i (x coord) (y coord)) as [[e|] sampled].
  - destruct (documentContains host i e).
    + by exists (Some e).
    + by exists None.
  - by exists None.
Qed.

(** The loop keeps the index consistent as long as the keys it is still to
    insert are distinct and not yet mapped. *)
Lemma sampling_loop_consistent host options start total
    (coordinates : list Coordinate) (i : nat) m trace m' trace' :
  NoDup (map coordToKey coordinates) →
  index_consistent m →
  (∀ key, is_Some (coordinateToElement m !! key) →
          key ∉ map coordToKey coordinates) →
  sampling_loop host options start total coordinates i m trace
  = (Returned m', trace') →
  index_consistent m'.
Proof.
  revert i m trace.
  induction coordinates as [|coord rest IH]; intros i m trace Hnd Hm Hfresh; simpl.
  - by intros [= <- _].
  - destruct (signal_aborted options i); [done|].
    destruct (_ >? _); [done|].
    destruct (sample_round host options total i coord m) as [m1 events] eqn:Hround.
    destruct (sample_round_map host options total i coord m) as [oe Hm1].
    rewrite Hround in Hm1. simpl in Hm1. subst m1.
    apply NoDup_cons in Hnd as [Hhead Hnd].
    destruct (addCoordinate_consistent m oe coord Hm) as [Hm1 Hkeys].
    { destruct (coordinateToElement m !! coordToKey coord) eqn:E; [|done].
      exfalso. apply (Hfresh (coordToKey coord)); [by rewrite E|]. simpl. left. }
    apply IH; [done|done|].
    intros key [->|Hkey]%Hkeys; [done|].
    intros Hin. apply (Hfresh key Hkey). simpl. by right.
Qed.

Lemma calculate_on_consistent host resolution options
    (coordinates : list Coordinate) m trace :
  NoDup (map coordToKey coordinates) →
  calculate_on host resolution options coordinates = (Returned m, trace) →
  index_consistent m.
Proof.
  intros Hnd. unfold calculate_on.
  destruct (sampling_loop _ _ _ _ _ _ _ _) as [[m'|err] trace'] eqn:Hloop; [|done].
  intros [= <- _].
  eapply sampling_loop_consistent; [done| |  |done].
  - apply new_HitRegionMap_consistent.
  - intros key [e He]. simpl in He. by rewrite lookup_empty in He.
Qed.

(** C1. Index consistency: when a [calculate] pass completes normally, the
    two views of the map it returns mirror one relation: every key that
    [coordinateToElement] maps to an element [e] is a member of
    [elementToCoordinates[e]], and every key in [elementToCoordinates[e]]
    is mapped to [e] by [coordinateToElement].  The grid of the pass has no
    point twice, so each point is inserted at most once. *)
Theorem calculate_index_consistent (fuel : nat) host (resolution : option Z)
    (options : option Options) m trace :
  calculate fuel host resolution options = Some (Returned m, trace) →
  (∀ key e, coordinateToElement m !! key = Some e →
            ∃ keys, elementToCoordinates m !! e = Some keys ∧ key ∈ keys)
  ∧ (∀ e keys key, elementToCoordinates m !! e = Some keys → key ∈ keys →
                   coordinateToElement m !! key = Some e).
Proof.
  unfold calculate.
  destruct (generateCoordinateGrid _ _ _ _) as [coordinates|] eqn:Hgrid; [|done].
  intros [= Hcalc].
  apply generateCoordinateGrid_distinct in Hgrid as [Hnd Hvalid].
  eapply calculate_on_consistent; [|done].
  by apply NoDup_keys.
Qed.

End CalculatorProps.

Section PassProps.
Context {Elem : Type} `{Countable Elem}.
Implicit Types (host : Host Elem) (options : Options) (m : HitRegionMap Elem).

(** How the loop ends, read off the two checks of its rounds. *)
Lemma sampling_loop_outcome host options total (coordinates : list Coordinate)
    (i : nat) m trace :
  match (sampling_loop host options (performanceNow host 0) total
           coordinates i m trace).1 with
  | Returned _ =>
      ∀ k, (k < length coordinates)%nat → passes_checks host options (i + k)
  | Threw CancelledByUser =>
      ∃ k, (k < length coordinates)%nat
           ∧ (∀ j, (j < k)%nat → passes_checks host options (i + j))
           ∧ signal_aborted options (i + k) = true
  | Threw (ExceededTimeout t) =>
      t = timeout_of options
      ∧ ∃ k, (k < length coordinates)%nat
             ∧ (∀ j, (j < k)%nat → passes_checks host options (i + j))
             ∧ signal_aborted options (i + k) = false
             ∧ t < performanceNow host (S (i + k)) - performanceNow host 0
  end.
Proof.
  revert i m trace.
  induction coordinates as [|coord rest IH]; intros i m trace; simpl.
  - intros k Hk. lia.
  - destruct (signal_aborted options i) eqn:Hsig; simpl.
    { exists 0%nat. rewrite Nat.add_0_r. split; [lia|]. split; [intros; lia|done]. }
    destruct (Z.gtb_spec (performanceNow host (S i) - performanceNow host 0)
                (timeout_of options)) as [Hgt|Hle]; simpl.
    { split; [done|]. exists 0%nat. rewrite Nat.add_0_r.
      split; [lia|]. split; [intros; lia|]. split; [done|lia]. }
    assert (Hshift : ∀ k, (∀ j, (j < k)%nat → passes_checks host options (S i + j)) →
                          ∀ j, (j < S k)%nat → passes_checks host options (i + j)).
    { intros k HP [|j] Hj.
      - rewrite Nat.add_0_r. done.
      - replace (i + S j)%nat with (S i + j)%nat by lia. apply HP. lia. }
    destruct (sample_round host options total i coord m) as [m1 events].
    specialize (IH (S i) m1 (trace ++ events)).
    destruct (sampling_loop _ _ _ _ _ _ _ _) as [[m'|[|t]] trace']; simpl in *.
    + apply Hshift, IH.
    + destruct IH as (k & Hk & Hpre & Hab). exists (S k).
      replace (i + S k)%nat with (S i + k)%nat by lia.
      split; [lia|]. split; [by apply Hshift|done].
    + destruct IH as (-> & k & Hk & Hpre & Hab & Hlate). split; [done|].
      exists (S k). replace (i + S k)%nat with (S i + k)%nat by lia.
      split; [lia|]. split; [by apply Hshift|done].
Qed.

(** The calls of [onProgress] a round makes. *)
Lemma sample_round_progress host options total i coord m :
  progress_calls (sample_round host options total i coord m).2
  = if onProgress options && reports_progress total i
    then [ProgressCall (progress_percentage i total) i total]
    else [].
Proof.
  unfold sample_round, sampleCoordinate, progress_calls, reports_progress.
  assert (Hc : ∀ msgs, List.filter is_progress (map Console msgs) = []).
  { induction msgs; simpl; auto. }
  destruct (elementFromPoint host i (x coord) (y coord)) as [| |e]; simpl.
  - by destruct (_ && _).
  - by destruct (_ && _).
  - destruct (documentContains host i e); simpl.
    + destruct (interactiveAncestor host i e) as [e'|]; simpl.
      * destruct (documentContains host i e'); simpl.
        -- rewrite List.filter_app, Hc. by destruct (_ && _).
        -- by destruct (_ && _).
      * by destruct (_ && _).
    + by destruct (_ && _).
Qed.

(** The calls of [onProgress] of a loop that runs to its end. *)
Lemma sampling_loop_progress host options start total
    (coordinates : list Coordinate) (i : nat) m trace m' trace' :
  sampling_loop host options start total coordinates i m trace
  = (Returned m', trace') →
  progress_calls trace'
  = progress_calls trace
    ++ (if onProgress options
        then map (fun j => ProgressCall (progress_percentage j total) j total)
                 (List.filter (reports_progress total) (seq i (length coordinates)))
        else []).
Proof.
  revert i m trace.
  induction coordinates as [|coord rest IH]; intros i m trace; simpl.
  - intros [= _ <-]. destruct (onProgress options); by rewrite app_nil_r.
  - destruct (signal_aborted options i); [done|].
    destruct (_ >? _); [done|].
    pose proof (sample_round_progress host options total i coord m) as Hround.
    destruct (sample_round host options total i coord m) as [m1 events].
    intros Hloop%IH. rewrite Hloop. unfold progress_calls in *.
    rewrite List.filter_app, <- app_assoc. f_equal. simpl in Hround.
    rewrite Hround.
    destruct (onProgress options); simpl; [|done].
    by destruct (reports_progress total i).
Qed.

(** With fewer than ten points the step [Math.floor(totalCoordinates / 10)]
    is zero, and no round reports progress. *)
Lemma reports_progress_small (total i : nat) :
  (total < 10)%nat → reports_progress total i = false.
Proof.
  intros Hlt. unfold reports_progress, js_rem.
  rewrite Z.div_small by lia. reflexivity.
Qed.

Lemma reports_progress_iff (total i : nat) :
  reports_progress total i = true
  ↔ (10 ≤ total)%nat ∧ (Z.of_nat total / 10 | Z.of_nat i).
Proof.
  unfold reports_progress, js_rem.
  destruct (Z.eqb_spec (Z.of_nat total / 10) 0) as [E|E]; simpl.
  - split; [done|]. intros [Hge _].
    pose proof (Z.div_mod (Z.of_nat total) 10 ltac:(lia)).
    pose proof (Z.mod_pos_bound (Z.of_nat total) 10 ltac:(lia)). exfalso. lia.
  - assert (10 ≤ total)%nat.
    { destruct (Nat.lt_ge_cases total 10) as [Hlt|]; [|done].
      rewrite Z.div_small in E by lia. done. }
    assert (0 ≤ Z.of_nat total / 10) by (apply Z.div_pos; lia).
    rewrite Z.eqb_eq, Z.rem_mod_nonneg by lia.
    rewrite Z.mod_divide by done. tauto.
Qed.

Lemma filter_none {A : Type} (f : A → bool) (l : list A) :
  (∀ a, f a = false) → List.filter f l = [].
Proof. intros Hf. induction l as [|a l IH]; simpl; [done|]. by rewrite Hf. Qed.

Lemma calculate_on_result host resolution options (coordinates : list Coordinate) :
  (calculate_on host resolution options coordinates).1
  = (sampling_loop host options (performanceNow host 0) (length coordinates)
       coordinates 0 (new_HitRegionMap None) []).1.
Proof.
  unfold calculate_on.
  by destruct (sampling_loop _ _ _ _ _ _ _ _) as [[m|err] trace].
Qed.

(** The calls of [onProgress] of a pass that completes: one in each round
    whose index is a multiple of [Math.floor(totalCoordinates / 10)], and
    none when that step is zero. *)
Lemma calculate_on_progress_calls host resolution options
    (coordinates : list Coordinate) m trace :
  calculate_on host resolution options coordinates = (Returned m, trace) →
  progress_calls trace
  = if onProgress options
    then map (fun j => ProgressCall (progress_percentage j (length coordinates)) j
                         (length coordinates))
             (List.filter (reports_progress (length coordinates))
                (seq 0 (length coordinates)))
    else [].
Proof.
  unfold calculate_on.
  destruct (sampling_loop _ _ _ _ _ _ _ _) as [[m'|err] trace'] eqn:Hloop; [|done].
  intros [= _ <-]. apply sampling_loop_progress in Hloop.
  unfold progress_calls in *. rewrite !List.filter_app, Hloop. simpl.
  destruct (_ >? _); simpl; by rewrite app_nil_r.
Qed.

(** The two errors are told apart by their messages, as the catch clause
    of [calculateHitRegions] does it. *)
Lemma error_message_distinguished (timeout : Z) :
  includes (error_message CancelledByUser) "cancelled" = true
  ∧ includes (error_message (ExceededTimeout timeout)) "timeout" = true
  ∧ includes (error_message (ExceededTimeout 10000)) "cancelled" = false.
Proof. repeat split; reflexivity. Qed.

(** C2. The abort path of [calculate].  The timeout is 5000 ms when the
    [timeout] option is not given.  A round whose signal is aborted throws
    the cancellation error at once, before anything is sampled or written.
    The pass ends by the first round that fails a check: it throws the
    cancellation error when the signal is aborted in that round, and else
    the timeout error, carrying the timeout, when the elapsed time exceeds
    the timeout; it returns a map only when every round passes both checks.
    A pass that throws returns no map, and [calculateHitRegions] then
    leaves the state, the previous map included, as it was. *)
Theorem calculate_abort_path host (resolution : Z) options
    (coordinates : list Coordinate) :
  timeout_of default_options = 5000
  ∧ (∀ total coord rest i m trace,
       signal_aborted options i = true →
       sampling_loop host options (performanceNow host 0) total (coord :: rest)
         i m trace
       = (Threw CancelledByUser, trace))
  ∧ match (calculate_on host resolution options coordinates).1 with
    | Returned _ =>
        ∀ i, (i < length coordinates)%nat → passes_checks host options i
    | Threw CancelledByUser =>
        ∃ i, (i < length coordinates)%nat
             ∧ (∀ j, (j < i)%nat → passes_checks host options j)
             ∧ signal_aborted options i = true
    | Threw (ExceededTimeout t) =>
        t = timeout_of options
        ∧ ∃ i, (i < length coordinates)%nat
               ∧ (∀ j, (j < i)%nat → passes_checks host options j)
               ∧ signal_aborted options i = false
               ∧ t < performanceNow host (S i) - performanceNow host 0
    end
  ∧ (∀ fuel aborted (st st' : ContentState Elem) err trace,
       calculateHitRegions fuel host aborted st = Some (st', Some err, trace) →
       st' = st
       ∧ calculate fuel host (Some (samplingResolution st))
           (Some {| timeout := Some 10000; signal := Some aborted;
                    onProgress := true |})
         = Some (Threw err, trace)).
Proof.
  split; [done|]. split; [|split].
  - intros total coord rest i m trace Hsig. simpl. by rewrite Hsig.
  - rewrite calculate_on_result.
    apply (sampling_loop_outcome host options (length coordinates) coordinates 0).
  - intros fuel aborted st st' err trace. unfold calculateHitRegions.
    destruct (calculate _ _ _ _) as [[[m|err'] trace']|]; [done| |done].
    by intros [= <- <- <-].
Qed.

(** C8. Progress reports on a small grid: in a pass over a grid of one to
    nine points that is given an [onProgress] callback and completes,
    [onProgress] is not called at all, since the step
    [Math.floor(totalCoordinates / 10)] is zero and the remainder by zero is
    [NaN]. *)
Theorem calculate_no_progress_below_ten host resolution options
    (coordinates : list Coordinate) m trace :
  onProgress options = true →
  (1 ≤ length coordinates < 10)%nat →
  calculate_on host resolution options coordinates = (Returned m, trace) →
  progress_calls trace = [].
Proof.
  intros Hcb Hsmall Hpass.
  rewrite (calculate_on_progress_calls _ _ _ _ _ _ Hpass), Hcb.
  rewrite filter_none; [done|].
  intros i. apply reports_progress_small. lia.
Qed.

End PassProps.

Lemma calculate_index_consistent_witness :
  ∃ m trace,
    calculate 100 (button_host 100 100 (clock_of 1)) (Some 50) None
    = Some (Returned m, trace)
    ∧ (∀ key e, coordinateToElement m !! key = Some e →
                ∃ keys, elementToCoordinates m !! e = Some keys ∧ key ∈ keys)
    ∧ (∀ e keys key, elementToCoordinates m !! e = Some keys → key ∈ keys →
                     coordinateToElement m !! key = Some e).
Proof.
  assert (E : ∃ m trace,
             calculate 100 (button_host 100 100 (clock_of 1)) (Some 50) None
             = Some (Returned m, trace))
    by (eexists _, _; vm_compute; reflexivity).
  destruct E as (m & trace & E). exists m, trace. split; [exact E|].
  exact (calculate_index_consistent 100 (button_host 100 100 (clock_of 1))
           (Some 50) None m trace E).
Defined.

(** The pass over the viewport 100 by 100 at resolution 50: the button has
    the two points of the top row, and the points below it have no
    element. *)
Example calculate_button_100_50 :
  match calculate 100 (button_host 100 100 (clock_of 1)) (Some 50) None with
  | Some (Returned m, _) =>
      getCoordinates m (Some 1%nat)
      = [ {| x := JInt 0; y := JInt 0 |}; {| x := JInt 50; y := JInt 0 |} ]
      ∧ getElement m (Some {| x := JInt 50; y := JInt 50 |}) = None
  | _ => False
  end.
Proof. vm_compute. done. Qed.

Lemma calculate_abort_path_witness :
  (calculate_on (button_host 100 100 (clock_of 1)) 50 (abort_options 2)
     (column_major_grid 100 100 50)).1
  = Threw CancelledByUser
  ∧ ∃ i, (i < 4)%nat
         ∧ (∀ j, (j < i)%nat →
                 passes_checks (button_host 100 100 (clock_of 1)) (abort_options 2) j)
         ∧ signal_aborted (abort_options 2) i = true.
Proof.
  split; [vm_compute; reflexivity|].
  exact (proj1 (proj2 (proj2
           (calculate_abort_path (button_host 100 100 (clock_of 1)) 50
              (abort_options 2) (column_major_grid 100 100 50))))).
Defined.

(** With no [timeout] option a pass whose first round starts six seconds
    after the start, which is within ten seconds, throws the timeout error:
    the default is not ten seconds. *)
Lemma calculate_default_timeout_counterexample :
  calculate 10 (button_host 10 10 (clock_of 6000)) None None
  = Some (Threw (ExceededTimeout 5000), [Console (ErrorTimeout 6000)])
  ∧ clock_of 6000 1 - clock_of 6000 0 ≤ 10000
  ∧ timeout_of default_options ≠ 10000.
Proof. split; [vm_compute; reflexivity|]. split; [vm_compute; discriminate|done]. Qed.

Lemma calculate_no_progress_below_ten_witness :
  ∃ m trace,
    onProgress progress_options = true
    ∧ (1 ≤ length (column_major_grid 50 10 10) < 10)%nat
    ∧ calculate_on (button_host 50 10 (clock_of 1)) 10 progress_options
        (column_major_grid 50 10 10)
      = (Returned m, trace)
    ∧ progress_calls trace = [].
Proof.
  assert (E : ∃ m trace,
             calculate_on (button_host 50 10 (clock_of 1)) 10 progress_options
               (column_major_grid 50 10 10)
             = (Returned m, trace))
    by (eexists _, _; vm_compute; reflexivity).
  destruct E as (m & trace & E). exists m, trace.
  assert (Hsmall : (1 ≤ length (column_major_grid 50 10 10) < 10)%nat)
    by (vm_compute; lia).
  split; [reflexivity|]. split; [exact Hsmall|]. split; [exact E|].
  exact (calculate_no_progress_below_ten (button_host 50 10 (clock_of 1)) 10
           progress_options (column_major_grid 50 10 10) m trace
           eq_refl Hsmall E).
Defined.

(** A grid of five points with a progress callback: no call. *)
Example calculate_progress_five_points :
  match calculate 100 (button_host 50 10 (clock_of 1)) (Some 10)
          (Some progress_options) with
  | Some (Returned _, trace) => progress_calls trace = []
  | _ => False
  end.
Proof. vm_compute. done. Qed.

(** A grid of twenty points: the ten calls at 0%, 10%, ..., 90%. *)
Example calculate_progress_twenty_points :
  match calculate 100 (button_host 100 20 (clock_of 1)) (Some 10)
          (Some progress_options) with
  | Some (Returned _, trace) =>
      map (fun ev => match ev with
                     | ProgressCall _ current _ => Some current
                     | Console _ => None
                     end) (progress_calls trace)
      = map Some [0; 2; 4; 6; 8; 10; 12; 14; 16; 18]%nat
  | _ => False
  end.
Proof. vm_compute. done. Qed.

(* ===================================================================== *)
(** * Properties of the classifier *)
(* ===================================================================== *)

Lemma bool_decide_elem_of_4 {A : Type} `{EqDecision A} (t a b c d : A) :
  bool_decide (t = a) || bool_decide (t = b) || bool_decide (t = c)
  || bool_decide (t = d)
  = bool_decide (t ∈ [a; b; c; d]).
Proof.
  apply eq_true_iff_eq.
  rewrite !orb_true_iff, !bool_decide_eq_true, !elem_of_cons, elem_of_nil.
  tauto.
Qed.

(** The implicit role the code derives is the one the specification lists. *)
Lemma getImplicitRole_spec (element : Node) :
  getImplicitRole element = implicit_role_spec element.
Proof.
  unfold getImplicitRole, implicit_role_spec.
  destruct (decide (toLowerCase (tagName element) = "button")) as [E|E].
  { by rewrite bool_decide_eq_true_2. }
  rewrite (bool_decide_eq_false_2 _ E).
  destruct (decide (toLowerCase (tagName element) = "input")) as [E'|E'].
  - rewrite (bool_decide_eq_true_2 _ E'), bool_decide_elem_of_4. simpl.
    destruct (bool_decide (_ ∈ _)); [done|].
    rewrite E'. reflexivity.
  - rewrite (bool_decide_eq_false_2 _ E'). simpl.
    destruct (hasAttribute element "href"); rewrite ?andb_true_r, ?andb_false_r;
      [|done].
    assert (Hin : bool_decide (toLowerCase (tagName element) ∈ ["a"; "area"])
                  = bool_decide (toLowerCase (tagName element) = "a")
                    || bool_decide (toLowerCase (tagName element) = "area")).
    { apply eq_true_iff_eq.
      rewrite orb_true_iff, !bool_decide_eq_true, !elem_of_cons, elem_of_nil.
      tauto. }
    rewrite Hin. by repeat case_bool_decide.
Qed.

Lemma string_or_effective_role (element : Node) :
  string_or (getAttribute element "role") (getImplicitRole element)
  = effective_role_nonempty element.
Proof.
  unfold string_or, effective_role_nonempty. rewrite getImplicitRole_spec.
  destruct (getAttribute element "role") as [role|]; [|done].
  by destruct (decide (role = EmptyString)).
Qed.

Lemma isInteractive_element (element : Node) :
  nodeKind element = ElementNode →
  isInteractive (Some element)
  = interactive_role (effective_role_nonempty element)
    && bool_decide (computedPointerEvents element ≠ "none").
Proof.
  intros Hkind. unfold isInteractive, instanceof_Element, interactive_role.
  rewrite (bool_decide_eq_true_2 _ Hkind). simpl.
  rewrite string_or_effective_role.
  destruct (effective_role_nonempty element) as [role|];
    repeat case_bool_decide; repeat case_decide; simpl; congruence.
Qed.

(** A button element whose role attribute is the empty string is
    interactive, while its role attribute
    is present and is neither "button" nor "link". *)
Lemma isInteractive_empty_role_counterexample :
  nodeKind empty_role_button = ElementNode
  ∧ getAttribute empty_role_button "role" = Some EmptyString
  ∧ isInteractive (Some empty_role_button) = true
  ∧ isInteractive_spec empty_role_button = false.
Proof. repeat split. Qed.

(** C5. The classifier: an element node is interactive iff its effective
    role is "button" or "link" and its computed [pointer-events] is not
    "none", the effective role being the role attribute when it is present
    and not empty, and else the implicit role (button; input of type
    button, submit, reset or image; a or area with an href).  An element of
    role "button" with [pointer-events: none] is not interactive, and
    neither is a node that is not an element, nor [null]. *)
Theorem isInteractive_iff (node : Node) :
  (nodeKind node = ElementNode →
     (isInteractive (Some node) = true
      ↔ (effective_role_nonempty node = Some "button"
         ∨ effective_role_nonempty node = Some "link")
        ∧ computedPointerEvents node ≠ "none"))
  ∧ (nodeKind node = ElementNode → getAttribute node "role" = Some "button" →
     computedPointerEvents node = "none" → isInteractive (Some node) = false)
  ∧ (nodeKind node ≠ ElementNode → isInteractive (Some node) = false)
  ∧ isInteractive None = false.
Proof.
  split; [|split; [|split; [|done]]].
  - intros Hkind. rewrite isInteractive_element by done.
    unfold interactive_role.
    rewrite andb_true_iff, orb_true_iff, !bool_decide_eq_true. tauto.
  - intros Hkind Hrole Hpe. rewrite isInteractive_element by done.
    rewrite (bool_decide_eq_false_2 (computedPointerEvents node ≠ "none")),
      andb_false_r; [done|].
    by intros [].
  - intros Hkind. unfold isInteractive, instanceof_Element.
    by rewrite (bool_decide_eq_false_2 _ Hkind).
Qed.

Lemma isInteractive_iff_witness :
  nodeKind inner_button = ElementNode
  ∧ (isInteractive (Some inner_button) = true
     ↔ (effective_role_nonempty inner_button = Some "button"
        ∨ effective_role_nonempty inner_button = Some "link")
       ∧ computedPointerEvents inner_button ≠ "none").
Proof.
  split; [reflexivity|].
  exact (proj1 (isInteractive_iff inner_button) eq_refl).
Defined.

(** ** The ancestor search *)

Lemma ancestor_walk_eq (document : Document) (current : Node) :
  ancestor_walk document current
  = if bool_decide (nodeId current ≠ documentElement document)
       && bool_decide (nodeId current ≠ documentNode document)
    then
      if isInteractive (Some current) then Some current
      else match parentElement current with
           | Some parent => ancestor_walk document parent
           | None => None
           end
    else None.
Proof. by destruct current. Qed.

Lemma chain_to_root_eq (document : Document) (node : Node) :
  chain_to_root document node
  = if bool_decide (nodeId node = documentElement document)
       || bool_decide (nodeId node = documentNode document)
    then []
    else node :: match parentElement node with
                 | Some parent => chain_to_root document parent
                 | None => []
                 end.
Proof. by destruct node. Qed.

(** The loop returns the first interactive node of the chain below the
    document root. *)
Lemma ancestor_walk_spec (document : Document) (node : Node) :
  ancestor_walk document node = findInteractiveAncestor_spec document node.
Proof.
  unfold findInteractiveAncestor_spec.
  induction node as [n Hparent|n parent Hparent IH] using Node_chain_ind;
    rewrite ancestor_walk_eq, chain_to_root_eq, Hparent;
    destruct (decide (nodeId n = documentElement document)) as [E1|E1];
    destruct (decide (nodeId n = documentNode document)) as [E2|E2];
    rewrite ?(bool_decide_eq_true_2 _ E1), ?(bool_decide_eq_false_2 _ E1),
      ?(bool_decide_eq_true_2 _ E2), ?(bool_decide_eq_false_2 _ E2);
    rewrite ?(bool_decide_eq_false_2 (nodeId n ≠ _)) by auto;
    rewrite ?(bool_decide_eq_true_2 (nodeId n ≠ _)) by auto;
    rewrite ?andb_false_r; simpl; try done;
    rewrite ?IH; reflexivity.
Qed.

(** A text node inside a button: the first interactive node of its chain is
    the button, and the search returns nothing. *)
Lemma findInteractiveAncestor_text_counterexample :
  findInteractiveAncestor example_document (Some button_label) = None
  ∧ findInteractiveAncestor_spec example_document button_label = Some save_button.
Proof. split; reflexivity. Qed.

(** C4. Nearest interactive ancestor.  From an element node the search
    walks the chain of parents, the node itself first, up to the document
    root element, and returns the first node of it for which
    [isInteractive] holds, and nothing when there is none; the root itself
    closes the walk and is never returned.  From a node that is not an
    element, and from [null], it returns nothing.  In particular, from an
    element below the root that is not interactive and whose parent, below
    the root too, and grandparent are both interactive it returns the
    parent; and from an element with no interactive node on its chain it
    returns nothing. *)
Theorem findInteractiveAncestor_nearest (document : Document) (node : Node) :
  (nodeKind node = ElementNode →
     findInteractiveAncestor document (Some node)
     = findInteractiveAncestor_spec document node)
  ∧ (nodeKind node ≠ ElementNode →
     findInteractiveAncestor document (Some node) = None)
  ∧ findInteractiveAncestor document None = None
  ∧ (∀ parent grandparent,
       nodeKind node = ElementNode →
       parentElement node = Some parent →
       parentElement parent = Some grandparent →
       nodeId node ≠ documentElement document →
       nodeId node ≠ documentNode document →
       nodeId parent ≠ documentElement document →
       nodeId parent ≠ documentNode document →
       isInteractive (Some node) = false →
       isInteractive (Some parent) = true →
       isInteractive (Some grandparent) = true →
       findInteractiveAncestor document (Some node) = Some parent)
  ∧ (nodeKind node = ElementNode →
     Forall (fun n => isInteractive (Some n) = false) (chain_to_root document node) →
     findInteractiveAncestor document (Some node) = None).
Proof.
  assert (Helem : nodeKind node = ElementNode →
                  findInteractiveAncestor document (Some node)
                  = findInteractiveAncestor_spec document node).
  { intros Hkind. unfold findInteractiveAncestor, instanceof_Element.
    rewrite (bool_decide_eq_true_2 _ Hkind). simpl. apply ancestor_walk_spec. }
  split; [done|]. split; [|split; [done|split]].
  - intros Hkind. unfold findInteractiveAncestor, instanceof_Element.
    by rewrite (bool_decide_eq_false_2 _ Hkind).
  - intros parent grandparent Hkind Hp Hg ? ? ? ? Hn Hpi Hgi.
    rewrite Helem by done. unfold findInteractiveAncestor_spec.
    rewrite chain_to_root_eq, Hp, (chain_to_root_eq document parent).
    rewrite !bool_decide_eq_false_2 by done. cbn [orb List.find].
    by rewrite Hn, Hpi.
  - intros Hkind Hnone. rewrite Helem by done. unfold findInteractiveAncestor_spec.
    induction Hnone as [|n l Hn _ IH]; cbn [List.find]; [done|]. by rewrite Hn.
Qed.

Lemma findInteractiveAncestor_nearest_witness :
  findInteractiveAncestor example_document (Some icon) = Some inner_button
  ∧ findInteractiveAncestor example_document (Some body_node) = None.
Proof.
  split.
  - exact (proj1 (proj2 (proj2 (proj2
             (findInteractiveAncestor_nearest example_document icon))))
             inner_button outer_link eq_refl eq_refl eq_refl
             ltac:(discriminate) ltac:(discriminate)
             ltac:(discriminate) ltac:(discriminate)
             eq_refl eq_refl eq_refl).
  - apply (proj2 (proj2 (proj2 (proj2
             (findInteractiveAncestor_nearest example_document body_node)))));
      [reflexivity|].
    repeat constructor.
Defined.

(* ===================================================================== *)
(** * Properties of the mutation filter *)
(* ===================================================================== *)

Lemma truthy_spec (s : string) : truthy s = true ↔ s ≠ EmptyString.
Proof. unfold truthy. apply bool_decide_eq_true. Qed.

Lemma style_test_spec (style : InlineStyle) :
  truthy (style_pointerEvents style) || truthy (style_position style)
  || truthy (style_display style) || truthy (style_visibility style)
  || truthy (style_transform style) || truthy (style_left style)
  || truthy (style_top style) || truthy (style_right style)
  || truthy (style_bottom style) = true
  ↔ has_layout_style style.
Proof.
  unfold has_layout_style. rewrite !orb_true_iff, !truthy_spec. tauto.
Qed.

(** The filter on a record that is not an attribute record for [style]:
    the first test is passed over and the three that follow decide. *)
Lemma isRelevantMutation_not_style (mutation : MutationRecord) :
  ¬ style_record mutation →
  (structural_or_class_or_role mutation → isRelevantMutation mutation = Some true)
  ∧ (¬ structural_or_class_or_role mutation →
     isRelevantMutation mutation = Some false).
Proof.
  unfold style_record, structural_or_class_or_role, isRelevantMutation.
  intros Hstyle.
  destruct (bool_decide (type mutation = "attributes")) eqn:Ha;
    [apply bool_decide_eq_true in Ha|apply bool_decide_eq_false in Ha];
    cbn [andb].
  - destruct (bool_decide (attributeName mutation = Some "style")) eqn:Hs;
      [apply bool_decide_eq_true in Hs; by destruct Hstyle|].
    apply bool_decide_eq_false in Hs.
    repeat (case_bool_decide; cbn [andb]); split; try done;
      try (intros Hno; destruct Hno; by auto);
      intros [?|(_ & [?|?])]; congruence.
  - case_bool_decide; split; try done.
    + intros Hno. destruct Hno. by left.
    + intros [?|[? _]]; done.
Qed.

Lemma style_record_cases (mutation : MutationRecord) :
  style_record mutation ∨ ¬ style_record mutation.
Proof.
  unfold style_record.
  destruct (decide (type mutation = "attributes")),
    (decide (attributeName mutation = Some "style")); tauto.
Qed.

Lemma structural_or_class_or_role_cases (mutation : MutationRecord) :
  structural_or_class_or_role mutation ∨ ¬ structural_or_class_or_role mutation.
Proof.
  unfold structural_or_class_or_role.
  destruct (decide (type mutation = "childList")),
    (decide (type mutation = "attributes")),
    (decide (attributeName mutation = Some "class")),
    (decide (attributeName mutation = Some "role")); tauto.
Qed.

Lemma structural_not_style (mutation : MutationRecord) :
  structural_or_class_or_role mutation → ¬ style_record mutation.
Proof.
  unfold structural_or_class_or_role, style_record.
  intros [Hc|(_ & [Hn|Hn])] [Ha Hs]; congruence.
Qed.

Lemma isRelevantMutation_structural (mutation : MutationRecord) :
  structural_or_class_or_role mutation → isRelevantMutation mutation = Some true.
Proof.
  intros Hkind.
  by apply (isRelevantMutation_not_style mutation (structural_not_style _ Hkind)).
Qed.

(** The filter on an attribute record for [style]: the current inline
    style of the target decides, and a target that has none makes it
    throw. *)
Lemma isRelevantMutation_style (mutation : MutationRecord) :
  style_record mutation →
  isRelevantMutation mutation
  = match target_style mutation with
    | Some style =>
        Some (truthy (style_pointerEvents style) || truthy (style_position style)
              || truthy (style_display style) || truthy (style_visibility style)
              || truthy (style_transform style) || truthy (style_left style)
              || truthy (style_top style) || truthy (style_right style)
              || truthy (style_bottom style))
    | None => None
    end.
Proof.
  intros [Ha Hs]. unfold isRelevantMutation. rewrite Ha, Hs.
  rewrite !bool_decide_eq_true_2 by done. cbn [andb].
  destruct (target_style mutation) as [style|]; [|done].
  by destruct (_ || _).
Qed.

(** [some] reaches a relevant record when no test before it throws. *)
Lemma some_isRelevantMutation_reached (before after : list MutationRecord)
    (mutation : MutationRecord) :
  Forall (fun r => isRelevantMutation r ≠ None) before →
  isRelevantMutation mutation = Some true →
  some_isRelevantMutation (before ++ mutation :: after) = Some true.
Proof.
  intros Hbefore Hrel. induction Hbefore as [|r l Hr _ IH]; simpl.
  - by rewrite Hrel.
  - by destruct (isRelevantMutation r) as [[|]|].
Qed.

Lemma some_isRelevantMutation_none (mutations : list MutationRecord) :
  Forall (fun r => isRelevantMutation r = Some false) mutations →
  some_isRelevantMutation mutations = Some false.
Proof.
  intros Hall. induction Hall as [|r l Hr _ IH]; simpl; [done|]. by rewrite Hr.
Qed.

(** A record that adds one text node and changes nothing else is relevant,
    and the observer's callback arms the debounce timer for it. *)
Lemma isRelevantMutation_text_node_counterexample :
  adds_only_text text_node_added
  ∧ isRelevantMutation text_node_added = Some true
  ∧ option_map mutationDebounceTimer
      (mutation_callback [text_node_added] idle_state)
    = Some (Some 300).
Proof.
  split; [|split; reflexivity].
  repeat split; try done. by repeat constructor.
Qed.

(** C9. The mutation relevance filter, by the kind of the record.  A
    [childList] record is relevant whatever nodes it adds or removes, so a
    record whose only change is the addition of text nodes is relevant; an
    [attributes] record for [class] or for [role] is relevant.  Only these
    and [attributes] records for [style] can be relevant: a record of any
    other kind, a [characterData] record included, is not.  The observer's
    callback arms the 300 ms debounce timer for a batch that holds a
    [childList], [class] or [role] record when the filter throws on no
    record before it, and leaves the timer as it is for a batch of records
    of other kinds than these and [style].  What the filter makes of a
    [style] record is left out here. *)
Theorem isRelevantMutation_by_kind (mutation : MutationRecord) :
  (structural_or_class_or_role mutation → isRelevantMutation mutation = Some true)
  ∧ (adds_only_text mutation → isRelevantMutation mutation = Some true)
  ∧ (isRelevantMutation mutation = Some true →
     structural_or_class_or_role mutation ∨ style_record mutation)
  ∧ (¬ structural_or_class_or_role mutation → ¬ style_record mutation →
     isRelevantMutation mutation = Some false)
  ∧ (type mutation = "characterData" → isRelevantMutation mutation = Some false)
  ∧ (structural_or_class_or_role mutation →
     ∀ (before after : list MutationRecord) (st : ContentState nat),
       Forall (fun r => isRelevantMutation r ≠ None) before →
       mutation_callback (before ++ mutation :: after) st
       = Some (handleMutation st)
       ∧ mutationDebounceTimer (handleMutation st) = Some 300)
  ∧ (∀ (mutations : list MutationRecord) (st : ContentState nat),
       Forall (fun r => ¬ structural_or_class_or_role r ∧ ¬ style_record r)
         mutations →
       mutation_callback mutations st = Some st).
Proof.
  split; [apply isRelevantMutation_structural|].
  split; [intros (Htype & _); apply isRelevantMutation_structural; by left|].
  split; [|split; [|split; [|split]]].
  - intros Hrel.
    destruct (style_record_cases mutation) as [Hs|Hs]; [by right|]. left.
    destruct (structural_or_class_or_role_cases mutation) as [Hk|Hk]; [done|].
    rewrite (proj2 (isRelevantMutation_not_style mutation Hs) Hk) in Hrel.
    done.
  - intros Hk Hs. by apply (isRelevantMutation_not_style mutation Hs).
  - intros Htype.
    apply (isRelevantMutation_not_style mutation).
    + intros [Ha _]. congruence.
    + intros [Hc|[Ha _]]; congruence.
  - intros Hkind before after st Hbefore. split; [|done].
    unfold mutation_callback.
    by rewrite (some_isRelevantMutation_reached before after mutation Hbefore
                  (isRelevantMutation_structural _ Hkind)).
  - intros mutations st Hall. unfold mutation_callback.
    rewrite some_isRelevantMutation_none; [done|].
    eapply Forall_impl; [exact Hall|]. intros r [Hk Hs].
    by apply (isRelevantMutation_not_style r Hs).
Qed.

Lemma isRelevantMutation_by_kind_witness :
  adds_only_text text_node_added
  ∧ isRelevantMutation text_node_added = Some true
  ∧ mutation_callback [text_node_added] idle_state
    = Some (handleMutation idle_state).
Proof.
  assert (Htext : adds_only_text text_node_added).
  { repeat split; try done. by repeat constructor. }
  assert (Hkind : structural_or_class_or_role text_node_added) by by left.
  destruct (isRelevantMutation_by_kind text_node_added)
    as (_ & Hrel & _ & _ & _ & Harm & _).
  split; [exact Htext|]. split; [exact (Hrel Htext)|].
  exact (proj1 (Harm Hkind [] [] idle_state (Forall_nil_2 _))).
Defined.

(* ===================================================================== *)
(** * Further properties of the coordinate utilities *)
(* ===================================================================== *)

Lemma strict_equals_iff (a b : JsValue) :
  strict_equals a b = true ↔ a = b ∧ a ≠ JNaN.
Proof.
  destruct a as [| |s|m], b as [| |t|n]; simpl;
    try (split; [done|by intros [? ?]]).
  - rewrite Bool.eqb_true_iff. split; [by intros ->|by intros [[= ->] _]].
  - rewrite Z.eqb_eq. split; [by intros ->|by intros [[= ->] _]].
Qed.

(** X1. [coordEquals] is equality of the two components under [===]: it
    holds exactly when the coordinates are the same pair and no component is
    [NaN]; a coordinate with a [NaN] component is not equal to itself. *)
Theorem coordEquals_iff (coord1 coord2 : Coordinate) :
  coordEquals coord1 coord2 = true
  ↔ coord1 = coord2 ∧ x coord1 ≠ JNaN ∧ y coord1 ≠ JNaN.
Proof.
  unfold coordEquals. rewrite andb_true_iff, !strict_equals_iff.
  destruct coord1 as [x1 y1], coord2 as [x2 y2]; simpl. split.
  - by intros [[-> ?] [-> ?]].
  - by intros [[= -> ->] [? ?]].
Qed.

(** X2. On valid coordinates [coordEquals] and equality of the keys agree:
    two valid coordinates are equal exactly when [coordToKey] gives them the
    same key, so the map never confuses two sampled points. *)
Theorem coordEquals_coordToKey (coord1 coord2 : Coordinate) :
  isValidCoordinate (Some coord1) = true →
  isValidCoordinate (Some coord2) = true →
  (coordEquals coord1 coord2 = true ↔ coordToKey coord1 = coordToKey coord2).
Proof.
  intros H1 H2.
  destruct (isValidCoordinate_defined _ H1) as [? ?].
  destruct (isValidCoordinate_defined _ H2) as [? ?].
  apply isValidCoordinate_finite in H1 as (m1 & n1 & ->).
  unfold coordEquals. rewrite andb_true_iff, !strict_equals_iff. split.
  - intros [[Ex _] [Ey _]]. simpl in Ex, Ey. destruct coord2; simpl in *.
    by subst.
  - intros E%coordToKey_inj; try done. by subst.
Qed.

Lemma coordEquals_coordToKey_witness :
  coordEquals {| x := JInt 3; y := JInt 4 |} {| x := JInt 3; y := JInt 4 |} = true
  ↔ coordToKey {| x := JInt 3; y := JInt 4 |} = coordToKey {| x := JInt 3; y := JInt 4 |}.
Proof.
  exact (coordEquals_coordToKey {| x := JInt 3; y := JInt 4 |}
           {| x := JInt 3; y := JInt 4 |} eq_refl eq_refl).
Defined.

Lemma Number_defined (s : string) : Number s ≠ JUndefined.
Proof.
  unfold Number. repeat case_decide; try done.
  destruct s as [|c s]; [done|].
  destruct (Ascii.eqb c "-"); [by destruct (digits_value s)|].
  destruct (Ascii.eqb c "+"); [by destruct (digits_value s)|].
  by destruct (digits_value (String c s)).
Qed.

Lemma split_comma_second (key : string) :
  comma_free key = false → ∃ p q rest, split_comma key = p :: q :: rest.
Proof.
  induction key as [|c key IH]; simpl; [done|].
  destruct (Ascii.eqb c ","%char); simpl.
  - intros _. destruct (split_comma key) as [|q rest] eqn:E.
    + by apply split_comma_nonempty in E.
    + eauto.
  - intros (p & q & rest & ->)%IH. eauto.
Qed.

(** On the strings on which it is exact, [Number] gives [NaN], an
    infinity, or an integer that a double holds. *)
Lemma Number_exact_literal (s : string) :
  exact_literal s = true → safe_number (Number s).
Proof.
  unfold exact_literal, safe_number. intros Hs.
  apply orb_true_iff in Hs as [Hs|Hs].
  { apply bool_decide_eq_true in Hs.
    repeat (apply elem_of_cons in Hs as [->|Hs]; [by vm_compute|]).
    by apply elem_of_nil in Hs. }
  assert (Hdigits : ∀ d n, digits_value d = Some n → 0 ≤ n).
  { intros d n. unfold digits_value.
    destruct (NilZero.uint_of_string d) as [u|]; simpl; [|done].
    intros [= <-]. unfold Z.of_uint. apply N2Z.is_nonneg. }
  unfold Number. repeat case_decide; try done.
  destruct s as [|c s']; [done|].
  destruct (Ascii.eqb c "-").
  - destruct (digits_value s') as [n|] eqn:Hn; [|done].
    apply Hdigits in Hn. apply andb_true_iff in Hs as [_ Hs].
    apply Z.leb_le in Hs. lia.
  - destruct (Ascii.eqb c "+").
    + destruct (digits_value s') as [n|] eqn:Hn; [|done].
      apply Hdigits in Hn. apply Z.leb_le in Hs. lia.
    + destruct (digits_value (String c s')) as [n|] eqn:Hn; [|done].
      apply Hdigits in Hn. apply Z.leb_le in Hs. lia.
Qed.

(** X3. Decoding a key that need not come from the encoder: a string with
    any number of commas whose first two pieces are integers of at most
    [2^53] in decimal digits, with or without a sign or leading zeros, a
    signed [Infinity], [NaN], [undefined] or empty.  [keyToCoord] does not
    fail on it; its [x] is [NaN], an infinity or an integer of at most
    [2^53]; its [y] is [undefined] exactly when the key has no comma, in
    which case the result is not a valid coordinate, and is such a number
    too when the key has one.  For a key with a comma the result is stable:
    encoding it and decoding again gives the same coordinate. *)
Theorem keyToCoord_any_key (key : string) :
  exact_key key = true →
  safe_number (x (keyToCoord key))
  ∧ (y (keyToCoord key) = JUndefined ↔ comma_free key = true)
  ∧ (comma_free key = true → isValidCoordinate (Some (keyToCoord key)) = false)
  ∧ (comma_free key = false →
     safe_number (y (keyToCoord key))
     ∧ keyToCoord (coordToKey (keyToCoord key)) = keyToCoord key).
Proof.
  intros Hexact. unfold exact_key in Hexact.
  assert (Hx : safe_number (x (keyToCoord key))).
  { unfold keyToCoord. simpl. destruct (split_comma key) as [|p ps] eqn:E.
    - by apply split_comma_nonempty in E.
    - simpl in *. apply andb_true_iff in Hexact as [Hp _].
      by apply Number_exact_literal. }
  assert (Hy : y (keyToCoord key) = JUndefined ↔ comma_free key = true).
  { unfold keyToCoord. simpl. destruct (comma_free key) eqn:Hfree.
    - by rewrite split_comma_free.
    - destruct (split_comma_second key Hfree) as (p & q & rest & ->). simpl.
      split; [|done]. intros E. by apply Number_defined in E. }
  split; [done|]. split; [done|]. split.
  - intros Hfree. apply Hy in Hfree. unfold isValidCoordinate. rewrite Hfree.
    simpl. by rewrite andb_false_r.
  - intros Hfree. split.
    + unfold keyToCoord. simpl.
      destruct (split_comma_second key Hfree) as (p & q & rest & E).
      rewrite E in *. simpl in *.
      apply andb_true_iff in Hexact as [_ Hq].
      apply andb_true_iff in Hq as [Hq _]. by apply Number_exact_literal.
    + apply keyToCoord_coordToKey.
      * intros E. by rewrite E in Hx.
      * rewrite Hy, Hfree. done.
Qed.

Lemma keyToCoord_any_key_witness :
  exact_key "12" = true
  ∧ isValidCoordinate (Some (keyToCoord "12")) = false
  ∧ exact_key "007,-5,zz" = true
  ∧ keyToCoord (coordToKey (keyToCoord "007,-5,zz")) = keyToCoord "007,-5,zz".
Proof.
  split; [reflexivity|]. split.
  - exact (proj1 (proj2 (proj2 (keyToCoord_any_key "12" eq_refl))) eq_refl).
  - split; [reflexivity|].
    exact (proj2 (proj2 (proj2 (proj2 (keyToCoord_any_key "007,-5,zz" eq_refl)))
                   eq_refl)).
Defined.

(* ===================================================================== *)
(** * Further properties of the hit region map *)
(* ===================================================================== *)

Section MapInvariants.
Context {Elem : Type} `{Countable Elem}.
Implicit Types (m : HitRegionMap Elem) (e : Elem) (c : Coordinate).

Lemma length_set_add {A : Type} `{EqDecision A} (k : A) (s : list A) :
  (length (set_add k s) ≤ S (length s))%nat.
Proof. unfold set_add. case_decide; rewrite ?length_app; simpl; lia. Qed.

Lemma NoDup_set_add {A : Type} `{EqDecision A} (k : A) (s : list A) :
  NoDup s → NoDup (set_add k s).
Proof.
  intros Hs. unfold set_add. case_decide; [done|].
  apply NoDup_app. split; [done|]. split; [|apply NoDup_singleton].
  intros a Ha ->%list_elem_of_singleton. done.
Qed.

Lemma getCoordinateCount_coordinates_of m e :
  getCoordinateCount m e = length (coordinates_of m e).
Proof.
  unfold getCoordinateCount, coordinates_of.
  by destruct (elementToCoordinates m !! e).
Qed.

(** The set of elements a call leaves: the element joins it when it had no
    entry. *)
Lemma addCoordinate_elements m e c :
  elements (map_after (addCoordinate m (Some e) (Some c)))
  = match elementToCoordinates m !! e with
    | Some _ => elements m
    | None => set_add e (elements m)
    end.
Proof.
  unfold addCoordinate.
  destruct (elementToCoordinates m !! e) as [keys|]; simpl;
    by destruct (_ >=? _).
Qed.

Lemma addCoordinate_null m (oe : option Elem) (oc : option Coordinate) :
  oe = None ∨ oc = None → map_after (addCoordinate m oe oc) = m.
Proof. intros [-> | ->]; [done|by destruct oe]. Qed.

Lemma new_HitRegionMap_invariant (limit : option Z) :
  map_invariant (new_HitRegionMap (Elem := Elem) limit).
Proof.
  repeat split.
  - intros e. unfold coordinates_of. simpl. rewrite lookup_empty. simpl. lia.
  - by intros ?%elem_of_nil.
  - simpl. rewrite lookup_empty. by intros [? ?].
  - constructor.
  - intros e keys. simpl. by rewrite lookup_empty.
Qed.

Lemma addCoordinate_invariant m (oe : option Elem) (oc : option Coordinate) :
  map_invariant m →
  map_invariant (map_after (addCoordinate m oe oc))
  ∧ maxCoordinatesPerElement (map_after (addCoordinate m oe oc))
    = maxCoordinatesPerElement m.
Proof.
  intros (Hbound & Hels & Hnd & Hsets).
  destruct oe as [e|]; [|by rewrite addCoordinate_null by auto].
  destruct oc as [c|]; [|by rewrite addCoordinate_null by auto].
  pose proof (addCoordinate_elements m e c) as Helements.
  destruct (addCoordinate_cases m e c) as (Hmax & Hcase).
  split; [|done]. unfold map_invariant. rewrite Hmax, Helements.
  assert (Hof : ∀ keys e',
             elementToCoordinates (map_after (addCoordinate m (Some e) (Some c)))
             = <[e := keys]> (elementToCoordinates m) →
             coordinates_of (map_after (addCoordinate m (Some e) (Some c))) e'
             = if decide (e = e') then keys else coordinates_of m e').
  { intros keys e' He. unfold coordinates_of. rewrite He. case_decide as E.
    - subst. by rewrite lookup_insert_eq.
    - by rewrite lookup_insert_ne. }
  assert (Hentries : ∀ keys,
             elementToCoordinates (map_after (addCoordinate m (Some e) (Some c)))
             = <[e := keys]> (elementToCoordinates m) →
             (∀ e', e' ∈ match elementToCoordinates m !! e with
                         | Some _ => elements m
                         | None => set_add e (elements m)
                         end
                    ↔ is_Some (elementToCoordinates
                                 (map_after (addCoordinate m (Some e) (Some c))) !! e'))
             ∧ NoDup match elementToCoordinates m !! e with
                     | Some _ => elements m
                     | None => set_add e (elements m)
                     end).
  { intros keys ->. split.
    - intros e'. destruct (decide (e = e')) as [<-|Hne].
      + rewrite lookup_insert_eq.
        destruct (elementToCoordinates m !! e) eqn:E.
        * rewrite Hels, E. split; eauto.
        * rewrite elem_of_set_add. split; eauto.
      + rewrite lookup_insert_ne by done.
        destruct (elementToCoordinates m !! e) eqn:E; [apply Hels|].
        rewrite elem_of_set_add, Hels. split; [|auto]. intros [->|?]; done.
    - destruct (elementToCoordinates m !! e); [done|]. by apply NoDup_set_add. }
  assert (Hkeys : NoDup (coordinates_of m e)).
  { unfold coordinates_of. destruct (elementToCoordinates m !! e) eqn:E; simpl.
    - by eapply Hsets.
    - constructor. }
  destruct Hcase as [(Hfull & _ & _ & He)|(Hroom & _ & _ & _ & He)].
  - destruct (Hentries _ He) as [? ?]. repeat split; try done.
    + intros e'. rewrite (Hof _ _ He). case_decide; [subst|]; apply Hbound.
    + by apply H0.
    + by apply H0.
    + intros e' keys. rewrite He. destruct (decide (e = e')) as [<-|Hne].
      * rewrite lookup_insert_eq. by intros [= <-].
      * rewrite lookup_insert_ne by done. apply Hsets.
  - destruct (Hentries _ He) as [? ?]. repeat split; try done.
    + intros e'. rewrite (Hof _ _ He). case_decide; [|apply Hbound].
      pose proof (length_set_add (coordToKey c) (coordinates_of m e)). lia.
    + by apply H0.
    + by apply H0.
    + intros e' keys. rewrite He. destruct (decide (e = e')) as [<-|Hne].
      * rewrite lookup_insert_eq. intros [= <-]. by apply NoDup_set_add.
      * rewrite lookup_insert_ne by done. apply Hsets.
Qed.

Lemma addCoordinate_calls_invariant m
    (calls : list (option Elem * option Coordinate)) :
  map_invariant m →
  map_invariant (addCoordinate_calls m calls)
  ∧ maxCoordinatesPerElement (addCoordinate_calls m calls)
    = maxCoordinatesPerElement m.
Proof.
  revert m. induction calls as [|[oe oc] calls IH]; intros m Hm; simpl; [done|].
  destruct (addCoordinate_invariant m oe oc Hm) as [Hm' Hmax].
  destruct (IH _ Hm') as [? ?]. split; [done|congruence].
Qed.

Lemma HitRegionMap_eq m m' :
  elementToCoordinates m = elementToCoordinates m' →
  coordinateToElement m = coordinateToElement m' →
  elements m = elements m' →
  maxCoordinatesPerElement m = maxCoordinatesPerElement m' →
  m = m'.
Proof. destruct m, m'; simpl; by intros -> -> -> ->. Qed.

(** X4. The size cap holds after any run of calls: whatever elements and
    coordinates, [null] included, are passed to [addCoordinate] on a map
    from the constructor, no element ever holds more coordinates than the
    limit, which the calls never change and which is 10,000 unless the
    constructor is given another non-zero one. *)
Theorem addCoordinate_calls_within_limit (limit : option Z)
    (calls : list (option Elem * option Coordinate)) (e : Elem) :
  let m := addCoordinate_calls (new_HitRegionMap limit) calls in
  Z.of_nat (getCoordinateCount m e) ≤ Z.max 0 (maxCoordinatesPerElement m)
  ∧ maxCoordinatesPerElement m
    = match limit with
      | Some n => if n =? 0 then 10000 else n
      | None => 10000
      end.
Proof.
  intros m.
  destruct (addCoordinate_calls_invariant (new_HitRegionMap limit) calls
              (new_HitRegionMap_invariant limit)) as [(Hbound & _) Hmax].
  split; [|exact Hmax].
  rewrite getCoordinateCount_coordinates_of. apply Hbound.
Qed.

(** X5. The set of elements mirrors the entries: after any run of calls on
    a map from the constructor, [getElements] lists exactly the elements
    for which [hasElement] holds, each once, so the element count of
    [getStats] is the number of elements that have an entry; and
    [getCoordinates] of an element without an entry is empty. *)
Theorem getElements_hasElement (limit : option Z)
    (calls : list (option Elem * option Coordinate)) :
  let m := addCoordinate_calls (new_HitRegionMap limit) calls in
  (∀ e, e ∈ getElements m ↔ hasElement m e = true)
  ∧ NoDup (getElements m)
  ∧ (getStats m).1 = size (dom (elementToCoordinates m))
  ∧ (∀ e, hasElement m e = false → getCoordinates m (Some e) = []).
Proof.
  intros m.
  destruct (addCoordinate_calls_invariant (new_HitRegionMap limit) calls
              (new_HitRegionMap_invariant limit)) as [(_ & Hels & Hnd & _) _].
  fold m in Hels, Hnd.
  split; [|split; [done|split]].
  - intros e. unfold getElements, hasElement. rewrite Hels.
    symmetry. apply bool_decide_eq_true.
  - unfold getStats, getElements. simpl.
    rewrite <- (size_list_to_set (C := gset Elem) (elements m)) by done.
    f_equal. apply set_eq. intros e.
    by rewrite elem_of_list_to_set, Hels, elem_of_dom.
  - intros e Hno. unfold hasElement in Hno. apply bool_decide_eq_false in Hno.
    unfold getCoordinates.
    destruct (elementToCoordinates m !! e) eqn:E; [|done].
    exfalso. apply Hno. eauto.
Qed.

(** X6. A repeated insertion changes nothing: once [addCoordinate] has
    added a coordinate for an element, the same call again leaves the map as
    it is, whether it returns [true] or, the set being full by then,
    [false]. *)
Theorem addCoordinate_repeat m e c :
  added (addCoordinate m (Some e) (Some c)) = true →
  let m1 := map_after (addCoordinate m (Some e) (Some c)) in
  map_after (addCoordinate m1 (Some e) (Some c)) = m1
  ∧ getElement m1 (Some c) = Some e
  ∧ coordToKey c ∈ coordinates_of m1 e.
Proof.
  intros Hadded m1.
  pose proof (addCoordinate_elements m1 e c) as Hels.
  destruct (addCoordinate_cases m e c)
    as (_ & [(_ & Hf & _)|(_ & _ & _ & Hc1 & He1)]); [congruence|].
  fold m1 in Hc1, He1.
  assert (Hof : coordinates_of m1 e = set_add (coordToKey c) (coordinates_of m e)).
  { unfold coordinates_of at 1. by rewrite He1, lookup_insert_eq. }
  assert (Hin : coordToKey c ∈ coordinates_of m1 e).
  { rewrite Hof. apply elem_of_set_add. by left. }
  split; [|split; [|done]].
  - rewrite He1, lookup_insert_eq in Hels.
    destruct (addCoordinate_cases m1 e c)
      as (Hmax & [(_ & _ & Hc2 & He2)|(_ & _ & _ & Hc2 & He2)]);
      apply HitRegionMap_eq; try done.
    + by rewrite He2, Hof, He1, insert_insert_eq.
    + rewrite He2, He1, insert_insert_eq. f_equal.
      unfold set_add at 1. by rewrite decide_True.
    + by rewrite Hc2, Hc1, insert_insert_eq.
  - unfold getElement. by rewrite Hc1, lookup_insert_eq.
Qed.

End MapInvariants.

Lemma addCoordinate_repeat_witness :
  let m := new_HitRegionMap (Elem := nat) None in
  let c := {| x := JInt 5; y := JInt 7 |} in
  let m1 := map_after (addCoordinate m (Some 1%nat) (Some c)) in
  map_after (addCoordinate m1 (Some 1%nat) (Some c)) = m1
  ∧ getElement m1 (Some c) = Some 1%nat
  ∧ coordToKey c ∈ coordinates_of m1 1%nat.
Proof.
  exact (addCoordinate_repeat (new_HitRegionMap None) 1%nat
           {| x := JInt 5; y := JInt 7 |} eq_refl).
Defined.

(* ===================================================================== *)
(** * What a completed pass stores *)
(* ===================================================================== *)

Section PassContents.
Context {Elem : Type} `{Countable Elem}.
Implicit Types (host : Host Elem) (options : Options) (m : HitRegionMap Elem).

Lemma sample_round_resolved host options total i coord m :
  (sample_round host options total i coord m).1
  = map_after (addCoordinate m (resolved host i coord) (Some coord)).
Proof.
  unfold sample_round, resolved.
  destruct (sampleCoordinate host i (x coord) (y coord)) as [[e|] sampled]; simpl;
    [|done].
  by destruct (documentContains host i e).
Qed.

Lemma resolved_points_app host (i : nat) (l1 l2 : list Coordinate) (e : Elem) :
  resolved_points host i (l1 ++ l2) e
  = resolved_points host i l1 e
    ++ resolved_points host (i + length l1) l2 e.
Proof.
  revert i. induction l1 as [|c l1 IH]; intros i; simpl.
  - by rewrite Nat.add_0_r.
  - rewrite IH. replace (S i + length l1)%nat with (i + S (length l1))%nat by lia.
    by case_decide.
Qed.

Lemma resolved_points_subseteq host (i : nat) (l : list Coordinate) (e : Elem) :
  resolved_points host i l e ⊆ l.
Proof.
  revert i. induction l as [|c l IH]; intros i; simpl; [done|].
  case_decide.
  - intros a [->|Ha]%elem_of_cons; [left|right; by apply (IH (S i))].
  - intros a Ha. right. by apply (IH (S i)).
Qed.

Lemma coordinates_of_getCoordinates m (e : Elem) :
  getCoordinates m (Some e) = map keyToCoord (coordinates_of m e).
Proof.
  unfold getCoordinates, coordinates_of.
  by destruct (elementToCoordinates m !! e).
Qed.

Lemma map_keyToCoord_coordToKey (l : list Coordinate) :
  Forall (fun c => isValidCoordinate (Some c) = true) l →
  map keyToCoord (map coordToKey l) = l.
Proof.
  induction 1 as [|c l Hc _ IH]; simpl; [done|].
  destruct (isValidCoordinate_defined c Hc) as [? ?].
  by rewrite keyToCoord_coordToKey, IH.
Qed.

Lemma addCoordinate_loop_invariant host (limit : nat)
    (sampled : list Coordinate) (coord : Coordinate) m :
  (0 < limit)%nat →
  coordToKey coord ∉ map coordToKey sampled →
  loop_invariant host limit sampled m →
  loop_invariant host limit (sampled ++ [coord])
    (map_after (addCoordinate m (resolved host (length sampled) coord) (Some coord))).
Proof.
  intros Hpos Hfresh (Hmax & Hsets & Hkeys & Hsize & Hels).
  assert (Hstep : ∀ e, resolved_points host 0 (sampled ++ [coord]) e
                       = resolved_points host 0 sampled e
                         ++ (if decide (resolved host (length sampled) coord = Some e)
                             then [coord] else [])).
  { intros e. rewrite resolved_points_app. simpl. by case_decide. }
  assert (Hsub : ∀ key, key ∈ map coordToKey sampled →
                        key ∈ map coordToKey (sampled ++ [coord])).
  { intros key Hin. rewrite map_app. apply elem_of_app. by left. }
  assert (Hlen : length (sampled ++ [coord]) = S (length sampled))
    by (rewrite length_app; simpl; lia).
  destruct (resolved host (length sampled) coord) as [e0|] eqn:Hres.
  2:{ simpl. repeat split; try done.
      - intros e. rewrite Hsets, Hstep. rewrite decide_False by done.
        by rewrite app_nil_r.
      - intros key Hk. by apply Hsub, Hkeys.
      - lia. }
  pose proof (addCoordinate_elements m e0 coord) as Helements.
  destruct (addCoordinate_cases m e0 coord) as (Hmax' & Hcase).
  assert (Hnone : coordinateToElement m !! coordToKey coord = None).
  { destruct (coordinateToElement m !! coordToKey coord) eqn:E; [|done].
    exfalso. apply Hfresh, Hkeys. by rewrite E. }
  assert (Hof : ∀ keys e,
             elementToCoordinates
               (map_after (addCoordinate m (Some e0) (Some coord)))
             = <[e0 := keys]> (elementToCoordinates m) →
             coordinates_of (map_after (addCoordinate m (Some e0) (Some coord))) e
             = if decide (e0 = e) then keys else coordinates_of m e).
  { intros keys e He. unfold coordinates_of. rewrite He. case_decide as E.
    - subst. by rewrite lookup_insert_eq.
    - by rewrite lookup_insert_ne. }
  assert (Hother : ∀ e, e0 ≠ e →
             take limit (resolved_points host 0 (sampled ++ [coord]) e)
             = take limit (resolved_points host 0 sampled e)).
  { intros e Hne. rewrite Hstep, decide_False; [by rewrite app_nil_r|].
    by intros [= ?]. }
  pose proof (Hsets e0) as Hcs.
  assert (Hcslen : length (coordinates_of m e0)
                   = (length (resolved_points host 0 sampled e0) `min` limit)%nat).
  { rewrite Hcs, length_map, length_take. lia. }
  unfold loop_invariant. rewrite Hmax'.
  destruct Hcase as [(Hfull & _ & Hc & He)|(Hroom & _ & _ & Hc & He)].
  - (* the set is full: the point is dropped *)
    rewrite Hc. split; [done|]. split; [|split; [|split]].
    + intros e. rewrite (Hof _ _ He). case_decide as E; [subst e|].
      * rewrite Hcs, Hstep, decide_True by done.
        rewrite take_app_le by lia. done.
      * by rewrite Hsets, Hother.
    + intros key Hk. by apply Hsub, Hkeys.
    + lia.
    + rewrite Helements.
      destruct (elementToCoordinates m !! e0) eqn:E; [done|].
      exfalso. unfold coordinates_of in Hcslen, Hfull. rewrite E in Hfull.
      simpl in Hfull. lia.
  - (* there is room: the point is added at the end *)
    rewrite Hc. split; [done|]. split; [|split; [|split]].
    + intros e. rewrite (Hof _ _ He). case_decide as E; [subst e|].
      * assert (Hnotin : coordToKey coord ∉ coordinates_of m e0).
        { rewrite Hcs. intros (c' & Hk & Hin)%list_elem_of_fmap.
          apply Hfresh. apply list_elem_of_fmap. exists c'. split; [done|].
          apply (resolved_points_subseteq host 0 sampled e0).
          by eapply subseteq_take. }
        unfold set_add. rewrite decide_False by done.
        rewrite Hcs, Hstep, decide_True by done.
        rewrite take_ge by lia.
        rewrite take_ge by (rewrite length_app; simpl; lia).
        by rewrite map_app.
      * by rewrite Hsets, Hother.
    + intros key. destruct (decide (coordToKey coord = key)) as [<-|Hne].
      * intros _. rewrite map_app. apply elem_of_app. right. simpl. left.
      * rewrite lookup_insert_ne by done. intros Hk. by apply Hsub, Hkeys.
    + rewrite map_size_insert_None by done. lia.
    + rewrite map_size_insert_None by done. rewrite Helements.
      destruct (elementToCoordinates m !! e0); [lia|].
      pose proof (length_set_add e0 (elements m)). lia.
Qed.

Lemma sampling_loop_invariant host options start total (limit : nat)
    (rest sampled : list Coordinate) m trace m' trace' :
  (0 < limit)%nat →
  NoDup (map coordToKey (sampled ++ rest)) →
  loop_invariant host limit sampled m →
  sampling_loop host options start total rest (length sampled) m trace
  = (Returned m', trace') →
  loop_invariant host limit (sampled ++ rest) m'.
Proof.
  intros Hpos. revert sampled m trace.
  induction rest as [|coord rest IH]; intros sampled m trace Hnd Hinv; simpl.
  - intros [= <- _]. by rewrite app_nil_r.
  - destruct (signal_aborted options (length sampled)); [done|].
    destruct (_ >? _); [done|].
    pose proof (sample_round_resolved host options total (length sampled) coord m)
      as Hround.
    destruct (sample_round host options total (length sampled) coord m)
      as [m1 events].
    simpl in Hround. subst m1.
    replace (S (length sampled)) with (length (sampled ++ [coord]))
      by (rewrite length_app; simpl; lia).
    replace (sampled ++ coord :: rest) with ((sampled ++ [coord]) ++ rest) in *
      by (by rewrite <- app_assoc).
    apply IH; [done|].
    apply addCoordinate_loop_invariant; [done| |done].
    rewrite <- app_assoc, map_app in Hnd. apply NoDup_app in Hnd as (_ & Hdisj & _).
    intros Hin. apply (Hdisj _ Hin). simpl. left.
Qed.

Lemma calculate_on_invariant host resolution options
    (coordinates : list Coordinate) m trace :
  NoDup (map coordToKey coordinates) →
  calculate_on host resolution options coordinates = (Returned m, trace) →
  loop_invariant host (Z.to_nat 10000) coordinates m.
Proof.
  intros Hnd. unfold calculate_on.
  destruct (sampling_loop _ _ _ _ _ _ _ _) as [[m'|err] trace'] eqn:Hloop; [|done].
  intros [= <- _].
  eapply (sampling_loop_invariant host options _ _ (Z.to_nat 10000) coordinates
            []); [lia|exact Hnd| |exact Hloop].
  repeat split; try done.
  intros key [e He]. simpl in He. by rewrite lookup_empty in He.
Qed.

(** X7. The hit region of an element after a completed pass: for every
    element, [getCoordinates] returns the grid points whose sample resolved
    to it ([sampleCoordinate] returned it and the document still contained
    it), in the order of the grid, cut after the first 10,000 of them. *)
Theorem calculate_getCoordinates (fuel : nat) host (resolution : option Z)
    (options : option Options) (coordinates : list Coordinate) m trace (e : Elem) :
  generateCoordinateGrid fuel (innerWidth host) (innerHeight host)
    (default 10 resolution) = Some coordinates →
  calculate fuel host resolution options = Some (Returned m, trace) →
  getCoordinates m (Some e)
  = take (Z.to_nat 10000) (resolved_points host 0 coordinates e).
Proof.
  intros Hgrid. unfold calculate.
  replace (match resolution with Some r => r | None => 10 end)
    with (default 10 resolution) by (by destruct resolution).
  rewrite Hgrid. intros [= Hcalc].
  apply generateCoordinateGrid_distinct in Hgrid as [Hnd Hvalid].
  apply calculate_on_invariant in Hcalc as (_ & Hsets & _); [|by apply NoDup_keys].
  rewrite coordinates_of_getCoordinates, Hsets.
  apply map_keyToCoord_coordToKey.
  apply Forall_forall. intros c Hc. rewrite Forall_forall in Hvalid.
  apply Hvalid. apply (resolved_points_subseteq host 0 coordinates e).
  by eapply subseteq_take.
Qed.

(** X8. The two lookups agree after a completed pass: a coordinate is in
    [getCoordinates] of an element exactly when it is valid and
    [getElement] maps it to that element. *)
Theorem calculate_lookups_agree (fuel : nat) host (resolution : option Z)
    (options : option Options) m trace (e : Elem) (c : Coordinate) :
  calculate fuel host resolution options = Some (Returned m, trace) →
  (c ∈ getCoordinates m (Some e)
   ↔ isValidCoordinate (Some c) = true ∧ getElement m (Some c) = Some e).
Proof.
  unfold calculate.
  destruct (generateCoordinateGrid _ _ _ _) as [coordinates|] eqn:Hgrid; [|done].
  intros [= Hcalc].
  apply generateCoordinateGrid_distinct in Hgrid as [Hnd Hvalid].
  pose proof (NoDup_keys _ Hnd Hvalid) as Hkeys.
  destruct (calculate_on_consistent _ _ _ _ _ _ Hkeys Hcalc) as [Hfw Hbw].
  apply calculate_on_invariant in Hcalc as (_ & Hsets & _); [|done].
  rewrite Forall_forall in Hvalid.
  rewrite coordinates_of_getCoordinates. split.
  - intros (key & -> & Hin)%list_elem_of_fmap.
    assert (Hin' := Hin). rewrite Hsets in Hin'.
    apply list_elem_of_fmap in Hin' as (c' & -> & Hc').
    assert (Hv : isValidCoordinate (Some c') = true).
    { apply Hvalid. apply (resolved_points_subseteq host 0 coordinates e).
      by eapply subseteq_take. }
    destruct (isValidCoordinate_defined c' Hv) as [? ?].
    rewrite keyToCoord_coordToKey by done. split; [done|].
    unfold getElement. unfold coordinates_of in Hin.
    destruct (elementToCoordinates m !! e) as [keys|] eqn:E;
      [|by apply elem_of_nil in Hin].
    by apply (Hbw e keys).
  - intros [Hv Hget]. unfold getElement in Hget.
    destruct (Hfw _ _ Hget) as (keys & E & Hin).
    destruct (isValidCoordinate_defined c Hv) as [? ?].
    apply list_elem_of_fmap. exists (coordToKey c).
    split; [by rewrite keyToCoord_coordToKey|].
    unfold coordinates_of. by rewrite E.
Qed.

(** X9. The statistics of a completed pass: the map holds no more
    coordinates than the grid has points, no more elements than
    coordinates, and no element with more than 10,000 coordinates. *)
Theorem calculate_getStats_bounds (fuel : nat) host (resolution : option Z)
    (options : option Options) (coordinates : list Coordinate) m trace :
  generateCoordinateGrid fuel (innerWidth host) (innerHeight host)
    (default 10 resolution) = Some coordinates →
  calculate fuel host resolution options = Some (Returned m, trace) →
  ((getStats m).2 ≤ length coordinates)%nat
  ∧ ((getStats m).1 ≤ (getStats m).2)%nat
  ∧ ∀ e, Z.of_nat (getCoordinateCount m e) ≤ 10000.
Proof.
  intros Hgrid. unfold calculate.
  replace (match resolution with Some r => r | None => 10 end)
    with (default 10 resolution) by (by destruct resolution).
  rewrite Hgrid. intros [= Hcalc].
  apply generateCoordinateGrid_distinct in Hgrid as [Hnd Hvalid].
  apply calculate_on_invariant in Hcalc as (_ & Hsets & _ & Hsize & Hels);
    [|by apply NoDup_keys].
  split; [done|]. split; [done|].
  intros e. rewrite getCoordinateCount_coordinates_of, Hsets, length_map, length_take.
  lia.
Qed.

End PassContents.

Lemma calculate_getCoordinates_witness :
  ∃ m trace,
    calculate 100 (button_host 100 100 (clock_of 1)) (Some 50) None
    = Some (Returned m, trace)
    ∧ getCoordinates m (Some 1%nat)
      = take (Z.to_nat 10000)
          (resolved_points (button_host 100 100 (clock_of 1)) 0
             (column_major_grid 100 100 50) 1%nat).
Proof.
  assert (E : ∃ m trace,
             calculate 100 (button_host 100 100 (clock_of 1)) (Some 50) None
             = Some (Returned m, trace))
    by (eexists _, _; vm_compute; reflexivity).
  destruct E as (m & trace & E). exists m, trace. split; [exact E|].
  exact (calculate_getCoordinates 100 (button_host 100 100 (clock_of 1))
           (Some 50) None (column_major_grid 100 100 50) m trace 1%nat
           ltac:(vm_compute; reflexivity) E).
Defined.

Lemma calculate_lookups_agree_witness :
  ∃ m trace,
    calculate 100 (button_host 100 100 (clock_of 1)) (Some 50) None
    = Some (Returned m, trace)
    ∧ ({| x := JInt 50; y := JInt 0 |} ∈ getCoordinates m (Some 1%nat)
       ↔ isValidCoordinate (Some {| x := JInt 50; y := JInt 0 |}) = true
         ∧ getElement m (Some {| x := JInt 50; y := JInt 0 |}) = Some 1%nat).
Proof.
  assert (E : ∃ m trace,
             calculate 100 (button_host 100 100 (clock_of 1)) (Some 50) None
             = Some (Returned m, trace))
    by (eexists _, _; vm_compute; reflexivity).
  destruct E as (m & trace & E). exists m, trace. split; [exact E|].
  exact (calculate_lookups_agree 100 (button_host 100 100 (clock_of 1))
           (Some 50) None m trace 1%nat {| x := JInt 50; y := JInt 0 |} E).
Defined.

Lemma calculate_getStats_bounds_witness :
  ∃ m trace,
    calculate 100 (button_host 100 100 (clock_of 1)) (Some 50) None
    = Some (Returned m, trace)
    ∧ ((getStats m).2 ≤ length (column_major_grid 100 100 50))%nat
    ∧ ((getStats m).1 ≤ (getStats m).2)%nat
    ∧ ∀ e, Z.of_nat (getCoordinateCount m e) ≤ 10000.
Proof.
  assert (E : ∃ m trace,
             calculate 100 (button_host 100 100 (clock_of 1)) (Some 50) None
             = Some (Returned m, trace))
    by (eexists _, _; vm_compute; reflexivity).
  destruct E as (m & trace & E). exists m, trace. split; [exact E|].
  exact (calculate_getStats_bounds 100 (button_host 100 100 (clock_of 1))
           (Some 50) None (column_major_grid 100 100 50) m trace
           ltac:(vm_compute; reflexivity) E).
Defined.

(* ===================================================================== *)
(** * Further properties of the grid and of the progress reports *)
(* ===================================================================== *)

(** X10. Resolutions the loops cannot handle: with a resolution of zero or
    less in a viewport of positive width the loops of
    [generateCoordinateGrid] never reach their end, so [calculate] returns
    nothing however long it runs; in a viewport of no width the grid is
    empty for every resolution. *)
Theorem generateCoordinateGrid_nonpositive (fuel : nat) (W H resolution : Z) :
  (resolution ≤ 0 → 0 < W →
     generateCoordinateGrid fuel W H resolution = None
     ∧ ∀ {Elem : Type} `{Countable Elem} (host : Host Elem) options,
         innerWidth host = W → innerHeight host = H →
         calculate fuel host (Some resolution) options = None)
  ∧ (W ≤ 0 → generateCoordinateGrid fuel W H resolution = Some []).
Proof.
  split.
  - intros Hr HW.
    assert (Hgrid : generateCoordinateGrid fuel W H resolution = None)
      by (by apply grid_columns_stuck).
    split; [done|]. intros Elem ? ? host options <- <-.
    unfold calculate. by rewrite Hgrid.
  - intros HW. unfold generateCoordinateGrid.
    destruct fuel; simpl; by destruct (Z.ltb_spec 0 W); try lia.
Qed.

Lemma generateCoordinateGrid_nonpositive_witness :
  generateCoordinateGrid 1000 100 100 0 = None
  ∧ generateCoordinateGrid 1000 0 100 10 = Some [].
Proof.
  split.
  - exact (proj1 (proj1 (generateCoordinateGrid_nonpositive 1000 100 100 0)
                    ltac:(lia) ltac:(lia))).
  - exact (proj2 (generateCoordinateGrid_nonpositive 1000 0 100 10) ltac:(lia)).
Defined.

(** X11. Coverage of the grid: for a positive resolution [r], whatever the
    viewport, a grid that is generated holds exactly the points
    [(i*r, j*r)], [i] and [j] not negative, that lie inside the viewport;
    none is left out and none is added. *)
Theorem generateCoordinateGrid_covers (fuel : nat) (W H r : Z)
    (g : list Coordinate) (c : Coordinate) :
  1 ≤ r →
  generateCoordinateGrid fuel W H r = Some g →
  (c ∈ g ↔ ∃ i j, 0 ≤ i ∧ 0 ≤ j ∧ i * r < W ∧ j * r < H
                  ∧ c = {| x := JInt (i * r); y := JInt (j * r) |}).
Proof.
  intros Hr Hg. unfold generateCoordinateGrid in Hg.
  apply grid_columns_Some in Hg; [|done]. simpl in Hg. subst g.
  rewrite elem_of_columns_from by done.
  pose proof (ceil_div_spec r Hr W) as HcW.
  pose proof (ceil_div_spec r Hr H) as HcH.
  unfold rounds. rewrite !Z.sub_0_r. split.
  - intros (i & j & Hi & Hj & ->). exists i, j.
    repeat split; try lia; try nia.
  - intros (i & j & Hi & Hj & HiW & HjH & ->). exists i, j.
    repeat split; try lia; try nia.
Qed.

Lemma generateCoordinateGrid_covers_witness :
  {| x := JInt 50; y := JInt 0 |} ∈ column_major_grid 100 100 50
  ↔ ∃ i j, 0 ≤ i ∧ 0 ≤ j ∧ i * 50 < 100 ∧ j * 50 < 100
           ∧ {| x := JInt 50; y := JInt 0 |}
             = {| x := JInt (i * 50); y := JInt (j * 50) |}.
Proof.
  exact (generateCoordinateGrid_covers 100 100 100 50
           (column_major_grid 100 100 50) {| x := JInt 50; y := JInt 0 |}
           ltac:(lia) ltac:(vm_compute; reflexivity)).
Defined.

Lemma filter_Forall_false {A : Type} (f : A → bool) (l : list A) :
  Forall (fun a => f a = false) l → List.filter f l = [].
Proof. induction 1 as [|a l Ha _ IH]; simpl; [done|]. by rewrite Ha. Qed.

(** The rounds among [q] consecutive ones, the first a multiple of [q],
    that report progress: the first one only. *)
Lemma filter_reports_block (q k : nat) :
  (1 ≤ q)%nat →
  List.filter (reports_progress (10 * q)) (seq (k * q) q) = [(k * q)%nat].
Proof.
  intros Hq.
  assert (Hdiv : Z.of_nat (10 * q) / 10 = Z.of_nat q).
  { rewrite Nat2Z.inj_mul, Z.mul_comm. apply Z.div_mul. lia. }
  assert (Hrep : ∀ i, reports_progress (10 * q) i = true
                      ↔ (Z.of_nat q | Z.of_nat i)).
  { intros i. rewrite reports_progress_iff, Hdiv. split; [by intros [_ ?]|].
    intros ?. split; [lia|done]. }
  clear Hdiv. set (N := (10 * q)%nat) in *.
  destruct q as [|q]; [lia|]. set (a := (k * S q)%nat) in *.
  rewrite <- cons_seq. cbn [List.filter].
  assert (reports_progress N a = true) as ->.
  { apply Hrep. exists (Z.of_nat k). lia. }
  f_equal. apply filter_Forall_false, Forall_forall.
  intros i [Hlo Hhi]%list_elem_of_In%in_seq.
  destruct (reports_progress N i) eqn:E; [|done].
  apply Hrep in E as [z Hz]. exfalso. subst a.
  destruct (Z.le_gt_cases z (Z.of_nat k)); nia.
Qed.

Lemma filter_reports_multiples (q n : nat) :
  (1 ≤ q)%nat →
  List.filter (reports_progress (10 * q)) (seq 0 (n * q))
  = map (fun k => (k * q)%nat) (seq 0 n).
Proof.
  intros Hq. induction n as [|n IH]; [done|].
  replace (S n * q)%nat with (n * q + q)%nat by lia.
  rewrite seq_app, List.filter_app, IH.
  change (0 + n * q)%nat with (n * q)%nat.
  rewrite (filter_reports_block q n Hq).
  rewrite seq_S, map_app. reflexivity.
Qed.

Lemma progress_percentage_tenth (q k : nat) :
  (1 ≤ q)%nat →
  Qeq (progress_percentage (k * q) (10 * q)) (inject_Z (10 * Z.of_nat k)).
Proof.
  intros Hq. unfold progress_percentage. rewrite Qred_correct.
  remember (Z.of_nat (10 * q)) as N eqn:E.
  remember (Z.of_nat (k * q)) as a eqn:Ea.
  destruct N as [|p|p]; try lia.
  unfold Qeq, Qmult, Qdiv, Qinv, inject_Z. simpl.
  rewrite Pos.mul_1_r, Z.mul_1_r. lia.
Qed.

Section ProgressProps.
Context {Elem : Type} `{Countable Elem}.

(** X12. Progress on a grid of ten times [q] points: a pass that is given
    an [onProgress] callback and completes calls it exactly ten times, in
    the rounds [0], [q], ..., [9q], with the percentages 0, 10, ..., 90, the
    round and the total. *)
Theorem calculate_progress_multiple_of_ten (host : Host Elem) (resolution : Z)
    (options : Options) (coordinates : list Coordinate) (q : nat)
    (m : HitRegionMap Elem) trace :
  onProgress options = true →
  (1 ≤ q)%nat →
  length coordinates = (10 * q)%nat →
  calculate_on host resolution options coordinates = (Returned m, trace) →
  progress_calls trace
  = map (fun k => ProgressCall (progress_percentage (k * q) (10 * q))
                    (k * q) (10 * q))
        (seq 0 10)
  ∧ ∀ k, (k < 10)%nat →
         Qeq (progress_percentage (k * q) (10 * q)) (inject_Z (10 * Z.of_nat k)).
Proof.
  intros Hcb Hq Hlen Hpass. split.
  - rewrite (calculate_on_progress_calls _ _ _ _ _ _ Hpass), Hcb, Hlen.
    rewrite (filter_reports_multiples q 10 Hq), map_map. reflexivity.
  - intros k _. by apply progress_percentage_tenth.
Qed.

End ProgressProps.

Lemma calculate_progress_multiple_of_ten_witness :
  ∃ m trace,
    calculate_on (button_host 100 20 (clock_of 1)) 10 progress_options
      (column_major_grid 100 20 10)
    = (Returned m, trace)
    ∧ progress_calls trace
      = map (fun k => ProgressCall (progress_percentage (k * 2) (10 * 2))
                        (k * 2) (10 * 2))
            (seq 0 10).
Proof.
  assert (E : ∃ m trace,
             calculate_on (button_host 100 20 (clock_of 1)) 10 progress_options
               (column_major_grid 100 20 10)
             = (Returned m, trace))
    by (eexists _, _; vm_compute; reflexivity).
  destruct E as (m & trace & E). exists m, trace. split; [exact E|].
  exact (proj1 (calculate_progress_multiple_of_ten
                  (button_host 100 20 (clock_of 1)) 10 progress_options
                  (column_major_grid 100 20 10) 2 m trace
                  eq_refl ltac:(lia) ltac:(vm_compute; reflexivity) E)).
Defined.

(* ===================================================================== *)
(** * Properties of the configuration manager *)
(* ===================================================================== *)

Module ConfigProps.
Import Config.

Lemma validateConfiguration_fields (config : Configuration) :
  validateConfiguration config = true
  ↔ ∀ key, key ∈ settings → field_ok key (get config key).
Proof.
  unfold validateConfiguration, settings. split.
  - intros Hv key Hkey.
    repeat (apply elem_of_cons in Hkey as [->|Hkey]); [..|by apply elem_of_nil in Hkey];
      unfold field_ok.
    + destruct (get config "samplingResolution") as [| |n| | |]; try done; [by left|].
      destruct (_ || _) eqn:E; [done|]. apply orb_false_iff in E as [? ?].
      right; left. split; [done|]. eauto.
    + destruct (match get config "samplingResolution" with
                | DUndefined => false | DNumber n => _ | _ => true end); [done|].
      destruct (get config "highlightColor") as [| | |s| |]; try done; [by left|].
      destruct (is_hex_color s) eqn:E; [|done].
      right; right; left. eauto.
    + destruct (match get config "samplingResolution" with
                | DUndefined => false | DNumber n => _ | _ => true end); [done|].
      destruct (match get config "highlightColor" with
                | DUndefined => false | DString s => _ | _ => true end); [done|].
      destruct (get config "highlightOpacity") as [| |n| | |]; try done; [by left|].
      destruct (_ || _) eqn:E; [done|]. apply orb_false_iff in E as [? ?].
      right; right; right; left. split; [done|]. eauto.
    + destruct (match get config "samplingResolution" with
                | DUndefined => false | DNumber n => _ | _ => true end); [done|].
      destruct (match get config "highlightColor" with
                | DUndefined => false | DString s => _ | _ => true end); [done|].
      destruct (match get config "highlightOpacity" with
                | DUndefined => false | DNumber n => _ | _ => true end); [done|].
      destruct (get config "autoRecalculate") as [| | | |b|]; try done; [by left|].
      right; right; right; right. eauto.
  - intros Hall.
    assert (H1 := Hall "samplingResolution" ltac:(set_solver)).
    assert (H2 := Hall "highlightColor" ltac:(set_solver)).
    assert (H3 := Hall "highlightOpacity" ltac:(set_solver)).
    assert (H4 := Hall "autoRecalculate" ltac:(set_solver)).
    unfold field_ok in *.
    destruct H1 as [->|[(_ & n & -> & -> & ->)|[[? _]|[[? _]|[? _]]]]]; try done;
    destruct H2 as [->|[[? _]|[(_ & s & -> & ->)|[[? _]|[? _]]]]]; try done;
    destruct H3 as [->|[[? _]|[[? _]|[(_ & n' & -> & -> & ->)|[? _]]]]]; try done;
    destruct H4 as [->|[[? _]|[[? _]|[[? _]|(_ & b & ->)]]]]; try done.
Qed.

Lemma get_spread (a b : Configuration) (key : string) :
  get (spread a b) key = match b !! key with Some v => v | None => get a key end.
Proof.
  unfold get, spread. rewrite lookup_union.
  destruct (b !! key), (a !! key); done.
Qed.

Lemma DEFAULT_CONFIG_valid : validateConfiguration DEFAULT_CONFIG = true.
Proof. reflexivity. Qed.

(** X13. Validity is kept by merging: the default configuration passes
    [validateConfiguration], and the spread of a configuration that passes
    over another that passes, which is what [loadConfiguration],
    [saveConfiguration] and the change listener assign to the current
    configuration, passes too. *)
Theorem validateConfiguration_spread (a b : Configuration) :
  validateConfiguration DEFAULT_CONFIG = true
  ∧ (validateConfiguration a = true → validateConfiguration b = true →
     validateConfiguration (spread a b) = true).
Proof.
  split; [reflexivity|]. rewrite !validateConfiguration_fields.
  intros Ha Hb key Hkey. rewrite get_spread.
  destruct (b !! key) as [v|] eqn:E; [|by apply Ha].
  specialize (Hb key Hkey). unfold get in Hb. by rewrite E in Hb.
Qed.

Lemma validateConfiguration_spread_witness :
  validateConfiguration
    (spread DEFAULT_CONFIG {[ "samplingResolution" := DNumber (num_of_Z 25) ]})
  = true.
Proof.
  exact (proj2 (validateConfiguration_spread DEFAULT_CONFIG
                  {[ "samplingResolution" := DNumber (num_of_Z 25) ]})
           eq_refl eq_refl).
Defined.



(** X15. Saving merges first: [saveConfiguration] makes the merge of the
    given properties over the current configuration current before it
    writes the store, so the merge stays current even when the write fails
    and the error is thrown on; the given properties win, the others are
    kept, and saving the same properties again changes nothing. *)
Theorem saveConfiguration_merges (this : ConfigurationManager)
    (config : Configuration) (set_fails : bool) :
  let saved := saveConfiguration this config set_fails in
  getConfiguration saved.1 = spread (currentConfig this) config
  ∧ saved.2 = (if set_fails then None else Some (getConfiguration saved.1))
  ∧ (∀ key v, config !! key = Some v → get (getConfiguration saved.1) key = v)
  ∧ (∀ key, config !! key = None →
            get (getConfiguration saved.1) key = get (currentConfig this) key)
  ∧ (saveConfiguration saved.1 config set_fails).1 = saved.1.
Proof.
  assert (Hget : ∀ c : Configuration, spread ∅ c = c).
  { intros c. unfold spread. by rewrite (right_id_L ∅ (∪)). }
  simpl. unfold getConfiguration. rewrite Hget.
  split; [by destruct set_fails|]. split; [by destruct set_fails|].
  split; [|split].
  - intros key v E. destruct set_fails; simpl; by rewrite get_spread, E.
  - intros key E. destruct set_fails; simpl; by rewrite get_spread, E.
  - destruct set_fails; simpl; f_equal; unfold spread;
      by rewrite (assoc_L (∪)), (idemp_L (∪)).
Qed.

Lemma saveConfiguration_merges_witness :
  get (getConfiguration
         (saveConfiguration new_ConfigurationManager
            {[ "highlightColor" := DString "#ff0000" ]} true).1)
      "highlightColor"
  = DString "#ff0000".
Proof.
  exact (proj1 (proj2 (proj2
           (saveConfiguration_merges new_ConfigurationManager
              {[ "highlightColor" := DString "#ff0000" ]} true)))
           "highlightColor" (DString "#ff0000") eq_refl).
Defined.

End ConfigProps.

(* ===================================================================== *)
(** * Properties of the canvas renderer *)
(* ===================================================================== *)

Module RendererProps.
Import Renderer.

Lemma color_used_hex (color : JsData) : is_hex_color (color_used color) = true.
Proof.
  destruct color as [| | |s| |]; try reflexivity.
  simpl. by destruct (is_hex_color s) eqn:E.
Qed.

Lemma assign_globalAlpha_in_range (value : JsNumber) :
  alpha_in_range (assign_globalAlpha (num_of_Z 1) value).
Proof.
  unfold assign_globalAlpha.
  destruct value as [| |q]; try (by eexists).
  destruct (_ || _) eqn:E; [by eexists|].
  apply orb_false_iff in E as [? ?]. by exists q.
Qed.

Lemma draw_coordinate_dots (fill : string) (alpha : JsNumber)
    (coord : option Coordinate) :
  Forall (fun d => dot_fillStyle d = fill ∧ dot_alpha d = alpha)
         (draw_coordinate fill alpha coord).
Proof.
  unfold draw_coordinate. destruct coord as [[[| | |a] [| | |b]]|]; simpl;
    repeat constructor.
Qed.

Lemma dots_of_ok (frame : Frame) :
  is_hex_color (frame_color frame) = true →
  Forall (fun d => is_hex_color (dot_fillStyle d) = true
                   ∧ alpha_in_range (dot_alpha d)) (dots_of frame).
Proof.
  intros Hhex. unfold dots_of. apply Forall_flat_map, Forall_forall.
  intros coord _. eapply Forall_impl; [apply draw_coordinate_dots|].
  intros d [-> ->]. split; [done|]. apply assign_globalAlpha_in_range.
Qed.

Lemma run_frame_bitmap (r : CanvasRenderer) (frame : Frame) (c : Canvas) :
  at_rest r → canvas r = Some c →
  at_rest (run_frame r frame)
  ∧ ∃ c', canvas (run_frame r frame) = Some c'
          ∧ bitmap c' = bitmap c ++ dots_of frame.
Proof.
  intros [Hboth Hc] E. destruct (Hc c E) as [Hatt Halpha].
  unfold run_frame. destruct (ctx r) eqn:Hctx.
  - rewrite E. split.
    + split; simpl; [by split|]. by intros c' [= <-].
    + eexists. split; [done|]. simpl. unfold dots_of. by rewrite Halpha.
  - rewrite (proj2 Hboth eq_refl) in E. done.
Qed.

Lemma fold_run_frame_bitmap (frames : list Frame) (r : CanvasRenderer) (c : Canvas) :
  at_rest r → canvas r = Some c →
  at_rest (fold_left run_frame frames r)
  ∧ ∃ c', canvas (fold_left run_frame frames r) = Some c'
          ∧ bitmap c' = bitmap c ++ flat_map dots_of frames.
Proof.
  revert r c. induction frames as [|f frames IH]; intros r c Hr E; simpl.
  - split; [done|]. exists c. by rewrite app_nil_r.
  - destruct (run_frame_bitmap r f c Hr E) as (Hr' & c' & E' & Hb).
    destruct (IH _ _ Hr' E') as (Hr'' & c'' & E'' & Hb').
    split; [done|]. exists c''. split; [done|]. by rewrite Hb', Hb, <- app_assoc.
Qed.

Lemma fold_run_frame_none (frames : list Frame) (r : CanvasRenderer) :
  canvas r = None → fold_left run_frame frames r = r.
Proof.
  intros E. induction frames as [|f frames IH]; simpl; [done|].
  assert (run_frame r f = r) as ->; [|done].
  unfold run_frame. rewrite E. by destruct (ctx r).
Qed.

Lemma createOverlay_cases (page : Page) (r : CanvasRenderer) :
  (document_body page && getContext_2d page = true
   ∧ createOverlay page r
     = ({| canvas := Some {| width := window_innerWidth page;
                             height := window_innerHeight page;
                             attached := true; fillStyle := "#000000";
                             globalAlpha := num_of_Z 1; bitmap := [] |};
           ctx := true |},
        Some {| width := window_innerWidth page;
                height := window_innerHeight page;
                attached := true; fillStyle := "#000000";
                globalAlpha := num_of_Z 1; bitmap := [] |}))
  ∨ (document_body page && getContext_2d page = false
     ∧ createOverlay page r = ({| canvas := None; ctx := false |}, None)).
Proof.
  unfold createOverlay.
  destruct (document_body page), (getContext_2d page); simpl; auto.
Qed.

Lemma renderer_cases (s : Screen) :
  screen_invariant s →
  (∃ c, renderer s = {| canvas := Some c; ctx := true |}
        ∧ attached c = true ∧ globalAlpha c = num_of_Z 1
        ∧ Forall (fun d => is_hex_color (dot_fillStyle d) = true
                           ∧ alpha_in_range (dot_alpha d)) (bitmap c))
  ∨ renderer s = {| canvas := None; ctx := false |}.
Proof.
  intros (Hboth & Hc & _). destruct (renderer s) as [[c|] cx]; simpl in *.
  - left. exists c. destruct (Hc c eq_refl) as (? & ? & ?).
    destruct cx; [done|]. by pose proof (proj2 Hboth eq_refl).
  - right. by rewrite (proj1 Hboth eq_refl).
Qed.

Lemma screen_invariant_intro (c : Canvas) (frames : list Frame) :
  attached c = true → globalAlpha c = num_of_Z 1 →
  Forall (fun d => is_hex_color (dot_fillStyle d) = true
                   ∧ alpha_in_range (dot_alpha d)) (bitmap c) →
  Forall (fun f => is_hex_color (frame_color f) = true) frames →
  screen_invariant {| renderer := {| canvas := Some c; ctx := true |};
                      pending := frames |}.
Proof.
  intros ? ? ? ?. split; [by split|]. split; [|done].
  by intros c' [= <-].
Qed.

Lemma screen_invariant_null (frames : list Frame) :
  Forall (fun f => is_hex_color (frame_color f) = true) frames →
  screen_invariant {| renderer := {| canvas := None; ctx := false |};
                      pending := frames |}.
Proof. intros ?. split; [done|]. by split. Qed.

Lemma step_invariant (s : Screen) (op : Op) :
  screen_invariant s → screen_invariant (step s op).
Proof.
  intros Hs. pose proof Hs as (_ & _ & Hp).
  assert (Hp' : ∀ color coordinates opacity,
             Forall (fun f => is_hex_color (frame_color f) = true)
               (pending s ++ [{| frame_coordinates := coordinates;
                                 frame_color := color_used color;
                                 frame_opacity := opacity |}])).
  { intros. apply Forall_app. split; [done|]. repeat constructor.
    apply color_used_hex. }
  destruct op as [page|page coordinates color opacity| | |page|];
    unfold step.
  - destruct (createOverlay_cases page (renderer s)) as [[_ ->]|[_ ->]]; simpl.
    + by apply screen_invariant_intro.
    + by apply screen_invariant_null.
  - unfold renderHitRegion.
    destruct coordinates as [[|coord coordinates]|];
      try (rewrite app_nil_r; by destruct s).
    destruct (renderer_cases s Hs) as [(c & -> & ? & ? & ?)| ->]; simpl.
    + by apply screen_invariant_intro.
    + destruct (createOverlay_cases page {| canvas := None; ctx := false |})
        as [[_ ->]|[_ ->]]; simpl.
      * by apply screen_invariant_intro.
      * rewrite app_nil_r. by apply screen_invariant_null.
  - destruct (renderer_cases s Hs) as [(c & -> & ? & ? & ?)| ->]; simpl.
    + by apply screen_invariant_intro.
    + by apply screen_invariant_null.
  - by apply screen_invariant_null.
  - destruct (renderer_cases s Hs) as [(c & -> & ? & ? & ?)| ->]; simpl.
    + by apply screen_invariant_intro.
    + by apply screen_invariant_null.
  - destruct (renderer_cases s Hs) as [(c & E & Hatt & Halpha & Hdots)| ->].
    + destruct (fold_run_frame_bitmap (pending s) (renderer s) c)
        as ([Hboth' Hc'] & c' & E' & Hb).
      { rewrite E. split; [done|]. by intros ? [= <-]. }
      { by rewrite E. }
      split; [done|]. split; [|done]. intros c'' E''.
      simpl in E''. rewrite E' in E''. injection E'' as <-.
      destruct (Hc' c' E') as [? ?]. repeat split; try done.
      rewrite Hb. apply Forall_app. split; [done|].
      apply Forall_flat_map. eapply Forall_impl; [exact Hp|].
      intros f Hf. by apply dots_of_ok.
    + rewrite fold_run_frame_none by done. by apply screen_invariant_null.
Qed.

Lemma run_invariant (ops : list Op) : screen_invariant (run ops).
Proof.
  unfold run.
  assert (Hinit : screen_invariant {| renderer := new_CanvasRenderer; pending := [] |}).
  { split; [done|]. split; [done|]. constructor. }
  revert Hinit. generalize {| renderer := new_CanvasRenderer; pending := [] |}.
  induction ops as [|op ops IH]; intros s Hs; simpl; [done|].
  by apply IH, step_invariant.
Qed.

(** X16. The overlay at all times: after any run of method calls and
    animation frames on a new renderer, the canvas and the context are
    either both set or both unset, [hasOverlay] holds exactly when they are
    set, and every dot on the canvas was painted with a colour of the form
    [#hhhhhh] and an opacity from 0 to 1, whatever was passed as colour and
    opacity. *)
Theorem overlay_invariant (ops : list Op) :
  let r := renderer (run ops) in
  (canvas r = None ↔ ctx r = false)
  ∧ hasOverlay r = ctx r
  ∧ ∀ c, canvas r = Some c →
         Forall (fun d => is_hex_color (dot_fillStyle d) = true
                          ∧ alpha_in_range (dot_alpha d)) (bitmap c).
Proof.
  simpl. destruct (renderer_cases _ (run_invariant ops))
    as [(c & -> & Hatt & _ & Hdots)| ->]; simpl.
  - split; [by split|]. split; [done|]. by intros c' [= <-].
  - by repeat split.
Qed.

Lemma run_app (ops1 ops2 : list Op) :
  run (ops1 ++ ops2) = fold_left step ops2 (run ops1).
Proof. unfold run. apply fold_left_app. Qed.

Lemma step_frame_pending (s : Screen) : pending (step s AnimationFrame) = [].
Proof. done. Qed.

(** The renderer after a render on a page that can hold an overlay, the
    waiting callbacks having run before. *)
Lemma render_flushed (s : Screen) (page : Page)
    (coordinates : list (option Coordinate)) (color opacity : JsData) :
  screen_invariant s → pending s = [] →
  document_body page = true → getContext_2d page = true →
  coordinates ≠ [] →
  let s' := step s (RenderHitRegion page (Some coordinates) color opacity) in
  screen_invariant s'
  ∧ pending s' = [{| frame_coordinates := coordinates;
                     frame_color := color_used color;
                     frame_opacity := opacity_used opacity |}]
  ∧ ∃ c, canvas (renderer s') = Some c ∧ bitmap c = [].
Proof.
  intros Hs Hp Hbody Hctx Hne s'.
  split; [by apply step_invariant|].
  subst s'. unfold step, renderHitRegion.
  destruct coordinates as [|coord coordinates]; [done|].
  destruct (renderer_cases s Hs) as [(c & -> & _)| ->]; simpl.
  - rewrite Hp. split; [done|]. by eexists.
  - destruct (createOverlay_cases page {| canvas := None; ctx := false |})
      as [[_ ->]|[Hf _]]; [|by rewrite Hbody, Hctx in Hf].
    simpl. rewrite Hp. split; [done|]. by eexists.
Qed.

(** X17. What a render paints: on a page that can hold an overlay, when no
    callback is waiting, [renderHitRegion] with a non-empty array followed
    by the next animation frame leaves on the canvas exactly one dot for each
    coordinate with finite numeric components, in order, in the colour and
    opacity given, or the defaults [#00ff00] and 0.3 where these are not
    acceptable (an opacity of [NaN] passes the check and is then ignored by
    the context, which paints with 1); what was painted before is erased and
    coordinates that are missing or not numeric are skipped. *)
Theorem renderHitRegion_paints (ops : list Op) (page : Page)
    (coordinates : list (option Coordinate)) (color opacity : JsData) :
  document_body page = true → getContext_2d page = true →
  coordinates ≠ [] →
  let s := run (ops ++ [AnimationFrame;
                        RenderHitRegion page (Some coordinates) color opacity;
                        AnimationFrame]) in
  pending s = []
  ∧ ∃ c, canvas (renderer s) = Some c
         ∧ bitmap c
           = flat_map (draw_coordinate (color_used color)
                         (assign_globalAlpha (num_of_Z 1) (opacity_used opacity)))
                      coordinates.
Proof.
  intros Hbody Hctx Hne s. subst s. rewrite run_app.
  change (fold_left step [AnimationFrame;
                          RenderHitRegion page (Some coordinates) color opacity;
                          AnimationFrame] (run ops))
    with (step (step (step (run ops) AnimationFrame)
                  (RenderHitRegion page (Some coordinates) color opacity))
            AnimationFrame).
  set (s0 := step (run ops) AnimationFrame).
  assert (Hs0 : screen_invariant s0) by apply step_invariant, run_invariant.
  destruct (render_flushed s0 page coordinates color opacity Hs0 eq_refl Hbody
              Hctx Hne) as (Hs1 & Hp & c & E & Hb).
  revert Hs1 Hp E.
  generalize (step s0 (RenderHitRegion page (Some coordinates) color opacity)).
  intros s1 (Hboth & Hc & _) Hp E.
  split; [done|]. unfold step. rewrite Hp. cbn [fold_left renderer].
  destruct (run_frame_bitmap (renderer s1)
              {| frame_coordinates := coordinates; frame_color := color_used color;
                 frame_opacity := opacity_used opacity |} c)
    as (_ & c' & E' & Hb'); [|done|].
  { split; [done|]. intros c0 E0. by destruct (Hc c0 E0) as (? & ? & _). }
  exists c'. split; [done|]. by rewrite Hb', Hb.
Qed.

Lemma renderHitRegion_paints_witness :
  let page := {| window_innerWidth := 100; window_innerHeight := 100;
                 document_body := true; getContext_2d := true |} in
  let s := run ([] ++ [AnimationFrame;
                       RenderHitRegion page
                         (Some [Some {| x := JInt 0; y := JInt 50 |}; None;
                                Some {| x := JNaN; y := JInt 1 |}])
                         (DString "red") (DNumber (num_of_Z 7));
                       AnimationFrame]) in
  pending s = []
  ∧ ∃ c, canvas (renderer s) = Some c
         ∧ bitmap c
           = [{| dot_x := 0; dot_y := 50; dot_fillStyle := "#00ff00";
                 dot_alpha := NumFinite (Qmake 3 10) |}].
Proof.
  exact (renderHitRegion_paints []
           {| window_innerWidth := 100; window_innerHeight := 100;
              document_body := true; getContext_2d := true |}
           [Some {| x := JInt 0; y := JInt 50 |}; None;
            Some {| x := JNaN; y := JInt 1 |}]
           (DString "red") (DNumber (num_of_Z 7))
           eq_refl eq_refl ltac:(discriminate)).
Defined.

(** X18. Clearing happens at the call, not at the frame: when
    [renderHitRegion] is called twice before the next animation frame, both
    callbacks run at that frame and the canvas then shows the dots of the
    first call followed by the dots of the second. *)
Theorem renderHitRegion_twice_in_a_frame (ops : list Op) (page : Page)
    (first second : list (option Coordinate))
    (color1 opacity1 color2 opacity2 : JsData) :
  document_body page = true → getContext_2d page = true →
  first ≠ [] → second ≠ [] →
  let s := run (ops ++ [AnimationFrame;
                        RenderHitRegion page (Some first) color1 opacity1;
                        RenderHitRegion page (Some second) color2 opacity2;
                        AnimationFrame]) in
  ∃ c, canvas (renderer s) = Some c
       ∧ bitmap c
         = flat_map (draw_coordinate (color_used color1)
                       (assign_globalAlpha (num_of_Z 1) (opacity_used opacity1)))
                    first
           ++ flat_map (draw_coordinate (color_used color2)
                          (assign_globalAlpha (num_of_Z 1) (opacity_used opacity2)))
                       second.
Proof.
  intros Hbody Hctx Hne1 Hne2 s. subst s. rewrite run_app.
  change (fold_left step [AnimationFrame;
                          RenderHitRegion page (Some first) color1 opacity1;
                          RenderHitRegion page (Some second) color2 opacity2;
                          AnimationFrame] (run ops))
    with (step (step (step (step (run ops) AnimationFrame)
                        (RenderHitRegion page (Some first) color1 opacity1))
                  (RenderHitRegion page (Some second) color2 opacity2))
            AnimationFrame).
  set (s0 := step (run ops) AnimationFrame).
  assert (Hs0 : screen_invariant s0) by apply step_invariant, run_invariant.
  destruct (render_flushed s0 page first color1 opacity1 Hs0 eq_refl Hbody
              Hctx Hne1) as (Hs1 & Hp1 & c1 & E1 & Hb1).
  revert Hs1 Hp1 E1.
  generalize (step s0 (RenderHitRegion page (Some first) color1 opacity1)).
  intros s1 Hs1 Hp1 E1.
  destruct (renderer_cases s1 Hs1) as [(c & Er & Hatt & Halpha & _)|Er];
    [|rewrite Er in E1; done].
  assert (c = c1) as -> by (rewrite Er in E1; simpl in E1; congruence).
  destruct second as [|coord second]; [done|].
  unfold step at 2. unfold renderHitRegion. rewrite Er, Hp1. simpl.
  exists {| width := width c1; height := height c1; attached := attached c1;
            fillStyle := color_used color2; globalAlpha := num_of_Z 1;
            bitmap := flat_map (draw_coordinate (color_used color1)
                                  (assign_globalAlpha (globalAlpha c1)
                                     (opacity_used opacity1))) first
                      ++ (draw_coordinate (color_used color2)
                            (assign_globalAlpha (num_of_Z 1) (opacity_used opacity2))
                            coord
                          ++ flat_map (draw_coordinate (color_used color2)
                                (assign_globalAlpha (num_of_Z 1)
                                   (opacity_used opacity2))) second) |}.
  split; [done|]. simpl. by rewrite Halpha.
Qed.

Lemma renderHitRegion_twice_in_a_frame_witness :
  let page := {| window_innerWidth := 100; window_innerHeight := 100;
                 document_body := true; getContext_2d := true |} in
  let s := run ([] ++ [AnimationFrame;
                       RenderHitRegion page (Some [Some {| x := JInt 1; y := JInt 1 |}])
                         (DString "#ff0000") (DNumber (num_of_Z 1));
                       RenderHitRegion page (Some [Some {| x := JInt 2; y := JInt 2 |}])
                         (DString "#0000ff") (DNumber (num_of_Z 1));
                       AnimationFrame]) in
  ∃ c, canvas (renderer s) = Some c
       ∧ bitmap c
         = [{| dot_x := 1; dot_y := 1; dot_fillStyle := "#ff0000";
               dot_alpha := num_of_Z 1 |};
            {| dot_x := 2; dot_y := 2; dot_fillStyle := "#0000ff";
               dot_alpha := num_of_Z 1 |}].
Proof.
  exact (renderHitRegion_twice_in_a_frame []
           {| window_innerWidth := 100; window_innerHeight := 100;
              document_body := true; getContext_2d := true |}
           [Some {| x := JInt 1; y := JInt 1 |}]
           [Some {| x := JInt 2; y := JInt 2 |}]
           (DString "#ff0000") (DNumber (num_of_Z 1))
           (DString "#0000ff") (DNumber (num_of_Z 1))
           eq_refl eq_refl ltac:(discriminate) ltac:(discriminate)).
Defined.

End RendererProps.

(* ===================================================================== *)
(** * Properties of the orchestration *)
(* ===================================================================== *)

(** A grid of a viewport of positive size has at most one point per
    pixel. *)
Lemma generateCoordinateGrid_length (fuel : nat) (W H resolution : Z)
    (g : list Coordinate) :
  0 < W → 0 < H →
  generateCoordinateGrid fuel W H resolution = Some g →
  Z.of_nat (length g) ≤ W * H.
Proof.
  intros HW HH Hg. unfold generateCoordinateGrid in Hg.
  destruct (Z.le_gt_cases 1 resolution) as [Hr|Hr].
  - apply grid_columns_Some in Hg; [|done]. simpl in Hg. subst g.
    rewrite length_columns_from by done. unfold rounds. rewrite !Z.sub_0_r.
    pose proof (ceil_div_spec resolution Hr W).
    pose proof (ceil_div_spec resolution Hr H).
    pose proof (ceil_div_pos resolution Hr W HW).
    pose proof (ceil_div_pos resolution Hr H HH).
    rewrite Nat2Z.inj_mul, !Z2Nat.id by lia.
    assert (ceil_div W resolution ≤ W) by nia.
    assert (ceil_div H resolution ≤ H) by nia.
    apply Z.mul_le_mono_nonneg; lia.
  - rewrite grid_columns_stuck in Hg by lia. done.
Qed.

Module ScriptProps.
Import Script.

Section ScriptProps.
Context {Elem : Type} `{Countable Elem}.

(** The options [calculateHitRegions] runs the pass with. *)
Lemma script_pass_error (fuel : nat) (host : Host Elem) (resolution : option Z)
    (err : CalcError) (trace : list Event) :
  calculate fuel host resolution
    (Some {| timeout := Some 10000; onProgress := true;
             signal := Some (fun _ => false) |})
  = Some (Threw err, trace) →
  err = ExceededTimeout 10000
  ∧ ∃ k, 10000 < performanceNow host (S k) - performanceNow host 0.
Proof.
  unfold calculate.
  destruct (generateCoordinateGrid _ _ _ _) as [coordinates|]; [|done].
  intros [= Hpass].
  pose proof (calculate_on_result host
                (match resolution with Some r => r | None => 10 end)
                {| timeout := Some 10000; onProgress := true;
                   signal := Some (fun _ => false) |} coordinates) as Hres.
  rewrite Hpass in Hres. simpl in Hres.
  pose proof (sampling_loop_outcome host
                {| timeout := Some 10000; onProgress := true;
                   signal := Some (fun _ => false) |}
                (length coordinates) coordinates 0 (new_HitRegionMap None) [])
    as Hout.
  rewrite <- Hres in Hout. destruct err as [|t].
  - destruct Hout as (k & _ & _ & Habs). done.
  - destruct Hout as (-> & k & _ & _ & _ & Hlate). split; [done|].
    exists (0 + k)%nat. exact Hlate.
Qed.

(** The round in which a pass of the script times out. *)
Lemma script_pass_late (fuel : nat) (host : Host Elem) (resolution : option Z)
    (err : CalcError) (trace : list Event) :
  calculate fuel host resolution
    (Some {| timeout := Some 10000; onProgress := true;
             signal := Some (fun _ => false) |})
  = Some (Threw err, trace) →
  ∃ coordinates k,
    generateCoordinateGrid fuel (innerWidth host) (innerHeight host)
      (default 10 resolution) = Some coordinates
    ∧ (k < length coordinates)%nat
    ∧ 10000 < performanceNow host (S k) - performanceNow host 0.
Proof.
  unfold calculate.
  replace (match resolution with Some r => r | None => 10 end)
    with (default 10 resolution) by by destruct resolution.
  destruct (generateCoordinateGrid _ _ _ _) as [coordinates|] eqn:Hgrid; [|done].
  intros [= Hpass]. exists coordinates.
  pose proof (calculate_on_result host (default 10 resolution)
                {| timeout := Some 10000; onProgress := true;
                   signal := Some (fun _ => false) |} coordinates) as Hres.
  rewrite Hpass in Hres. simpl in Hres.
  pose proof (sampling_loop_outcome host
                {| timeout := Some 10000; onProgress := true;
                   signal := Some (fun _ => false) |}
                (length coordinates) coordinates 0 (new_HitRegionMap None) [])
    as Hout.
  rewrite <- Hres in Hout. destruct err as [|t].
  - destruct Hout as (k & _ & _ & Habs). done.
  - destruct Hout as (-> & k & Hk & _ & _ & Hlate). exists k.
    split; [done|]. split; [done|]. exact Hlate.
Qed.

(** Reading the fields of a state that is given by assignments. *)
Ltac fields :=
  cbn beta iota zeta delta
    [configManager storageListener currentConfig hitRegionMap renderer
     currentlySelectedElement mutationObserver resizeObserver
     mutationDebounceTimer resizeDebounceTimer calculationAbortController
     progressIndicator progressTimeouts animationFrames set_configManager
     set_storageListener set_currentConfig set_hitRegionMap set_renderer
     set_currentlySelectedElement set_mutationObserver set_resizeObserver
     set_mutationDebounceTimer set_resizeDebounceTimer
     set_calculationAbortController set_progressIndicator
     set_progressTimeouts set_animationFrames].

Ltac fields_in Hyp :=
  cbn beta iota zeta delta
    [configManager storageListener currentConfig hitRegionMap renderer
     currentlySelectedElement mutationObserver resizeObserver
     mutationDebounceTimer resizeDebounceTimer calculationAbortController
     progressIndicator progressTimeouts animationFrames set_configManager
     set_storageListener set_currentConfig set_hitRegionMap set_renderer
     set_currentlySelectedElement set_mutationObserver set_resizeObserver
     set_mutationDebounceTimer set_resizeDebounceTimer
     set_calculationAbortController set_progressIndicator
     set_progressTimeouts set_animationFrames] in Hyp.

(** A state that is given by assignments to a record, as a record. *)
Ltac state :=
  lazy beta iota zeta delta
    [configManager storageListener currentConfig hitRegionMap renderer
     currentlySelectedElement mutationObserver resizeObserver
     mutationDebounceTimer resizeDebounceTimer calculationAbortController
     progressIndicator progressTimeouts animationFrames set_configManager
     set_storageListener set_currentConfig set_hitRegionMap set_renderer
     set_currentlySelectedElement set_mutationObserver set_resizeObserver
     set_mutationDebounceTimer set_resizeDebounceTimer
     set_calculationAbortController set_progressIndicator
     set_progressTimeouts set_animationFrames].

(** What [visualizeHitRegion] can change: the selection, the renderer and
    the callbacks requested. *)
Lemma visualizeHitRegion_footprint (w : World Elem) (element : option Elem)
    (st : Script Elem) :
  ∃ selected r frames,
    (visualizeHitRegion w element st).1
    = set_animationFrames frames
        (set_renderer r (set_currentlySelectedElement selected st)).
Proof.
  unfold visualizeHitRegion, clearVisualization. destruct st. fields.
  repeat case_match; cbn [fst]; eexists _, _, _; state; reflexivity.
Qed.

(** What [calculateHitRegions] does to the state: a pass that returns
    gives the map and leaves no timer of its own; a call that throws leaves
    the map as it is and its timer pending; the indicator is hidden and the
    abort controller unset in both cases. *)
Lemma calculateHitRegions_spec (w : World Elem) (st st' : Script Elem)
    (err : option ScriptError) :
  calculateHitRegions w st = Some (st', err) →
  ∃ m,
    st' = set_calculationAbortController false
            (set_progressIndicator (progressIndicator (hideProgressIndicator st))
               (set_progressTimeouts
                  (match err with
                   | None => progressTimeouts st
                   | Some _ => S (progressTimeouts st)
                   end)
                  (set_hitRegionMap
                     (match err with
                      | None => Some m
                      | Some _ => hitRegionMap st
                      end) st)))
    ∧ match err with
      | None =>
          ∃ config resolution trace,
            currentConfig st = Some config
            ∧ resolution_argument (Config.get config "samplingResolution")
              = Some resolution
            ∧ calculate (fuel w) (host w) resolution
                (Some {| timeout := Some 10000; onProgress := true;
                         signal := Some (fun _ => false) |})
              = Some (Returned m, trace)
      | Some TypeError => currentConfig st = None
      | Some (PassError e) =>
          e = ExceededTimeout 10000
          ∧ ∃ k, 10000 < performanceNow (host w) (S k) - performanceNow (host w) 0
      end.
Proof.
  unfold calculateHitRegions. intros Hcalc. fields_in Hcalc.
  destruct (currentConfig st) as [config|] eqn:Hconfig.
  - destruct (resolution_argument _) as [resolution|] eqn:Hres; [|done].
    destruct (calculate _ _ _ _) as [[[m|e] trace]|] eqn:Hpass; [| |done].
    + injection Hcalc as <- <-. exists m. split; [|by eexists _, _, _].
      unfold hideProgressIndicator.
      destruct st as [? ? ? ? ? ? ? ? ? ? ? [[|]|] ? ?]; state; reflexivity.
    + injection Hcalc as <- <-. exists (new_HitRegionMap None).
      split; [|by eapply script_pass_error].
      unfold hideProgressIndicator.
      destruct st as [? ? ? ? ? ? ? ? ? ? ? [[|]|] ? ?]; state; reflexivity.
  - injection Hcalc as <- <-. exists (new_HitRegionMap None). split; [|done].
    unfold hideProgressIndicator.
    destruct st as [? ? ? ? ? ? ? ? ? ? ? [[|]|] ? ?]; state; reflexivity.
Qed.

(** Reading a field after [calculateHitRegions] or [visualizeHitRegion]. *)
Ltac footprints :=
  repeat match goal with
    | Hcalc : calculateHitRegions _ _ = Some (_, _) |- _ =>
        apply calculateHitRegions_spec in Hcalc as (? & -> & ?)
    | |- context [(visualizeHitRegion ?w ?element ?st).1] =>
        let Hvis := fresh in
        destruct (visualizeHitRegion_footprint w element st)
          as (? & ? & ? & Hvis);
        rewrite Hvis; clear Hvis
    | Hvis : visualizeHitRegion ?w ?element ?st = (_, _) |- _ =>
        let Hfoot := fresh in
        destruct (visualizeHitRegion_footprint w element st)
          as (? & ? & ? & Hfoot);
        rewrite Hvis in Hfoot; simpl in Hfoot; subst; clear Hvis
    end.

Lemma handlePageChanges_controller (w : World Elem) (st st' : Script Elem) :
  handlePageChanges w st = Some st' →
  calculationAbortController st = false →
  calculationAbortController st' = false.
Proof.
  unfold handlePageChanges, clearVisualization. intros Hhandle Hst.
  repeat case_match; simplify_eq; footprints; simpl; done.
Qed.

Lemma onConfigurationChanged_controller (w : World Elem)
    (oldConfig newConfig : Config.Configuration) (st st' : Script Elem) :
  onConfigurationChanged w oldConfig newConfig st = Some st' →
  calculationAbortController st = false →
  calculationAbortController st' = false.
Proof.
  unfold onConfigurationChanged. intros Hchanged Hst.
  destruct (negb (data_strict_equals _ _)).
  - destruct (calculateHitRegions _ _) as [[st2 err]|] eqn:Hcalc; [|done].
    simpl in Hchanged. repeat case_match; simplify_eq; footprints; simpl; done.
  - repeat case_match; simplify_eq; footprints; simpl; done.
Qed.

Lemma notify_controller (w : World Elem)
    (calls : list (nat * Config.Configuration * Config.Configuration))
    (st st' : Script Elem) :
  notify w calls st = Some st' →
  calculationAbortController st = false →
  calculationAbortController st' = false.
Proof.
  revert st. induction calls as [|[[listener oldConfig] newConfig] calls IH];
    intros st Hnotify Hst; simpl in Hnotify.
  - by simplify_eq.
  - destruct (onConfigurationChanged _ _ _ _) as [st1|] eqn:Hchanged; [|done].
    eapply IH; [done|]. by eapply onConfigurationChanged_controller.
Qed.

Lemma onMessage_controller (w : World Elem) (message : Message) (st : Script Elem) :
  calculationAbortController st = false →
  calculationAbortController (onMessage w message st).1 = false.
Proof.
  unfold onMessage, cancelCalculation, clearVisualization. intros Hst.
  repeat case_match; simplify_eq; footprints; simpl; done.
Qed.

Lemma step_controller (w : World Elem) (task : Task) (st st' : Script Elem) :
  step w task st = Some st' →
  calculationAbortController st = false →
  calculationAbortController st' = false.
Proof.
  destruct task; simpl; intros Hstep Hst.
  - simplify_eq. by apply onMessage_controller.
  - repeat case_match; simplify_eq; try done.
    by eapply notify_controller.
  - by repeat case_match; simplify_eq.
  - by repeat case_match; simplify_eq.
  - repeat case_match; simplify_eq; try done.
    by eapply handlePageChanges_controller.
  - unfold resize_timeout in Hstep. repeat case_match; simplify_eq; try done;
      by eapply handlePageChanges_controller.
  - unfold showProgressIndicator in Hstep. by repeat case_match; simplify_eq.
  - by simplify_eq.
Qed.

(** A property that the tasks keep holds after a run. *)
Lemma run_preserves (P : Script Elem → Prop) (Q : World Elem → Prop)
    (tasks : list (World Elem * Task)) (st st' : Script Elem) :
  (∀ w task st1 st2, Q w → P st1 → step w task st1 = Some st2 → P st2) →
  Forall (fun wt => Q wt.1) tasks →
  P st → run tasks st = Some st' → P st'.
Proof.
  intros Hstep. revert st. induction tasks as [|[w task] tasks IH];
    intros st Hall Hst Hrun; simpl in Hrun.
  - by simplify_eq.
  - destruct (step w task st) as [st1|] eqn:Hst1; [|done].
    inversion Hall as [|? ? Hw Hrest]; subst.
    eapply IH; [done| |done]. by eapply Hstep.
Qed.

Lemma initialize_controller (w : World Elem) (answer : Config.StorageGet)
    (st : Script Elem) :
  initialize w answer initial = Some st → calculationAbortController st = false.
Proof.
  unfold initialize. intros Hinit.
  repeat case_match; simplify_eq; footprints; simpl; done.
Qed.

(** X19. Cancellation never takes effect: the abort controller is set
    only while [calculateHitRegions] runs, which it does without giving way
    to another task, so that after the initialisation and any run of tasks
    the controller is unset, a [cancelCalculation] message is answered with
    [cancelled: false] and changes nothing, and a pass that the script runs
    and that throws has timed out. *)
Theorem cancelCalculation_never (w : World Elem) (answer : Config.StorageGet)
    (tasks : list (World Elem * Task)) (st : Script Elem) :
  session w answer tasks = Some st →
  calculationAbortController st = false
  ∧ (∀ w' elementId,
       onMessage w' (MsgValue (DString "cancelCalculation") elementId) st
       = (st, [RespCancelled false]))
  ∧ (∀ w' st' err,
       calculateHitRegions w' st = Some (st', Some (PassError err)) →
       err = ExceededTimeout 10000).
Proof.
  unfold session. intros Hsession.
  destruct (initialize w answer initial) as [st0|] eqn:Hinit; [|done].
  assert (Hst : calculationAbortController st = false).
  { eapply (run_preserves (fun st => calculationAbortController st = false)
              (fun _ => True)); [| |by eapply initialize_controller|done].
    - intros w' task st1 st2 _ Hst1 Hstep. by eapply step_controller.
    - by apply Forall_forall. }
  split; [done|]. split.
  - intros w' elementId. unfold onMessage, cancelCalculation.
    by rewrite Hst.
  - intros w' st' err. unfold calculateHitRegions. intros Hcalc.
    repeat case_match; simplify_eq.
    by eapply script_pass_error.
Qed.

(** [renderHitRegion] on a renderer that has its canvas: the canvas is
    cleared and the callback requested. *)
Lemma renderHitRegion_ready (page : Renderer.Page) (r : Renderer.CanvasRenderer)
    (c : Renderer.Canvas) (coord : option Coordinate)
    (coordinates : list (option Coordinate)) (color opacity : JsData) :
  Renderer.canvas r = Some c →
  Renderer.renderHitRegion page r (Some (coord :: coordinates)) color opacity
  = (Renderer.clear r,
     Some {| Renderer.frame_coordinates := coord :: coordinates;
             Renderer.frame_color := Renderer.color_used color;
             Renderer.frame_opacity := Renderer.opacity_used opacity |}).
Proof. intros Hc. unfold Renderer.renderHitRegion. by rewrite Hc. Qed.

(** The renderer [visualizeHitRegion] draws with: the one it has when that
    has its overlay, and otherwise the one [createOverlay] leaves. *)
Lemma overlay_ready (w : World Elem) (r : Renderer.CanvasRenderer) :
  (Renderer.hasOverlay r = true ∧ ∃ c, Renderer.canvas r = Some c)
  ∨ (Renderer.hasOverlay r = false
     ∧ Renderer.document_body (page w) && Renderer.getContext_2d (page w) = true
     ∧ ∃ r' c, Renderer.createOverlay (page w) r = (r', Some c)
               ∧ Renderer.canvas r' = Some c ∧ Renderer.hasOverlay r' = true)
  ∨ (Renderer.hasOverlay r = false
     ∧ Renderer.document_body (page w) && Renderer.getContext_2d (page w) = false
     ∧ ∃ r', Renderer.createOverlay (page w) r = (r', None)).
Proof.
  destruct (Renderer.hasOverlay r) eqn:Hhas.
  - left. split; [done|]. unfold Renderer.hasOverlay in Hhas.
    destruct (Renderer.canvas r); [by eexists|done].
  - right. unfold Renderer.createOverlay.
    destruct (Renderer.document_body (page w)),
      (Renderer.getContext_2d (page w)); simpl;
      [left|right..]; (split; [done|]); (split; [done|]);
      by eexists _, _ || by eexists.
Qed.

(** X20. When a hit region is shown: [visualizeHitRegion] returns [true]
    exactly when the element is given and in the document, a map has been
    calculated in which the element has coordinates, and the renderer and
    the configuration are set and the overlay exists or can be created.
    The element is then the selection, the overlay exists, and one callback
    has been requested that paints the coordinates of the element in the
    configured colour and opacity, or the defaults of the renderer where
    these are not acceptable. *)
Theorem visualizeHitRegion_true_iff (w : World Elem) (element : option Elem)
    (st : Script Elem) :
  ((visualizeHitRegion w element st).2 = true
   ↔ ∃ e m r config,
       element = Some e ∧ contains w e = true
       ∧ hitRegionMap st = Some m ∧ getCoordinates m (Some e) ≠ []
       ∧ renderer st = Some r ∧ currentConfig st = Some config
       ∧ (Renderer.hasOverlay r = true
          ∨ Renderer.document_body (page w) && Renderer.getContext_2d (page w)
            = true))
  ∧ ((visualizeHitRegion w element st).2 = true →
     ∃ m config r',
       hitRegionMap st = Some m ∧ currentConfig st = Some config
       ∧ currentlySelectedElement (visualizeHitRegion w element st).1 = element
       ∧ renderer (visualizeHitRegion w element st).1 = Some r'
       ∧ Renderer.hasOverlay r' = true
       ∧ animationFrames (visualizeHitRegion w element st).1
         = animationFrames st
           ++ [{| Renderer.frame_coordinates :=
                    map Some (getCoordinates m element);
                  Renderer.frame_color :=
                    Renderer.color_used (Config.get config "highlightColor");
                  Renderer.frame_opacity :=
                    Renderer.opacity_used
                      (Config.get config "highlightOpacity") |}]).
Proof.
  unfold visualizeHitRegion.
  destruct element as [e|]; [|split; [split; [done|]|done]; by intros (? & ? & ? & ? & ? & _)].
  destruct (contains w e) eqn:Hin; cbn [negb];
    [|split; [split; [done|]|done]; intros (? & ? & ? & ? & ? & ? & _); congruence].
  destruct (hitRegionMap st) as [m|] eqn:Hmap;
    [|split; [split; [done|]|done]; by intros (? & ? & ? & ? & ? & ? & ? & _)].
  fields.
  destruct (getCoordinates m (Some e)) as [|coord coords] eqn:Hcoords.
  { split; [split; [done|]|done].
    intros (? & ? & ? & ? & ? & ? & ? & ? & _). simplify_eq. }
  destruct (renderer st) as [r|] eqn:Hr;
    [|split; [split; [done|]|done];
      by intros (? & ? & ? & ? & ? & ? & ? & ? & ? & _)].
  destruct (overlay_ready w r)
    as [(Hhas & c & Hc)|[(Hhas & Hpage & r' & c & Hcreate & Hc & Hhas')
                        |(Hhas & Hpage & r' & Hcreate)]];
    rewrite Hhas; try rewrite Hcreate; fields.
  - destruct (currentConfig st) as [config|] eqn:Hconfig.
    + cbn [map]. rewrite (renderHitRegion_ready _ _ c) by done.
      cbn [fst snd]. fields.
      split; [split; [intros _|done]|].
      { eexists e, m, r, config. rewrite Hcoords. by repeat split; auto. }
      intros _. exists m, config, (Renderer.clear r). rewrite Hcoords.
      repeat split; try done.
      unfold Renderer.hasOverlay, Renderer.clear in *. rewrite Hc in *.
      destruct (Renderer.ctx r); simpl; [done|by rewrite Hc].
    + split; [split; [done|]|done].
      by intros (? & ? & ? & ? & ? & ? & ? & ? & ? & ? & _).
  - destruct (currentConfig st) as [config|] eqn:Hconfig.
    + cbn [map]. rewrite (renderHitRegion_ready _ _ c) by done.
      cbn [fst snd]. fields.
      split; [split; [intros _|done]|].
      { eexists e, m, r, config. rewrite Hcoords. by repeat split; auto. }
      intros _. exists m, config, (Renderer.clear r'). rewrite Hcoords.
      repeat split; try done.
      unfold Renderer.hasOverlay, Renderer.clear in *. rewrite Hc in *.
      destruct (Renderer.ctx r'); simpl; [done|by rewrite Hc].
    + split; [split; [done|]|done].
      by intros (? & ? & ? & ? & ? & ? & ? & ? & ? & ? & _).
  - split; [split; [done|]|done].
    intros (? & ? & ? & ? & ? & ? & ? & ? & ? & ? & [?|?]); simplify_eq;
      congruence.
Qed.

Lemma visualizeHitRegion_no_map (w : World Elem) (element : option Elem)
    (st : Script Elem) :
  hitRegionMap st = None →
  visualizeHitRegion w element st = (st, false)
  ∨ visualizeHitRegion w element st = (clearVisualization st, false).
Proof.
  intros Hmap. unfold visualizeHitRegion. rewrite Hmap.
  destruct element as [e|]; [|by left].
  destruct (negb (contains w e)); [by right|by left].
Qed.

Lemma clearVisualization_inert (st : Script Elem) :
  inert st → inert (clearVisualization st).
Proof.
  unfold inert, clearVisualization.
  intros (? & ? & ? & ? & ? & ? & ? & ? & Hr & ?). fields.
  rewrite Hr. by repeat split.
Qed.

Lemma onMessage_inert (w : World Elem) (message : Message) (st : Script Elem) :
  inert st → inert (onMessage w message st).1.
Proof.
  intros Hst. pose proof Hst as (Hmap & _ & _ & _ & _ & _ & Hcontroller & _).
  unfold onMessage. destruct message as [|[| | |t| |] elementId]; try done.
  destruct (_ || _).
  - destruct (findElementByIdentifier w elementId) as [e|]; [|done].
    destruct (visualizeHitRegion_no_map w (Some e) st Hmap) as [-> | ->];
      [done|by apply clearVisualization_inert].
  - destruct (bool_decide (t = "elementDeselected"));
      [by apply clearVisualization_inert|].
    destruct (bool_decide (t = "cancelCalculation")); [|done].
    unfold cancelCalculation. by rewrite Hcontroller.
Qed.

Lemma step_inert (w : World Elem) (task : Task) (st : Script Elem) :
  inert st → ∃ st', step w task st = Some st' ∧ inert st'.
Proof.
  intros Hst.
  pose proof Hst as (Hmap & Hlisten & Hmo & Hro & Hmt & Hrt & Hc & Hsel & Hr & Hfr).
  destruct task; simpl.
  - eexists. split; [done|]. by apply onMessage_inert.
  - rewrite Hlisten. by eexists.
  - rewrite Hmo. by eexists.
  - rewrite Hro. by eexists.
  - rewrite Hmt. by eexists.
  - rewrite Hrt. by eexists.
  - destruct (progressTimeouts st) as [|n]; [by eexists|].
    eexists. split; [done|]. unfold showProgressIndicator. fields.
    destruct (progressIndicator st); unfold inert; by fields.
  - eexists. split; [done|]. unfold inert. fields. rewrite Hr, Hfr.
    by repeat split.
Qed.

Lemma run_inert (tasks : list (World Elem * Task)) (st : Script Elem) :
  inert st → ∃ st', run tasks st = Some st' ∧ inert st'.
Proof.
  revert st. induction tasks as [|[w task] tasks IH]; intros st Hst; simpl.
  - by eexists.
  - destruct (step_inert w task st Hst) as (st1 & -> & Hst1). by apply IH.
Qed.

Lemma initialize_failed (w : World Elem) (answer : Config.StorageGet)
    (st : Script Elem) :
  initialize w answer initial = Some st → hitRegionMap st = None →
  inert st ∧ progressTimeouts st = 1%nat ∧ progressIndicator st = None.
Proof.
  unfold initialize.
  destruct (Config.loadConfiguration _ _) as [cm config].
  destruct (calculateHitRegions _ _) as [[st1 [err|]]|] eqn:Hcalc; [| |done].
  - intros [= <-] _. apply calculateHitRegions_spec in Hcalc as (m & -> & _).
    unfold inert, hideProgressIndicator. by fields.
  - apply calculateHitRegions_spec in Hcalc as (m & -> & _).
    destruct (Renderer.document_body (page w)); intros [= <-]; by fields.
Qed.

(** A task that runs before [initialize] has the answer of the store
    leaves the state as it is when the script is loaded. *)
Lemma run_initial (tasks : list (World Elem * Task)) :
  run tasks (initial : Script Elem) = Some initial.
Proof.
  induction tasks as [|[w task] tasks IH]; [done|].
  cbn [run].
  assert (step w task initial = Some initial) as ->; [|done].
  destruct task as [message| | | | | | |]; try done.
  cbn [step]. f_equal. unfold onMessage.
  destruct message as [|[| | |t| |] elementId]; try done.
  destruct (_ || _).
  - destruct (findElementByIdentifier w elementId) as [e|]; [|done].
    by destruct (visualizeHitRegion_no_map w (Some e) initial eq_refl)
      as [-> | ->].
  - destruct (bool_decide (t = "elementDeselected")); [done|].
    by destruct (bool_decide (t = "cancelCalculation")).
Qed.

(** X21. A first pass that throws is final: when the pass of
    [initialize] times out, no listener and no observer is set up, so that
    whatever tasks follow, the script never calculates again: it keeps no
    map, requests nothing of the renderer, and answers every
    [elementSelected] and [elementHovered] message with a failure. *)
Theorem failed_first_pass_final (w : World Elem) (answer : Config.StorageGet)
    (st0 : Script Elem) (tasks : list (World Elem * Task)) :
  initialize w answer initial = Some st0 →
  hitRegionMap st0 = None →
  ∃ st, run tasks st0 = Some st
        ∧ inert st
        ∧ ∀ w' t elementId,
            t = "elementSelected" ∨ t = "elementHovered" →
            (onMessage w' (MsgValue (DString t) elementId) st).2
            = [RespSuccess false]
            ∨ (onMessage w' (MsgValue (DString t) elementId) st).2
              = [RespElementNotFound].
Proof.
  intros Hinit Hmap.
  destruct (initialize_failed w answer st0 Hinit Hmap) as (Hst0 & _).
  destruct (run_inert tasks st0 Hst0) as (st & Hrun & Hst).
  exists st. split; [done|]. split; [done|].
  intros w' t elementId Ht. unfold onMessage.
  assert (bool_decide (t = "elementSelected") || bool_decide (t = "elementHovered")
          = true) as ->.
  { destruct Ht as [-> | ->]; done. }
  destruct (findElementByIdentifier w' elementId) as [e|]; [|by right].
  destruct Hst as (Hnone & _).
  by destruct (visualizeHitRegion_no_map w' (Some e) st Hnone) as [-> | ->]; left.
Qed.

(** The selection after [visualizeHitRegion] of an element that is in the
    document, a map being there. *)
Lemma visualizeHitRegion_selection (w : World Elem) (e : Elem) (st : Script Elem)
    (m : HitRegionMap Elem) :
  contains w e = true → hitRegionMap st = Some m →
  currentlySelectedElement (visualizeHitRegion w (Some e) st).1
  = match getCoordinates m (Some e) with [] => None | _ :: _ => Some e end.
Proof.
  intros Hin Hmap. unfold visualizeHitRegion, clearVisualization.
  rewrite Hin, Hmap. cbn [negb].
  destruct (getCoordinates m (Some e)) as [|coord coords]; [done|].
  fields. repeat case_match; by fields.
Qed.

(** X22. What [handlePageChanges] leaves: the map never keeps coordinates
    from before the change.  With [autoRecalculate] off it is emptied and
    the selection and the canvas are cleared.  With it on and the pass
    timing out, it is emptied too, while the selection, the renderer and the
    callbacks requested stay as they were, so that the overlay keeps the
    region from before the change.  Otherwise it is the map of the new pass,
    and the selection is kept exactly when the element is still in the
    document and has coordinates in the new map. *)
Theorem handlePageChanges_outcomes (w : World Elem) (st st' : Script Elem)
    (m : HitRegionMap Elem) :
  handlePageChanges w st = Some st' →
  hitRegionMap st = Some m →
  let recalculate :=
    match currentConfig st with
    | Some config => truthy_data (Config.get config "autoRecalculate")
    | None => false
    end in
  (recalculate = false
   ∧ hitRegionMap st' = Some (clear m)
   ∧ currentlySelectedElement st' = None
   ∧ renderer st' = option_map Renderer.clear (renderer st))
  ∨ (recalculate = true
     ∧ (∃ k, 10000 < performanceNow (host w) (S k) - performanceNow (host w) 0)
     ∧ hitRegionMap st' = Some (clear m)
     ∧ currentlySelectedElement st' = currentlySelectedElement st
     ∧ renderer st' = renderer st
     ∧ animationFrames st' = animationFrames st)
  ∨ (recalculate = true
     ∧ ∃ m' config resolution trace,
         currentConfig st = Some config
         ∧ resolution_argument (Config.get config "samplingResolution")
           = Some resolution
         ∧ calculate (fuel w) (host w) resolution
             (Some {| timeout := Some 10000; onProgress := true;
                      signal := Some (fun _ => false) |})
           = Some (Returned m', trace)
         ∧ hitRegionMap st' = Some m'
         ∧ currentlySelectedElement st'
           = match currentlySelectedElement st with
             | Some e =>
                 if contains w e
                 then match getCoordinates m' (Some e) with
                      | [] => None
                      | _ :: _ => Some e
                      end
                 else None
             | None => None
             end).
Proof.
  unfold handlePageChanges. intros Hhandle Hmap. rewrite Hmap in Hhandle.
  fields_in Hhandle. simpl.
  destruct (match currentConfig st with Some _ => _ | None => _ end) eqn:Hauto.
  - right.
    destruct (calculateHitRegions _ _) as [[st2 [err|]]|] eqn:Hcalc; [| |done].
    + left. apply (inj Some) in Hhandle. subst st'.
      apply calculateHitRegions_spec in Hcalc as (m2 & -> & Herr).
      fields_in Herr. fields. destruct err as [e|].
      * destruct Herr as [_ Hlate]. by repeat split.
      * by rewrite Herr in Hauto.
    + right. split; [done|].
      apply calculateHitRegions_spec in Hcalc
        as (m' & -> & config & resolution & trace & Hconfig & Hres & Hpass).
      fields_in Hconfig. fields_in Hhandle.
      exists m', config, resolution, trace.
      split; [done|]. split; [done|]. split; [done|].
      destruct (currentlySelectedElement st) as [e|] eqn:Hsel.
      * destruct (contains w e) eqn:Hin; apply (inj Some) in Hhandle; subst st'.
        -- split; [footprints; by fields|].
           by apply visualizeHitRegion_selection.
        -- unfold clearVisualization. by fields.
      * apply (inj Some) in Hhandle. subst st'. by fields.
  - left. apply (inj Some) in Hhandle. subst st'.
    unfold clearVisualization. by fields.
Qed.

(** The fields of the configuration that only [initialize] and the
    listener of the store assign. *)
Lemma handlePageChanges_configuration (w : World Elem) (st st' : Script Elem) :
  handlePageChanges w st = Some st' →
  configManager st' = configManager st
  ∧ storageListener st' = storageListener st
  ∧ currentConfig st' = currentConfig st.
Proof.
  unfold handlePageChanges, clearVisualization. intros Hhandle.
  repeat case_match; try discriminate Hhandle;
    apply (inj Some) in Hhandle; subst st';
    footprints; by fields.
Qed.

Lemma onMessage_configuration (w : World Elem) (message : Message)
    (st : Script Elem) :
  configManager (onMessage w message st).1 = configManager st
  ∧ storageListener (onMessage w message st).1 = storageListener st
  ∧ currentConfig (onMessage w message st).1 = currentConfig st.
Proof.
  unfold onMessage, cancelCalculation, clearVisualization, hideProgressIndicator.
  repeat case_match; simplify_eq; cbn [fst]; footprints; by fields.
Qed.

Lemma onConfigurationChanged_configuration (w : World Elem)
    (oldConfig newConfig : Config.Configuration) (st st' : Script Elem) :
  onConfigurationChanged w oldConfig newConfig st = Some st' →
  configManager st' = configManager st
  ∧ storageListener st' = storageListener st
  ∧ currentConfig st' = Some newConfig.
Proof.
  unfold onConfigurationChanged. intros Hchanged.
  destruct (negb (data_strict_equals _ _)).
  - destruct (calculateHitRegions _ _) as [[st2 err]|] eqn:Hcalc; [|done].
    cbn [option_map fst] in Hchanged.
    repeat case_match; try discriminate Hchanged;
      apply (inj Some) in Hchanged; subst st'; footprints; by fields.
  - repeat case_match; try discriminate Hchanged;
      apply (inj Some) in Hchanged; subst st'; footprints; by fields.
Qed.

Lemma step_configuration (w : World Elem) (task : Task) (st st' : Script Elem) :
  step w task st = Some st' →
  (∀ change areaName, task ≠ OnStorageChanged change areaName) →
  configManager st' = configManager st
  ∧ storageListener st' = storageListener st
  ∧ currentConfig st' = currentConfig st.
Proof.
  destruct task as [message|change areaName|mutations| | | | |];
    cbn [step]; intros Hstep Htask.
  - apply (inj Some) in Hstep. subst st'. apply onMessage_configuration.
  - by destruct (Htask change areaName).
  - unfold handleMutation in Hstep.
    repeat case_match; try discriminate Hstep;
      apply (inj Some) in Hstep; subst st'; by fields.
  - unfold handleResize in Hstep.
    repeat case_match; try discriminate Hstep;
      apply (inj Some) in Hstep; subst st'; by fields.
  - destruct (mutationDebounceTimer st); [|by simplify_eq].
    apply handlePageChanges_configuration in Hstep. by fields_in Hstep.
  - destruct (resizeDebounceTimer st); [|by simplify_eq].
    unfold resize_timeout in Hstep.
    apply handlePageChanges_configuration in Hstep.
    fields_in Hstep. repeat case_match; by fields_in Hstep.
  - unfold showProgressIndicator in Hstep.
    repeat case_match; try discriminate Hstep;
      apply (inj Some) in Hstep; subst st'; by fields.
  - apply (inj Some) in Hstep. subst st'. by fields.
Qed.

(** The listener of the store, once [initialize] has run to its end: the
    manager takes the new value over the defaults, and the script the new
    value as it is. *)
Lemma step_storage_changed (w : World Elem)
    (oldValue newValue : option Config.Configuration) (st st' : Script Elem)
    (cm : Config.ConfigurationManager) :
  storageListener st = true →
  configManager st = Some cm →
  Config.changeListeners cm = [0%nat] →
  step w (OnStorageChanged (Some (oldValue, newValue)) "sync") st = Some st' →
  storageListener st' = true
  ∧ configManager st'
    = Some {| Config.currentConfig :=
                Config.spread Config.DEFAULT_CONFIG (default ∅ newValue);
              Config.changeListeners := [0%nat] |}
  ∧ currentConfig st' = Some (default ∅ newValue).
Proof.
  intros Hlisten Hcm Hlisteners. cbn [step]. rewrite Hlisten, Hcm.
  unfold Config.onStorageChanged. rewrite Hlisteners.
  rewrite decide_True by done. cbn [map notify].
  destruct (onConfigurationChanged _ _ _ _) as [st1|] eqn:Hchanged; [|done].
  intros Hstep. apply (inj Some) in Hstep. subst st'.
  apply onConfigurationChanged_configuration in Hchanged
    as (Hcm1 & Hlisten1 & Hconfig1).
  fields_in Hcm1. fields_in Hlisten1. by rewrite Hcm1, Hlisten1, Hconfig1.
Qed.

Lemma step_listening (w : World Elem) (task : Task) (st st' : Script Elem) :
  listening st → step w task st = Some st' → listening st'.
Proof.
  intros Hst Hstep.
  assert (Hcases : (∃ change areaName, task = OnStorageChanged change areaName)
                   ∨ ∀ change areaName, task ≠ OnStorageChanged change areaName).
  { destruct task; try (by right); left; by eexists _, _. }
  destruct Hcases as [(change & areaName & ->)|Hother].
  - unfold listening in *. cbn [step] in Hstep.
    destruct (storageListener st) eqn:Hlisten.
    + destruct Hst as (cm & Hcm & Hlisteners); [done|]. rewrite Hcm in Hstep.
      unfold Config.onStorageChanged in Hstep.
      destruct change as [[oldValue newValue]|].
      * destruct (decide (areaName = "sync")) as [->|Harea].
        -- intros _. eexists. eapply step_storage_changed in Hlisten
             as (_ & Hcm' & _); [done|done|done|].
           cbn [step]. rewrite Hlisten, Hcm. unfold Config.onStorageChanged.
           rewrite decide_True by done. exact Hstep.
        -- cbn [notify] in Hstep. apply (inj Some) in Hstep. subst st'.
           fields. rewrite Hlisten. intros _. by exists cm.
      * cbn [notify] in Hstep. apply (inj Some) in Hstep. subst st'.
        fields. intros _. by exists cm.
    + apply (inj Some) in Hstep. subst st'. by rewrite Hlisten.
  - eapply step_configuration in Hstep as (Hcm & Hlisten & _); [|done].
    unfold listening. by rewrite Hcm, Hlisten.
Qed.

Lemma initialize_listening (w : World Elem) (answer : Config.StorageGet)
    (st : Script Elem) :
  initialize w answer initial = Some st → listening st.
Proof.
  unfold initialize, listening.
  destruct (Config.loadConfiguration _ _) as [cm config] eqn:Hload.
  assert (Config.changeListeners cm = []) as Hnone.
  { unfold Config.loadConfiguration in Hload.
    destruct answer; by simplify_eq. }
  destruct (calculateHitRegions _ _) as [[st1 [err|]]|] eqn:Hcalc; [| |done];
    apply calculateHitRegions_spec in Hcalc as (m & -> & _).
  - intros Hinit. apply (inj Some) in Hinit. subst st. by fields.
  - destruct (Renderer.document_body (page w)); intros Hinit;
      apply (inj Some) in Hinit; subst st; fields; intros _;
      eexists; (split; [done|]); unfold Config.addChangeListener;
      simpl; by rewrite Hnone.
Qed.

(** X23. The script keeps the stored value, not the merged one: when the
    store changes after [initialize] has run to its end, the manager makes
    the new value over the defaults current, but the listener of the script
    takes the new value as it is.  When that value has no
    [autoRecalculate], as after the stored object was removed, a later page
    change empties the map and clears the selection without a new pass,
    although the default of the setting is [true]. *)
Theorem storage_change_unmerged (w : World Elem) (answer : Config.StorageGet)
    (tasks : list (World Elem * Task)) (st st' : Script Elem) (w' : World Elem)
    (oldValue newValue : option Config.Configuration) :
  session w answer tasks = Some st →
  storageListener st = true →
  step w' (OnStorageChanged (Some (oldValue, newValue)) "sync") st = Some st' →
  currentConfig st' = Some (default ∅ newValue)
  ∧ (∃ cm, configManager st' = Some cm
           ∧ Config.currentConfig cm
             = Config.spread Config.DEFAULT_CONFIG (default ∅ newValue))
  ∧ (default ∅ newValue !! "autoRecalculate" = None →
     Config.get (Config.spread Config.DEFAULT_CONFIG (default ∅ newValue))
       "autoRecalculate" = DBoolean true
     ∧ ∀ w'' st'',
         handlePageChanges w'' st' = Some st'' →
         hitRegionMap st'' = option_map clear (hitRegionMap st')
         ∧ currentlySelectedElement st'' = None).
Proof.
  unfold session. intros Hsession Hlisten Hstep.
  destruct (initialize w answer initial) as [st0|] eqn:Hinit; [|done].
  assert (Hst : listening st).
  { eapply (run_preserves listening (fun _ => True));
      [| |by eapply initialize_listening|done].
    - intros w1 task st1 st2 _ Hst1 Hstep1. by eapply step_listening.
    - by apply Forall_forall. }
  destruct (Hst Hlisten) as (cm & Hcm & Hlisteners).
  destruct (step_storage_changed w' oldValue newValue st st' cm Hlisten Hcm
              Hlisteners Hstep) as (_ & Hcm' & Hconfig').
  split; [done|]. split; [eexists; split; [exact Hcm'|done]|].
  intros Hnone.
  assert (Hauto : Config.get (default ∅ newValue) "autoRecalculate" = DUndefined).
  { unfold Config.get. by rewrite Hnone. }
  split.
  - unfold Config.get, Config.spread. rewrite lookup_union, Hnone.
    by vm_compute.
  - intros w'' st'' Hhandle. unfold handlePageChanges in Hhandle.
    assert (Hconfig : ∀ m, currentConfig (set_hitRegionMap m st')
                           = Some (default ∅ newValue)) by (intros; by fields).
    destruct (hitRegionMap st') as [m|] eqn:Hmap.
    + rewrite Hconfig, Hauto in Hhandle. cbn [truthy_data] in Hhandle.
      apply (inj Some) in Hhandle. subst st''.
      unfold clearVisualization. by fields.
    + rewrite Hconfig', Hauto in Hhandle. cbn [truthy_data] in Hhandle.
      apply (inj Some) in Hhandle. subst st''.
      unfold clearVisualization. fields. by rewrite Hmap.
Qed.

(** A pass of the script in a page that is in time returns. *)
Lemma calculateHitRegions_in_time (w : World Elem) (st st' : Script Elem)
    (err : option ScriptError) (config : Config.Configuration) :
  in_time w → currentConfig st = Some config →
  calculateHitRegions w st = Some (st', err) →
  err = None
  ∧ (progressIndicator st = None → progressIndicator st' = None)
  ∧ progressTimeouts st' = progressTimeouts st
  ∧ currentlySelectedElement st' = currentlySelectedElement st
  ∧ currentConfig st' = currentConfig st.
Proof.
  intros Htime Hconfig Hcalc.
  assert (Hreturns : ∀ e, err ≠ Some (PassError e)).
  { intros e ->. unfold calculateHitRegions in Hcalc. fields_in Hcalc.
    rewrite Hconfig in Hcalc.
    destruct (resolution_argument _) as [resolution|]; [|done].
    destruct (calculate _ _ _ _) as [[[m|e'] trace]|] eqn:Hpass; try done.
    apply script_pass_late in Hpass as (coordinates & k & Hgrid & Hk & Hlate).
    specialize (Htime resolution coordinates k Hgrid Hk). lia. }
  apply calculateHitRegions_spec in Hcalc as (m & -> & Herr).
  destruct err as [[e|]|].
  - by destruct (Hreturns e).
  - congruence.
  - fields. repeat split; try done.
    intros Hind. unfold hideProgressIndicator. by rewrite Hind.
Qed.

Lemma handlePageChanges_indicator (w : World Elem) (st st' : Script Elem) :
  in_time w →
  progressIndicator st = None → progressTimeouts st = 0%nat →
  handlePageChanges w st = Some st' →
  progressIndicator st' = None ∧ progressTimeouts st' = 0%nat.
Proof.
  intros Htime Hind Htimeouts. unfold handlePageChanges.
  set (st1 := match hitRegionMap st with
              | Some m => set_hitRegionMap (Some (clear m)) st
              | None => st
              end).
  assert (Hst1 : progressIndicator st1 = None ∧ progressTimeouts st1 = 0%nat
                 ∧ currentConfig st1 = currentConfig st).
  { subst st1. destruct (hitRegionMap st); by fields. }
  destruct Hst1 as (Hind1 & Htimeouts1 & Hconfig1). rewrite Hconfig1.
  destruct (currentConfig st) as [config|] eqn:Hconfig.
  - destruct (truthy_data _).
    + destruct (calculateHitRegions w st1) as [[st2 err]|] eqn:Hcalc; [|done].
      eapply calculateHitRegions_in_time in Hcalc
        as (-> & Hind2 & Htimeouts2 & _); [|done|by rewrite Hconfig1].
      specialize (Hind2 Hind1). rewrite Htimeouts1 in Htimeouts2.
      intros Hhandle. repeat case_match; apply (inj Some) in Hhandle; subst st';
        try done; unfold clearVisualization; footprints; by fields.
    + intros Hhandle. apply (inj Some) in Hhandle. subst st'.
      unfold clearVisualization. by fields.
  - intros Hhandle. apply (inj Some) in Hhandle. subst st'.
    unfold clearVisualization. by fields.
Qed.

Lemma onConfigurationChanged_indicator (w : World Elem)
    (oldConfig newConfig : Config.Configuration) (st st' : Script Elem) :
  in_time w →
  progressIndicator st = None → progressTimeouts st = 0%nat →
  onConfigurationChanged w oldConfig newConfig st = Some st' →
  progressIndicator st' = None ∧ progressTimeouts st' = 0%nat.
Proof.
  intros Htime Hind Htimeouts. unfold onConfigurationChanged.
  set (st1 := set_currentConfig (Some newConfig) st).
  assert (Hst1 : progressIndicator st1 = None ∧ progressTimeouts st1 = 0%nat
                 ∧ currentConfig st1 = Some newConfig) by by (subst st1; fields).
  destruct Hst1 as (Hind1 & Htimeouts1 & Hconfig1).
  assert (Hrest : ∀ st2 : Script Elem,
            progressIndicator st2 = None → progressTimeouts st2 = 0%nat →
            match currentlySelectedElement st2 with
            | Some element =>
                if negb (data_strict_equals (Config.get oldConfig "highlightColor")
                           (Config.get newConfig "highlightColor"))
                   || negb (data_strict_equals
                              (Config.get oldConfig "highlightOpacity")
                              (Config.get newConfig "highlightOpacity"))
                then Some (visualizeHitRegion w (Some element) st2).1
                else Some st2
            | None => Some st2
            end = Some st' →
            progressIndicator st' = None ∧ progressTimeouts st' = 0%nat).
  { intros st2 Hind2 Htimeouts2 Hrest.
    repeat case_match; apply (inj Some) in Hrest; subst st'; try done.
    footprints. by fields. }
  destruct (negb (data_strict_equals (Config.get oldConfig "samplingResolution")
                    _)); [|by apply Hrest].
  destruct (calculateHitRegions w st1) as [[st2 err]|] eqn:Hcalc; [|done].
  eapply calculateHitRegions_in_time in Hcalc
    as (-> & Hind2 & Htimeouts2 & _); [|done|done].
  specialize (Hind2 Hind1). rewrite Htimeouts1 in Htimeouts2.
  cbn [option_map fst]. by apply Hrest.
Qed.

Lemma notify_indicator (w : World Elem)
    (calls : list (nat * Config.Configuration * Config.Configuration))
    (st st' : Script Elem) :
  in_time w →
  progressIndicator st = None → progressTimeouts st = 0%nat →
  notify w calls st = Some st' →
  progressIndicator st' = None ∧ progressTimeouts st' = 0%nat.
Proof.
  intros Htime. revert st.
  induction calls as [|[[listener oldConfig] newConfig] calls IH];
    intros st Hind Htimeouts Hnotify; cbn [notify] in Hnotify.
  - by simplify_eq.
  - destruct (onConfigurationChanged _ _ _ _) as [st1|] eqn:Hchanged; [|done].
    eapply onConfigurationChanged_indicator in Hchanged as [? ?]; [|done..].
    by eapply IH.
Qed.

Lemma onMessage_indicator (w : World Elem) (message : Message) (st : Script Elem) :
  progressIndicator st = None → progressTimeouts st = 0%nat →
  progressIndicator (onMessage w message st).1 = None
  ∧ progressTimeouts (onMessage w message st).1 = 0%nat.
Proof.
  intros Hind Htimeouts.
  unfold onMessage, cancelCalculation, clearVisualization, hideProgressIndicator.
  repeat case_match; simplify_eq; cbn [fst]; footprints; by fields.
Qed.

Lemma step_indicator (w : World Elem) (task : Task) (st st' : Script Elem) :
  in_time w →
  progressIndicator st = None ∧ progressTimeouts st = 0%nat →
  step w task st = Some st' →
  progressIndicator st' = None ∧ progressTimeouts st' = 0%nat.
Proof.
  intros Htime [Hind Htimeouts].
  destruct task as [message|change areaName|mutations| | | | |];
    cbn [step]; intros Hstep.
  - apply (inj Some) in Hstep. subst st'. by apply onMessage_indicator.
  - destruct (storageListener st); [|by simplify_eq].
    destruct (configManager st) as [cm|]; [|by simplify_eq].
    destruct (Config.onStorageChanged cm change areaName) as [cm' calls].
    eapply notify_indicator in Hstep; [done|done|by fields..].
  - unfold handleMutation in Hstep.
    repeat case_match; apply (inj Some) in Hstep; subst st'; by fields.
  - unfold handleResize in Hstep.
    repeat case_match; apply (inj Some) in Hstep; subst st'; by fields.
  - destruct (mutationDebounceTimer st); [|by simplify_eq].
    eapply handlePageChanges_indicator in Hstep; [done|done|by fields..].
  - destruct (resizeDebounceTimer st); [|by simplify_eq].
    unfold resize_timeout in Hstep.
    eapply handlePageChanges_indicator in Hstep; [done|done|..];
      fields; repeat case_match; by fields.
  - rewrite Htimeouts in Hstep. by simplify_eq.
  - apply (inj Some) in Hstep. subst st'. by fields.
Qed.

Lemma initialize_indicator (w : World Elem) (answer : Config.StorageGet)
    (st : Script Elem) :
  in_time w → initialize w answer initial = Some st →
  progressIndicator st = None ∧ progressTimeouts st = 0%nat.
Proof.
  intros Htime. unfold initialize.
  destruct (Config.loadConfiguration _ _) as [cm config].
  destruct (calculateHitRegions _ _) as [[st1 err]|] eqn:Hcalc; [|done].
  eapply calculateHitRegions_in_time in Hcalc
    as (-> & Hind & Htimeouts & _); [|done|by fields].
  fields_in Hind. fields_in Htimeouts. specialize (Hind eq_refl).
  destruct (Renderer.document_body (page w)); intros Hinit;
    apply (inj Some) in Hinit; subst st; by fields.
Qed.

(** X24. The progress indicator is not shown by a pass that returns: the
    timer that would show it is set and cleared within
    [calculateHitRegions], which does not give way to the timer in between.
    In a session in which no round of a pass reads the clock more than the
    timeout after the start of that pass, the indicator is never created and
    no timer of it is left pending, however long the passes take within
    that bound. *)
Theorem progress_indicator_unused (w : World Elem) (answer : Config.StorageGet)
    (tasks : list (World Elem * Task)) (st : Script Elem) :
  in_time w →
  Forall (fun wt => in_time wt.1) tasks →
  session w answer tasks = Some st →
  progressIndicator st = None ∧ progressTimeouts st = 0%nat.
Proof.
  unfold session. intros Htime Htimes Hsession.
  destruct (initialize w answer initial) as [st0|] eqn:Hinit; [|done].
  eapply (run_preserves
            (fun st => progressIndicator st = None ∧ progressTimeouts st = 0%nat)
            in_time); [|done|by eapply initialize_indicator|done].
  intros w1 task st1 st2 Hw1 Hst1 Hstep. by eapply step_indicator.
Qed.

(** X25. What [findElementByIdentifier] returns: it never throws, and an
    element it returns is in the document and is what the lookup named by
    the identifier gave for its value, the identifier being an object whose
    type is [css], [xpath] or [id] and whose value is a string that is not
    empty. *)
Theorem findElementByIdentifier_sound (w : World Elem) (elementId : Identifier)
    (e : Elem) :
  findElementByIdentifier w elementId = Some e →
  contains w e = true
  ∧ validateElementIdentifier elementId = true
  ∧ ∃ t value,
      elementId = IdObject (DString t) (DString value)
      ∧ value ≠ EmptyString
      ∧ ((t = "css" ∧ querySelector w value = Some (Some e))
         ∨ (t = "xpath" ∧ evaluate w value = Some (Some e))
         ∨ (t = "id" ∧ getElementById w value = Some e)).
Proof.
  unfold findElementByIdentifier.
  destruct (validateElementIdentifier elementId) eqn:Hvalid; [|done].
  cbn [negb]. destruct elementId as [| |[| | |t| |] [| | |value| |]]; try done.
  intros Hfound.
  assert (Hvalue : value ≠ EmptyString).
  { intros ->. cbn in Hvalid. by destruct (truthy t). }
  destruct (bool_decide (t = "css")) eqn:Hcss;
    [|destruct (bool_decide (t = "xpath")) eqn:Hxpath;
      [|destruct (bool_decide (t = "id")) eqn:Hid; [|done]]].
  - apply bool_decide_eq_true in Hcss as ->.
    destruct (querySelector w value) as [[e'|]|] eqn:Hlookup; try done.
    destruct (contains w e') eqn:Hin; [|done]. injection Hfound as ->.
    split; [done|]. split; [done|]. eexists _, _. by repeat split; auto.
  - apply bool_decide_eq_true in Hxpath as ->.
    destruct (evaluate w value) as [[e'|]|] eqn:Hlookup; try done.
    destruct (contains w e') eqn:Hin; [|done]. injection Hfound as ->.
    split; [done|]. split; [done|]. eexists _, _. by repeat split; auto.
  - apply bool_decide_eq_true in Hid as ->.
    destruct (getElementById w value) as [e'|] eqn:Hlookup; try done.
    destruct (contains w e') eqn:Hin; [|done]. injection Hfound as ->.
    split; [done|]. split; [done|]. eexists _, _. by repeat split; auto.
Qed.

End ScriptProps.

Lemma cancelCalculation_never_witness :
  ∃ st, session (example_world (clock_of 1)) Config.GetFails
          [(example_world (clock_of 1), select_save);
           (example_world (clock_of 1), cancel_message)] = Some st
        ∧ calculationAbortController st = false
        ∧ (∀ w' elementId,
             onMessage w' (MsgValue (DString "cancelCalculation") elementId) st
             = (st, [RespCancelled false]))
        ∧ (∀ w' st' err,
             calculateHitRegions w' st = Some (st', Some (PassError err)) →
             err = ExceededTimeout 10000).
Proof.
  assert (E : ∃ st, session (example_world (clock_of 1)) Config.GetFails
                      [(example_world (clock_of 1), select_save);
                       (example_world (clock_of 1), cancel_message)] = Some st)
    by (eexists; vm_compute; reflexivity).
  destruct E as [st E]. exists st. split; [exact E|].
  exact (cancelCalculation_never _ _ _ _ E).
Defined.

Lemma failed_first_pass_final_witness :
  ∃ st0, initialize (example_world (clock_of 20000)) Config.GetFails initial
         = Some st0
         ∧ hitRegionMap st0 = None
         ∧ ∃ st, run [(example_world (clock_of 1), select_save)] st0 = Some st
                 ∧ inert st
                 ∧ ∀ w' t elementId,
                     t = "elementSelected" ∨ t = "elementHovered" →
                     (onMessage w' (MsgValue (DString t) elementId) st).2
                     = [RespSuccess false]
                     ∨ (onMessage w' (MsgValue (DString t) elementId) st).2
                       = [RespElementNotFound].
Proof.
  assert (E : ∃ st0, initialize (example_world (clock_of 20000)) Config.GetFails
                       initial = Some st0
                     ∧ hitRegionMap st0 = None)
    by (eexists; split; vm_compute; reflexivity).
  destruct E as (st0 & E & Hnone). exists st0. split; [exact E|].
  split; [exact Hnone|].
  exact (failed_first_pass_final _ _ _
           [(example_world (clock_of 1), select_save)] E Hnone).
Defined.

Lemma handlePageChanges_outcomes_witness :
  ∃ st st' m,
    session (example_world (clock_of 1)) Config.GetFails
      [(example_world (clock_of 1), select_save)] = Some st
    ∧ handlePageChanges (example_world (clock_of 20000)) st = Some st'
    ∧ hitRegionMap st = Some m
    ∧ ∃ m', hitRegionMap st' = Some m'.
Proof.
  assert (E : ∃ st st' m,
            session (example_world (clock_of 1)) Config.GetFails
              [(example_world (clock_of 1), select_save)] = Some st
            ∧ handlePageChanges (example_world (clock_of 20000)) st = Some st'
            ∧ hitRegionMap st = Some m)
    by (eexists _, _, _; do 2 (split; [vm_compute; reflexivity|]);
        vm_compute; reflexivity).
  destruct E as (st & st' & m & E & Hhandle & Hmap).
  exists st, st', m. split; [exact E|]. split; [exact Hhandle|].
  split; [exact Hmap|].
  destruct (handlePageChanges_outcomes _ _ _ _ Hhandle Hmap)
    as [(_ & Hmap' & _)
       |[(_ & _ & Hmap' & _)
        |(_ & m' & config & resolution & trace & _ & _ & _ & Hmap' & _)]];
    eexists; exact Hmap'.
Defined.

Lemma storage_change_unmerged_witness :
  ∃ st st',
    session (example_world (clock_of 1)) Config.GetFails
      [(example_world (clock_of 1), select_save)] = Some st
    ∧ step (example_world (clock_of 1))
        (OnStorageChanged (Some (Some Config.DEFAULT_CONFIG, None)) "sync") st
      = Some st'
    ∧ currentConfig st' = Some ∅
    ∧ ∀ w'' st'',
        handlePageChanges w'' st' = Some st'' →
        hitRegionMap st'' = option_map clear (hitRegionMap st')
        ∧ currentlySelectedElement st'' = None.
Proof.
  assert (E : ∃ st st',
            session (example_world (clock_of 1)) Config.GetFails
              [(example_world (clock_of 1), select_save)] = Some st
            ∧ storageListener st = true
            ∧ step (example_world (clock_of 1))
                (OnStorageChanged (Some (Some Config.DEFAULT_CONFIG, None)) "sync")
                st = Some st')
    by (eexists _, _; do 2 (split; [vm_compute; reflexivity|]);
        vm_compute; reflexivity).
  destruct E as (st & st' & E & Hlisten & Hstep).
  exists st, st'. split; [exact E|]. split; [exact Hstep|].
  destruct (storage_change_unmerged _ _ _ _ _ _ _ _ E Hlisten Hstep)
    as (Hconfig & _ & Hauto).
  split; [exact Hconfig|]. exact (proj2 (Hauto eq_refl)).
Defined.

Lemma progress_indicator_unused_witness :
  ∃ st,
    session (example_world (clock_of 1)) Config.GetFails
      [(example_world (clock_of 1), select_save);
       (example_world (clock_of 1), OnMutations [text_node_added]);
       (example_world (clock_of 1), MutationTimeout);
       (example_world (clock_of 1), ProgressTimeout)] = Some st
    ∧ progressIndicator st = None ∧ progressTimeouts st = 0%nat.
Proof.
  assert (E : ∃ st,
            session (example_world (clock_of 1)) Config.GetFails
              [(example_world (clock_of 1), select_save);
               (example_world (clock_of 1), OnMutations [text_node_added]);
               (example_world (clock_of 1), MutationTimeout);
               (example_world (clock_of 1), ProgressTimeout)] = Some st)
    by (eexists; vm_compute; reflexivity).
  destruct E as [st E]. exists st. split; [exact E|].
  assert (Htime : in_time (example_world (clock_of 1))).
  { intros resolution coordinates k Hgrid Hk.
    apply generateCoordinateGrid_length in Hgrid; [|reflexivity..].
    change (innerWidth (host (example_world (clock_of 1)))) with 100 in Hgrid.
    change (innerHeight (host (example_world (clock_of 1)))) with 50 in Hgrid.
    change (performanceNow (host (example_world (clock_of 1)))) with (clock_of 1).
    unfold clock_of. lia. }
  refine (progress_indicator_unused _ _ _ _ Htime _ E).
  repeat constructor; exact Htime.
Defined.

Lemma findElementByIdentifier_sound_witness :
  findElementByIdentifier (example_world (clock_of 1))
    (IdObject (DString "css") (DString "#save")) = Some 1%nat
  ∧ contains (example_world (clock_of 1)) 1%nat = true.
Proof.
  assert (E : findElementByIdentifier (example_world (clock_of 1))
                (IdObject (DString "css") (DString "#save")) = Some 1%nat)
    by (vm_compute; reflexivity).
  split; [exact E|].
  exact (proj1 (findElementByIdentifier_sound _ _ _ E)).
Defined.

End ScriptProps.

(* ===================================================================== *)
(** * Properties of the options page *)
(* ===================================================================== *)

Module OptionsPageProps.
Import OptionsPage.

Lemma num_gt_50_100 (n : JsNumber) :
  num_gt n (num_of_Z 50) = false → num_gt n (num_of_Z 100) = false.
Proof.
  unfold num_gt, num_lt, num_of_Z. destruct n as [|[|]|q]; try done.
  intros Hle. apply negb_false_iff in Hle. apply negb_false_iff.
  apply Qle_bool_iff in Hle. apply Qle_bool_iff.
  eapply Qle_trans; [exact Hle|]. by apply Qle_bool_iff.
Qed.

(** X26. What the options page writes passes the check of the manager:
    a configuration that the save handler hands to the store has all four
    settings, so that spreading it over the defaults gives it back, and it
    is accepted by [validateConfiguration], its resolution being at most
    50.  Neither check stops [NaN]: a resolution input that [parseInt]
    cannot read is written as [NaN]. *)
Theorem save_click_valid (form : Form) (set_fails : bool)
    (config : Config.Configuration) :
  save_click form set_fails = Saved config →
  Config.validateConfiguration config = true
  ∧ Config.spread Config.DEFAULT_CONFIG config = config
  ∧ Config.get config "samplingResolution" = DNumber (resolution_parsed form)
  ∧ num_gt (resolution_parsed form) (num_of_Z 50) = false
  ∧ (resolution_parsed form = NumNaN →
     Config.get config "samplingResolution" = DNumber NumNaN).
Proof.
  unfold save_click.
  destruct (_ || _) eqn:Hres; [done|].
  destruct (is_hex_color (color_value form)) eqn:Hcolor; [|done].
  cbn [negb].
  destruct (num_lt (div_100 _) _ || _) eqn:Hopacity; [done|].
  destruct set_fails; [done|]. intros [= <-].
  apply orb_false_iff in Hres as [Hlow Hhigh].
  set (config := <["samplingResolution" := _]> _).
  assert (Hresolution : Config.get config "samplingResolution"
                        = DNumber (resolution_parsed form)).
  { unfold Config.get, config. by rewrite lookup_insert_eq. }
  assert (Hcolor' : Config.get config "highlightColor"
                    = DString (color_value form)).
  { unfold Config.get, config.
    by rewrite lookup_insert_ne, lookup_insert_eq by done. }
  assert (Hopacity' : Config.get config "highlightOpacity"
                      = DNumber (div_100 (opacity_parsed form))).
  { unfold Config.get, config.
    by rewrite !lookup_insert_ne, lookup_insert_eq by done. }
  assert (Hauto : Config.get config "autoRecalculate"
                  = DBoolean (autoRecalculate_checked form)).
  { unfold Config.get, config.
    by rewrite !lookup_insert_ne, lookup_insert_eq by done. }
  split; [|split; [|split; [|split]]].
  - unfold Config.validateConfiguration.
    rewrite Hresolution, Hcolor', Hopacity', Hauto.
    by rewrite Hlow, (num_gt_50_100 _ Hhigh), Hcolor, Hopacity.
  - unfold Config.spread. apply map_eq. intros key.
    rewrite lookup_union. unfold Config.DEFAULT_CONFIG, config.
    destruct (decide (key = "samplingResolution")) as [->|?];
      [by rewrite !lookup_insert_eq|].
    destruct (decide (key = "highlightColor")) as [->|?];
      [by rewrite !lookup_insert_ne, !lookup_insert_eq by done|].
    destruct (decide (key = "highlightOpacity")) as [->|?];
      [by rewrite !lookup_insert_ne, !lookup_insert_eq by done|].
    destruct (decide (key = "autoRecalculate")) as [->|?];
      [by rewrite !lookup_insert_ne, !lookup_insert_eq by done|].
    by rewrite !lookup_insert_ne, !lookup_empty by done.
  - done.
  - done.
  - intros Hnan. by rewrite Hresolution, Hnan.
Qed.

Lemma save_click_valid_witness :
  ∃ config,
    save_click {| resolution_parsed := NumNaN; color_value := "#00ff00";
                  opacity_parsed := num_of_Z 30;
                  autoRecalculate_checked := true |} false = Saved config
    ∧ Config.validateConfiguration config = true
    ∧ Config.get config "samplingResolution" = DNumber NumNaN.
Proof.
  assert (E : ∃ config,
            save_click {| resolution_parsed := NumNaN; color_value := "#00ff00";
                          opacity_parsed := num_of_Z 30;
                          autoRecalculate_checked := true |} false = Saved config)
    by (eexists; vm_compute; reflexivity).
  destruct E as [config E]. exists config. split; [exact E|].
  destruct (save_click_valid _ _ _ E) as (Hvalid & _ & _ & _ & Hnan).
  split; [exact Hvalid|exact (Hnan eq_refl)].
Defined.

End OptionsPageProps.

(* ===================================================================== *)
(** * The mutation filter on style records *)
(* ===================================================================== *)

(** X27. The filter on an attribute record for [style]: the record does
    not say what changed, and the filter reads the inline style the target
    has after the change.  The record is relevant exactly when that style
    sets [pointer-events] or one of the positioning properties, so a change
    that leaves none of them set, the removal of the last one included, is
    not relevant.  On a target without a [style] object the filter throws,
    and so does the observer's callback when it reaches the record: no
    timer is armed, whatever records follow in the batch. *)
Theorem isRelevantMutation_style_record (mutation : MutationRecord) :
  style_record mutation →
  (∀ style, target_style mutation = Some style →
     (isRelevantMutation mutation = Some true ↔ has_layout_style style)
     ∧ (isRelevantMutation mutation = Some false ↔ ¬ has_layout_style style))
  ∧ (target_style mutation = None →
     isRelevantMutation mutation = None
     ∧ ∀ (before after : list MutationRecord) (st : ContentState nat),
         Forall (fun r => isRelevantMutation r = Some false) before →
         mutation_callback (before ++ mutation :: after) st = None).
Proof.
  intros Hstyle. pose proof (isRelevantMutation_style mutation Hstyle) as Hrel.
  split.
  - intros style Hsome. rewrite Hsome in Hrel. rewrite Hrel.
    pose proof (style_test_spec style) as Hspec.
    destruct (_ || _); split.
    + split; [intros _; by apply Hspec|done].
    + split; [done|]. intros Hno. destruct Hno. by apply Hspec.
    + split; [done|]. intros Hlayout. apply Hspec in Hlayout. done.
    + split; [|done]. intros _ Hlayout. apply Hspec in Hlayout. done.
  - intros Hnone. rewrite Hnone in Hrel. split; [done|].
    intros before after st Hbefore. unfold mutation_callback.
    assert (some_isRelevantMutation (before ++ mutation :: after) = None) as ->;
      [|done].
    induction Hbefore as [|r l Hr _ IH]; simpl; [by rewrite Hrel|].
    by rewrite Hr.
Qed.

Lemma isRelevantMutation_style_record_witness :
  style_record style_cleared
  ∧ isRelevantMutation style_cleared = Some false
  ∧ style_record style_of_plain_element
  ∧ mutation_callback [style_cleared; style_of_plain_element; text_node_added]
      idle_state = None.
Proof.
  assert (Hcleared : style_record style_cleared) by done.
  assert (Hplain : style_record style_of_plain_element) by done.
  split; [exact Hcleared|]. split.
  - apply (proj1 (isRelevantMutation_style_record style_cleared Hcleared)
             unset_style eq_refl).
    unfold has_layout_style, unset_style. simpl. tauto.
  - split; [exact Hplain|].
    apply (proj2 (proj2 (isRelevantMutation_style_record
                           style_of_plain_element Hplain) eq_refl)
             [style_cleared] [text_node_added] idle_state).
    repeat constructor.
Defined.
